(** * Distributed bitonic sort (arbitrary.cpp): model and properties

    The C++ sources sort a sequence spread over MPI ranks with a bitonic
    sorting network.  This development embeds

    - [compareSwap], the local compare-exchange on a buffer;
    - [isInSubset], the generated rank subset and its membership predicate;
    - [bitonicSort] and [main], as the per-rank sequence of buffer and
      transport operations the code performs (its control flow depends on
      ranks and sizes only, never on the data);
    - a network of ranks with FIFO message delivery on which those programs
      run, with any interleaving of the ranks or under a fair schedule.

    The statements are numbered C1 to C10.  Definitions come first, then
    the properties: compareSwap (C2, C7, C8), isInSubset (C3, C10), the
    rounds of a merge (C4, C5), the absence of a topology check in main
    (C9), the conservation of the elements of a merge (C6), the agreement
    of all interleavings of the ranks, and the run of main (C1).

    Further properties, numbered X1 to X10, follow: compareSwap on bitonic
    sequences and what a merge assembles, the run of one merge and of main
    on a sequence of [2^p] elements whatever the interleaving, the idle
    last process, and the second program of the sources, which merges one
    bitonic sequence.

    C [int] values are modelled as [Z]; every index and rank computed by the
    programs stays within the array sizes, far from the range in which signed
    arithmetic is undefined.  Integer division is C's truncating division,
    [Z.quot].  For the statements about [isInSubset] on all its arguments
    the function is also given on 32-bit integers and with a bounded
    memory (module [Int32]); within the range of [int] and of the memory
    the two descriptions agree. *)

From stdpp Require Import base numbers list relations.

Local Open Scope Z_scope.

(** ** Buffers *)

(** A buffer ([int*] with its extent) is a list of integers.  Reading or
    writing outside the extent is undefined in C; [!!!] and [<[_:=_]>] give
    a default there, and every statement below about a call assumes the
    accessed range lies inside the buffer. *)
Abbreviation buffer := (list Z).

(** ** compareSwap (arbitrary.cpp, lines 34-44) *)

(** The guard of the swap, [ascending ^ (subsequence[i] < subsequence[i+half])]. *)
Definition swapTest (ascending : bool) (a b : Z) : bool :=
  xorb ascending (a <? b).

(** One iteration of the loop.  The state carries the buffer and, as a
    record of the control flow, the indices at which the swap block ran. *)
Definition compareSwap_body (ascending : bool) (half i : nat)
    (st : buffer * list nat) : buffer * list nat :=
  let subsequence := st.1 in
  if swapTest ascending (subsequence !!! i) (subsequence !!! (i + half))%nat then
    let temp := subsequence !!! i in
    let s1 := <[i := subsequence !!! (i + half)%nat]> subsequence in
    let s2 := <[(i + half)%nat := temp]> s1 in
    (s2, st.2 ++ [i])
  else st.

(** [for (int i = 0; i < half; i++)] from a given state. *)
Definition compareSwap_loop (ascending : bool) (half count : nat)
    (st : buffer * list nat) : buffer * list nat :=
  foldl (fun st i => compareSwap_body ascending half i st) st (seq 0 count).

Definition compareSwap_run (subsequence : buffer) (n_elements : Z)
    (ascending : bool) : buffer * list nat :=
  let half := Z.to_nat (n_elements `quot` 2) in
  compareSwap_loop ascending half half (subsequence, []).

(** The buffer after the call. *)
Definition compareSwap (subsequence : buffer) (n_elements : Z)
    (ascending : bool) : buffer :=
  (compareSwap_run subsequence n_elements ascending).1.

(** The indices [i] whose pair [(i, i + half)] was exchanged by the call. *)
Definition compareSwap_swaps (subsequence : buffer) (n_elements : Z)
    (ascending : bool) : list nat :=
  (compareSwap_run subsequence n_elements ascending).2.

(** The condition the specification gives for a swap: the relative order of
    the pair contradicts the direction, strictly. *)
Definition contradicts (ascending : bool) (a b : Z) : bool :=
  if ascending then b <? a else a <? b.

(** A pair is in order for the direction. *)
Definition ordered (ascending : bool) (a b : Z) : Prop :=
  if ascending then a ≤ b else b ≤ a.

(** Closed form of the buffer after [count] iterations. *)
Definition cs_value (ascending : bool) (half count : nat) (s : buffer)
    (j : nat) : Z :=
  if decide (j < count)%nat then
    if swapTest ascending (s !!! j) (s !!! (j + half)%nat)
    then s !!! (j + half)%nat else s !!! j
  else if decide (half ≤ j < half + count)%nat then
    if swapTest ascending (s !!! (j - half)%nat) (s !!! j)
    then s !!! (j - half)%nat else s !!! j
  else s !!! j.

(** ** Loops of the source *)

(** [for (int i = i0; i < bound; i += inc) body], as a state transformer
    with a budget of iterations: [None] when the budget runs out while the
    loop condition still holds. *)
Fixpoint for_loop {S : Type} (fuel : nat) (i bound inc : Z)
    (body : Z → S → S) (s : S) : option S :=
  if bool_decide (i < bound) then
    match fuel with
    | O => None
    | S fuel' => for_loop fuel' (i + inc) bound inc body (body i s)
    end
  else Some s.

(** [while (m > 1) { body; m /= 2; step *= 2; }], the round loop of one
    merge (lines 84-102). *)
Fixpoint round_loop {S : Type} (fuel : nat) (m step : Z)
    (body : Z → Z → S → option S) (s : S) : option S :=
  if bool_decide (m > 1) then
    match fuel with
    | O => None
    | S fuel' =>
        s' ← body m step s;
        round_loop fuel' (m `quot` 2) (step * 2) body s'
    end
  else Some s.

(** [while (k <= n) { body; k *= 2; }], the level loop of [main]
    (lines 156-182). *)
Fixpoint level_loop {S : Type} (fuel : nat) (k n : Z)
    (body : Z → S → option S) (s : S) : option S :=
  if bool_decide (k ≤ n) then
    match fuel with
    | O => None
    | S fuel' =>
        s' ← body k s;
        level_loop fuel' (k * 2) n body s'
    end
  else Some s.

(** ** isInSubset (lines 58-64) *)

(** The vector [nodes] built by the loop, with an explicit budget. *)
Definition isInSubset_nodes (fuel : nat) (half step offset : Z)
    : option (list Z) :=
  for_loop fuel 0 half (half `quot` step)
    (fun i nodes => nodes ++ [i + offset]) [].

(** [std::find(nodes.begin(), nodes.end(), rank) != nodes.end()]. *)
Definition found (nodes : list Z) (rank : Z) : bool :=
  existsb (Z.eqb rank) nodes.

(** The call returns when the loop does.  A loop that stops at all stops
    within [half] iterations ([isInSubset_nodes_fuel] below), so this budget
    loses nothing: [None] means that the condition of the C++ loop never
    fails, and that the call returns no predicate.  ([Int32.isInSubset]
    below says how such a call ends, and returns this predicate whenever
    the arguments are within the range of [int] and of the memory.) *)
Definition isInSubset (half step offset : Z) : option (Z → bool) :=
  nodes ← isInSubset_nodes (Z.to_nat half) half step offset;
  Some (found nodes).

(** ** Operations of one rank *)

(** What a rank does to its buffer and to the transport.  All messages
    carry the same tag (123), which is therefore left out.

    [Fatal] stands for the report of a fatal error followed by termination
    (a diagnostic with [MPI_Abort] or a non-zero exit).  No statement of
    arbitrary.cpp does this; the constructor is there so that statements
    about error reporting can be written down. *)
Inductive action : Type :=
  | Scatter                                  (* MPI_Scatter(buf, 2, .., buf, 2, .., 0, ..) *)
  | CompareSwap (n : Z) (ascending : bool)   (* compareSwap(buf, n, ascending) *)
  | Send (off count dest : Z)                (* MPI_Send(&buf[off], count, .., dest, ..) *)
  | Recv (off count source : Z)              (* MPI_Recv(&buf[off], count, .., source, ..) *)
  | Finalize                                 (* MPI_Finalize() *)
  | Display (n : Z)                          (* rank 0 prints buf[0..n) *)
  | Fatal.

Definition is_exchange (a : action) : bool :=
  match a with
  | Scatter | Send _ _ _ | Recv _ _ _ => true
  | _ => false
  end.

(** ** bitonicSort (lines 76-117) *)

(** The body of the round loop for the rank [rank] (lines 86-98). *)
Definition bitonicSort_round (n master_node rank : Z) (ascending : bool)
    (m step : Z) (acts : list action) : option (list action) :=
  match isInSubset (n `quot` 2) step master_node,
        isInSubset (n `quot` 2) step (master_node + m `quot` 2) with
  | Some isASender, Some isAReceiver =>
      Some (acts ++
        if isASender rank then
          let receiver := rank + m `quot` 2 in
          [Send m m receiver; CompareSwap m ascending]
        else if isAReceiver rank then
          let sender := rank - m `quot` 2 in
          [Recv 0 m sender; CompareSwap m ascending]
        else [])
  | _, _ => None
  end.

(** The manual gather (lines 108-116). *)
Definition bitonicSort_gather (n master_node rank : Z) : list action :=
  if bool_decide (rank ≠ master_node) then
    [Send 0 2 master_node]
  else
    (fun i => Recv (2 * i) 2 (master_node + i)) <$> seqZ 1 (n `quot` 2 - 1).

(** The operations of [bitonicSort(buf, n, master_node, rank, ascending)],
    in program order.  [m] decreases at every round, so [m] iterations are
    enough for the round loop. *)
Definition bitonicSort (n master_node rank : Z) (ascending : bool)
    : option (list action) :=
  let m := n `quot` 2 in
  let first := if bool_decide (rank = master_node)
               then [CompareSwap n ascending] else [] in
  rounds ← round_loop (Z.to_nat m) m 1
              (bitonicSort_round n master_node rank ascending) first;
  Some (rounds ++ bitonicSort_gather n master_node rank).

(** The pairs [(m, step)] visited by the round loop of a merge of width
    [n]. *)
Definition rounds (n : Z) : option (list (Z * Z)) :=
  let m := n `quot` 2 in
  round_loop (Z.to_nat m) m 1
    (fun m step visited => Some (visited ++ [(m, step)])) [].

(** ** main (lines 119-194) *)

(** The regrouping loop of one level (lines 160-171). *)
Definition regroup (n k rank : Z) (acts : list action)
    : option (list action) :=
  for_loop (Z.to_nat (n `quot` 2)) 0 (n `quot` 2) (k `quot` 4)
    (fun i acts =>
       if bool_decide (rank = i) then
         let master_node :=
           if bool_decide (i `rem` (k `quot` 2) = 0) then i
           else i - k `quot` 4 in
         acts ++ [Send 0 (k `quot` 2) master_node] ++
         (if bool_decide (rank = master_node) then
            [Recv 0 (k `quot` 2) i;
             Recv (k `quot` 2) (k `quot` 2) (i + k `quot` 4)]
          else [])
       else acts) acts.

(** The loop over the groups of one level (lines 174-180): the rank runs
    [bitonicSort] for the group that contains it. *)
Definition sort_groups (n k rank : Z) (acts : list action)
    : option (list action) :=
  foldl (fun (acc : option (list action)) (i : Z) =>
           acts ← acc;
           let master_node := i * (k `quot` 2) in
           if bool_decide (master_node ≤ rank ∧ rank < master_node + k `quot` 2)
           then
             let ascending := bool_decide (i `rem` 2 = 0) in
             sorted ← bitonicSort k master_node rank ascending;
             Some (acts ++ sorted)
           else Some acts)
        (Some acts) (seqZ 0 (n `quot` k)).

(** The sequence length is derived from the process count (lines
    128-129). *)
Definition main_n (nb_instances : Z) : Z :=
  let cnodes := nb_instances - 1 in cnodes * 2.

(** The operations of [main] on the rank [rank] among [nb_instances]
    processes, in program order. *)
Definition main (nb_instances rank : Z) : option (list action) :=
  let n := main_n nb_instances in
  levels ← level_loop (Z.to_nat n) 4 n
              (fun k acts => acts ← regroup n k rank acts;
                             sort_groups n k rank acts)
              [Scatter; CompareSwap 2 (bool_decide (rank `rem` 2 = 0))];
  Some (levels ++ [Finalize] ++
        if bool_decide (rank = 0) then [Display n] else []).

(** The widths [k] visited by the level loop of [main] for a sequence of
    length [n]. *)
Definition widths (n : Z) : option (list Z) :=
  level_loop (Z.to_nat n) 4 n (fun k visited => Some (visited ++ [k])) [].

(** The fixed sequence used when [n == 16] (line 136). *)
Definition A16 : buffer :=
  [10; 6; 14; 11; 9; 16; 3; 13; 8; 12; 5; 2; 4; 15; 1; 7].

(** ** The network of ranks *)

(** [&buf[off]] with [count] elements, and the write of received data at
    [&buf[off]]. *)
Definition slice (off count : Z) (b : buffer) : list Z :=
  take (Z.to_nat count) (drop (Z.to_nat off) b).

Definition store (off : Z) (data : list Z) (b : buffer) : buffer :=
  list_inserts (Z.to_nat off) data b.

(** A rank: the operations it still has to perform, its buffer and the
    sequences it has displayed. *)
Record node : Type :=
  Node { prog : list action; buf : buffer; out : list (list Z) }.

(** A message in transit: source, destination, payload. *)
Definition message : Type := nat * nat * list Z.

(** The ranks, the messages sent and not yet received (oldest first) and
    the root's buffer as handed to the scatter. *)
Record network : Type := Network {
  nodes : list node;
  inflight : list message;
  scattered : option buffer
}.

(** The oldest message from [src] to [dst]: messages between two ranks are
    received in the order in which they were sent. *)
Fixpoint take_msg (src dst : nat) (msgs : list message)
    : option (list Z * list message) :=
  match msgs with
  | [] => None
  | (s, d, payload) :: rest =>
      if bool_decide (s = src ∧ d = dst) then Some (payload, rest)
      else
        match take_msg src dst rest with
        | Some (p, rest') => Some (p, (s, d, payload) :: rest')
        | None => None
        end
  end.

(** The effect of one operation of rank [r], among [ranks] ranks, on its
    buffer and its output, on the scattered data and on the messages in
    transit.  [None]: the rank waits for a message that has not been sent
    yet, or the operation is not defined (an access outside the buffer, a
    peer that does not exist, a fatal stop).

    [MPI_Send] completes locally with the message buffered: the regrouping
    sends a block from a rank to itself before receiving it (lines
    163-166), which only works with such sends.

    In the scatter the root hands out its buffer in blocks of two, block
    [r] to rank [r]; a rank whose block lies beyond the root's array
    receives indeterminate values, as its uninitialised buffer already
    holds.  A run scatters once. *)
Definition effect (r ranks : nat) (a : action) (b : buffer)
    (o : list (list Z)) (sc : option buffer) (msgs : list message)
    : option (buffer * list (list Z) * option buffer * list message) :=
  match a with
  | CompareSwap n ascending =>
      if bool_decide (Z.to_nat n ≤ length b)%nat
      then Some (compareSwap b n ascending, o, sc, msgs) else None
  | Send off count dest =>
      if bool_decide (0 ≤ off ∧ 0 ≤ count ∧
                      (Z.to_nat off + Z.to_nat count ≤ length b)%nat ∧
                      0 ≤ dest < Z.of_nat ranks)
      then Some (b, o, sc, msgs ++ [(r, Z.to_nat dest, slice off count b)])
      else None
  | Recv off count source =>
      if bool_decide (0 ≤ off ∧ 0 ≤ count ∧ 0 ≤ source) then
        match take_msg (Z.to_nat source) r msgs with
        | Some (payload, msgs') =>
            if bool_decide (length payload ≤ Z.to_nat count ∧
                            Z.to_nat off + length payload ≤ length b)%nat
            then Some (store off payload b, o, sc, msgs') else None
        | None => None
        end
      else None
  | Scatter =>
      let data := if bool_decide (r = 0%nat)
                  then match sc with None => Some b | Some _ => None end
                  else sc in
      match data with
      | Some root_buf =>
          Some (store 0 (slice (2 * Z.of_nat r) 2 root_buf) b, o, data, msgs)
      | None => None
      end
  | Finalize => Some (b, o, sc, msgs)
  | Display n => Some (b, o ++ [slice 0 n b], sc, msgs)
  | Fatal => None
  end.

(** One operation of rank [r]; [None] also when the rank has finished. *)
Definition exec (r : nat) (net : network) : option network :=
  match nodes net !! r with
  | Some (Node (a :: rest) b o) =>
      match effect r (length (nodes net)) a b o
              (scattered net) (inflight net) with
      | Some (b', o', sc', msgs') =>
          Some (Network (<[r := Node rest b' o']> (nodes net)) msgs' sc')
      | None => None
      end
  | _ => None
  end.

(** Any rank that can move may move. *)
Definition step (net net' : network) : Prop :=
  ∃ r, exec r net = Some net'.

Definition reachable : network → network → Prop := rtc step.

(** All ranks have run their programs to the end. *)
Definition finished (net : network) : bool :=
  forallb (fun nd => match prog nd with [] => true | _ => false end)
    (nodes net).

(** A fair deterministic schedule: sweep over the ranks in order, each
    performing one operation if it can, until all have finished. *)
Definition sweep (net : network) : network :=
  foldl (fun nt r => default nt (exec r nt)) net (seq 0 (length (nodes net))).

Fixpoint run (fuel : nat) (net : network) : option network :=
  if finished net then Some net
  else match fuel with
       | O => None
       | S fuel' => run fuel' (sweep net)
       end.

(** ** Running main *)

(** The [nb_instances] processes at start-up.  Rank 0 holds the sequence to
    sort; the buffers of the other ranks are uninitialised, their contents
    [junk r i] arbitrary. *)
Definition start (progs : list (list action)) (input : buffer)
    (junk : nat → nat → Z) : network :=
  let n := length input in
  Network
    (imap (fun r p => Node p (if bool_decide (r = 0%nat) then input
                              else junk r <$> seq 0 n) []) progs)
    [] None.

Definition main_progs (nb_instances : Z) : option (list (list action)) :=
  mapM (fun r => main nb_instances (Z.of_nat r))
    (seq 0 (Z.to_nat nb_instances)).

(** What rank [r] has displayed. *)
Definition displayed (r : nat) (net : network) : list (list Z) :=
  default [] (out <$> nodes net !! r).

(** The sequences displayed by rank 0 when [main] runs on [nb_instances]
    processes, under the fair schedule, with [input] as the initial
    sequence. *)
Definition main_output (fuel : nat) (nb_instances : Z) (input : buffer)
    (junk : nat → nat → Z) : option (list (list Z)) :=
  progs ← main_progs nb_instances;
  net ← run fuel (start progs input junk);
  Some (displayed 0 net).

(** ** One merge on the network *)

(** The ranks of the group [master_node .. master_node + n/2) run
    [bitonicSort]; the other ranks of the network do nothing. *)
Definition merge_progs (ranks : nat) (n master_node : Z) (ascending : bool)
    : option (list (list action)) :=
  mapM (fun r =>
          let rank := Z.of_nat r in
          if bool_decide (master_node ≤ rank ∧ rank < master_node + n `quot` 2)
          then bitonicSort n master_node rank ascending
          else Some [])
       (seq 0 ranks).

Definition merge_start (progs : list (list action)) (bufs : list buffer)
    : network :=
  Network (zip_with (fun p b => Node p b []) progs bufs) [] None.

(** ** Closed forms used in the statements *)

(** Number of iterations of [for (i = i0; i < bound; i += inc)] when
    [inc] is positive. *)
Definition iterations (i bound inc : Z) : nat :=
  Z.to_nat ((bound - i + inc - 1) `div` inc).

(** The round loop on powers of two: [q] rounds with [m = 2^q, .., 2] and
    [step] doubling. *)
Fixpoint rounds_pow2 {S : Type} (q j : nat) (body : Z → Z → S → option S)
    (s : S) : option S :=
  match q with
  | O => Some s
  | S q' =>
      match body (2 ^ Z.of_nat q) (2 ^ Z.of_nat j) s with
      | Some s' => rounds_pow2 q' (Datatypes.S j) body s'
      | None => None
      end
  end.

(** The ranks generated by [isInSubset] when the increment [half / step]
    is positive. *)
Definition subset_nodes (half step offset : Z) : list Z :=
  (fun j : nat => Z.of_nat j * (half `quot` step) + offset) <$>
  seq 0 (iterations 0 half (half `quot` step)).

(** The roles of a round in closed form, for a group of [half] ranks
    starting at [master_node] and a round of half-width [m]: the senders are
    the ranks of the group at a multiple of [m] from the master, the
    receivers those at [m/2] past a multiple of [m]. *)
Definition sends_in_round (master_node half m rank : Z) : bool :=
  bool_decide (master_node ≤ rank < master_node + half ∧
               (rank - master_node) `mod` m = 0).

Definition receives_in_round (master_node half m rank : Z) : bool :=
  bool_decide (master_node ≤ rank < master_node + half ∧
               (rank - master_node) `mod` m = m `quot` 2).

(** What a rank does in the round of half-width [m] of a merge of width
    [k], as the specification describes it. *)
Definition round_ops (k master_node rank : Z) (ascending : bool) (m : Z)
    : list action :=
  if sends_in_round master_node (k `quot` 2) m rank then
    [Send m m (rank + m `quot` 2); CompareSwap m ascending]
  else if receives_in_round master_node (k `quot` 2) m rank then
    [Recv 0 m (rank - m `quot` 2); CompareSwap m ascending]
  else [].

(** The half-widths [2^P, 2^(P-1), .., 2] of the rounds of a merge of
    width [2^(P+1)]. *)
Fixpoint halvings (P : nat) : list Z :=
  match P with
  | O => []
  | S P' => 2 ^ Z.of_nat P :: halvings P'
  end.

(** A fatal error is reported before the first exchange of the program. *)
Fixpoint fatal_before_exchange (prog : list action) : bool :=
  match prog with
  | [] => false
  | Fatal :: _ => true
  | a :: rest => if is_exchange a then false else fatal_before_exchange rest
  end.

(** The topology constraint of the specification for a run with
    [nb_instances] processes: the worker count is N/2 and N is a power of
    two, at least 4. *)
Definition topology_ok (nb_instances : Z) : Prop :=
  let n := main_n nb_instances in
  nb_instances - 1 = n `quot` 2 ∧ 4 ≤ n ∧ ∃ p : nat, n = 2 ^ Z.of_nat p.

Definition reports_topology_error (nb_instances rank : Z) : Prop :=
  ∃ prog, main nb_instances rank = Some prog ∧
          fatal_before_exchange prog = true.


(** ** Accounting of the elements of a merge *)

(** Which cells of its buffer a rank holds is fixed by where it stands in
    its program: about to send the block at [off] it holds the cells below
    [off + count] and gives that block away; about to receive at [off] it
    holds the cells below [off]; local operations change nothing; with its
    program finished it holds [fin] cells. *)
Fixpoint holds (fin : nat) (prog : list action) : nat :=
  match prog with
  | [] => fin
  | Send off count _ :: _ => Z.to_nat off + Z.to_nat count
  | Recv off _ _ :: _ => Z.to_nat off
  | _ :: rest => holds fin rest
  end.

(** The program keeps to that discipline: a send gives away the top block
    of what is held, a receive extends what is held, compareSwap stays
    within it. *)
Fixpoint well_held (fin : nat) (prog : list action) : Prop :=
  match prog with
  | [] => True
  | Send off count _ :: rest =>
      0 ≤ off ∧ 0 ≤ count ∧ holds fin rest = Z.to_nat off ∧
      well_held fin rest
  | Recv off count _ :: rest =>
      0 ≤ off ∧ 0 ≤ count ∧
      holds fin rest = (Z.to_nat off + Z.to_nat count)%nat ∧
      well_held fin rest
  | CompareSwap n _ :: rest =>
      (Z.to_nat n ≤ holds fin rest)%nat ∧ well_held fin rest
  | Finalize :: rest | Display _ :: rest => well_held fin rest
  | Scatter :: _ | Fatal :: _ => False
  end.

(** Sizes of the blocks a program still sends to [dst], of those it still
    expects from [src], and of those in transit from [src] to [dst], each
    in order. *)
Fixpoint sends_to (dst : nat) (prog : list action) : list nat :=
  match prog with
  | [] => []
  | Send _ count dest :: rest =>
      if bool_decide (dest = Z.of_nat dst)
      then Z.to_nat count :: sends_to dst rest else sends_to dst rest
  | _ :: rest => sends_to dst rest
  end.

Fixpoint recvs_from (src : nat) (prog : list action) : list nat :=
  match prog with
  | [] => []
  | Recv _ count source :: rest =>
      if bool_decide (source = Z.of_nat src)
      then Z.to_nat count :: recvs_from src rest else recvs_from src rest
  | _ :: rest => recvs_from src rest
  end.

Fixpoint queued (src dst : nat) (msgs : list message) : list nat :=
  match msgs with
  | [] => []
  | (s, d, payload) :: rest =>
      if bool_decide (s = src ∧ d = dst)
      then length payload :: queued src dst rest else queued src dst rest
  end.

Definition prog_of (net : network) (r : nat) : list action :=
  default [] (prog <$> nodes net !! r).

(** The cells held by the ranks [r, r+1, ..] whose nodes are [nds]. *)
Fixpoint held_cells (fin : nat → nat) (r : nat) (nds : list node) : list Z :=
  match nds with
  | [] => []
  | nd :: rest =>
      take (holds (fin r) (prog nd)) (buf nd) ++ held_cells fin (S r) rest
  end.

Definition payloads (msgs : list message) : list Z :=
  mjoin ((fun msg : message => msg.2) <$> msgs).

(** All the elements of the network: those held by the ranks and those in
    transit. *)
Definition live (fin : nat → nat) (net : network) : list Z :=
  held_cells fin 0 (nodes net) ++ payloads (inflight net).

(** Every program keeps to the discipline within its buffer, and on every
    channel the blocks in transit followed by those still to be sent are
    the blocks the destination still expects. *)
Definition balanced (fin : nat → nat) (net : network) : Prop :=
  (∀ r nd, nodes net !! r = Some nd →
     well_held (fin r) (prog nd) ∧
     (holds (fin r) (prog nd) ≤ length (buf nd))%nat) ∧
  (∀ src dst,
     queued src dst (inflight net) ++ sends_to dst (prog_of net src) =
     recvs_from src (prog_of net dst)).

(** After a merge of width [n] the sub-coordinator holds the [n] elements
    and the other ranks none. *)
Definition merge_fin (n : Z) (master_node : Z) (r : nat) : nat :=
  if bool_decide (Z.of_nat r = master_node) then Z.to_nat n else 0%nat.

(** The program of rank [r] in a merge of width [k] whose group starts at
    [master_node], in closed form. *)
Definition in_group (k master_node rank : Z) : Prop :=
  master_node ≤ rank ∧ rank < master_node + k `quot` 2.

Definition group_prog (P : nat) (master_node : Z) (ascending : bool)
    (r : nat) : list action :=
  let k := 2 ^ Z.of_nat (S P) in
  let rank := Z.of_nat r in
  if bool_decide (in_group k master_node rank) then
    (if bool_decide (rank = master_node)
     then [CompareSwap k ascending] else []) ++
    mjoin (round_ops k master_node rank ascending <$> halvings P) ++
    bitonicSort_gather k master_node rank
  else [].

(** A bitonic group of eight elements at rank 0 of a network of four
    ranks. *)
Definition bufs8 : list buffer :=
  [[1; 3; 5; 7; 8; 6; 4; 2]; [0; 0; 0; 0; 0; 0; 0; 0];
   [0; 0; 0; 0; 0; 0; 0; 0]; [0; 0; 0; 0; 0; 0; 0; 0]].

(** ** Interleavings *)

(** The payloads in transit from [src] to [dst], oldest first. *)
Fixpoint channel (src dst : nat) (msgs : list message) : list (list Z) :=
  match msgs with
  | [] => []
  | (s, d, payload) :: rest =>
      if bool_decide (s = src ∧ d = dst)
      then payload :: channel src dst rest else channel src dst rest
  end.

(** The same messages on every channel, in the same order; the order in
    which messages of different channels were sent does not count. *)
Definition same_traffic (msgs1 msgs2 : list message) : Prop :=
  ∀ src dst, channel src dst msgs1 = channel src dst msgs2.

Definition net_equiv (net1 net2 : network) : Prop :=
  nodes net1 = nodes net2 ∧ scattered net1 = scattered net2 ∧
  same_traffic (inflight net1) (inflight net2).

(** No rank can move: all have finished, or those that have not wait for
    ever. *)
Definition terminal (net : network) : Prop := ∀ r, exec r net = None.

(** Operations that touch neither the scattered data nor the messages. *)
Definition quiet (a : action) : Prop :=
  match a with
  | CompareSwap _ _ | Finalize | Display _ | Fatal => True
  | _ => False
  end.

(** ** Sorted and bitonic sequences *)

(** [l] is in order for the direction: non-decreasing when [ascending],
    non-increasing otherwise. *)
Definition sorted (ascending : bool) (l : list Z) : Prop :=
  ∀ i j, (i ≤ j)%nat → (j < length l)%nat →
    ordered ascending (l !!! i) (l !!! j).

(** A bitonic sequence: in order one way up to some point and the other
    way from there on, or a rotation of such a sequence.  Written as
    [l1 ++ l2 ++ l3], the middle part [l2] goes one way and the outer
    parts, taken as [l3 ++ l1], the other way; any part may be empty. *)
Definition bitonic (l : list Z) : Prop :=
  ∃ (up : bool) (l1 l2 l3 : list Z),
    l = l1 ++ l2 ++ l3 ∧ sorted up (l3 ++ l1) ∧ sorted (negb up) l2.

(** The image of a sequence under a threshold is a sequence of zeros and
    ones. *)
Definition threshold (t x : Z) : Z := if bool_decide (t < x) then 1 else 0.

(** A sequence of zeros and ones, given by its cells [f 0 .. f (n-1)],
    that holds one value on [lo, hi) and the other value elsewhere. *)
Definition band (n : nat) (f : nat → Z) : Prop :=
  ∃ (lo hi : nat) (v : Z),
    (v = 0 ∨ v = 1) ∧ (lo ≤ hi ≤ n)%nat ∧
    ∀ i, (i < n)%nat →
      f i = if bool_decide (lo ≤ i < hi)%nat then v else 1 - v.

Definition banded (l : list Z) : Prop := band (length l) (fun i => l !!! i).

(** [2^q] as a number of cells. *)
Definition cells (q : nat) : nat := Z.to_nat (2 ^ Z.of_nat q).

(** What the rounds of a merge compute from a block of [2^(q+1)] elements
    that has been compare-swapped: the block is cut in two halves, each
    half is compare-swapped at its own width by the rank that holds it and
    cut again, down to the pairs, which are taken in rank order. *)
Fixpoint spread (q : nat) (ascending : bool) (s : list Z) : list Z :=
  match q with
  | O => take 2 s
  | S q' =>
      let m := cells q in
      spread q' ascending (compareSwap (take m s) (Z.of_nat m) ascending) ++
      spread q' ascending
        (compareSwap (take m (drop m s)) (Z.of_nat m) ascending)
  end.

(** The sequence assembled by a merge of width [2^(P+1)]. *)
Definition merge_result (P : nat) (ascending : bool) (s : list Z) : list Z :=
  spread P ascending (compareSwap s (2 ^ Z.of_nat (S P)) ascending).
(** ** Runs of a group of ranks *)

(** [net'] is reached from [net] by operations that change the ranks of
    [group] only, between two moments at which no message is in transit;
    buffers keep their sizes and nothing is displayed. *)
Definition moves (group : nat → Prop) (net net' : network) : Prop :=
  reachable net net' ∧
  inflight net = [] ∧ inflight net' = [] ∧
  (∀ r, ¬ group r → nodes net' !! r = nodes net !! r) ∧
  (∀ r nd, nodes net !! r = Some nd →
     ∃ nd', nodes net' !! r = Some nd' ∧
            length (buf nd') = length (buf nd) ∧ out nd' = out nd).

(** The rounds of half-widths [2^q, .., 2] of a merge of width [2^(P+1)]
    whose group starts at rank [master], for the rank at distance [d] from
    it: what is left of the rounds once those of larger half-widths are
    done. *)
Definition rounds_from (P master : nat) (ascending : bool) (q d : nat)
    : list action :=
  mjoin (round_ops (2 ^ Z.of_nat (S P)) (Z.of_nat master)
           (Z.of_nat (master + d)) ascending <$> halvings q).
(** ** main in closed form *)






(** ** The second program: the merge of one bitonic sequence
       (lines 260-334) *)

(** The body of its round loop (lines 302-314): the rank 0 is the
    sub-coordinator and the direction is ascending. *)
Definition main_bitonic_round (n rank m step : Z) (acts : list action)
    : option (list action) :=
  match isInSubset (n `quot` 2) step 0,
        isInSubset (n `quot` 2) step (m `quot` 2) with
  | Some isASender, Some isAReceiver =>
      Some (acts ++
        if isASender rank then
          let receiver := rank + m `quot` 2 in
          [Send m m receiver; CompareSwap m true]
        else if isAReceiver rank then
          let sender := rank - m `quot` 2 in
          [Recv 0 m sender; CompareSwap m true]
        else [])
  | _, _ => None
  end.

(** [MPI_Gather(buf, 2, MPI_INT, buf, 2, MPI_INT, 0, MPI_COMM_WORLD)]
    (line 322) among [nb_instances] processes, as the transfers it stands
    for: every process sends its first two cells to the root, and the root
    stores the block of the process [r] at the cells [2r, 2r + 1] of its
    buffer, for every process of the communicator; the block of the root
    itself is in place already. *)
Definition gather_ops (nb_instances rank : Z) : list action :=
  if bool_decide (rank = 0) then
    (fun r => Recv (2 * r) 2 r) <$> seqZ 1 (nb_instances - 1)
  else [Send 0 2 0].

(** The operations of the [main] of the second program on the rank [rank]
    among [nb_instances] processes, in program order. *)
Definition main_bitonic (nb_instances rank : Z) : option (list action) :=
  let n := main_n nb_instances in
  let m := n `quot` 2 in
  let first := if bool_decide (rank = 0) then [CompareSwap n true] else [] in
  rounds ← round_loop (Z.to_nat m) m 1 (main_bitonic_round n rank) first;
  Some (rounds ++ gather_ops nb_instances rank ++ [Finalize] ++
        if bool_decide (rank = 0) then [Display n] else []).

Definition main_bitonic_progs (nb_instances : Z)
    : option (list (list action)) :=
  mapM (fun r => main_bitonic nb_instances (Z.of_nat r))
    (seq 0 (Z.to_nat nb_instances)).

(** The processes of the second program at start-up.  Rank 0 holds the
    sequence to merge in its array [buf] of [n] cells; the arrays of the
    other ranks are uninitialised.  The gather stores one block for every
    process of the communicator, [2·nb_instances = n + 2] cells in all, so
    that at the root it also writes the two cells that follow the array.
    Those cells belong to the memory of the root, with contents [beyond] at
    start-up; nothing else of the program reads or writes them. *)
Definition start_bitonic (progs : list (list action)) (input beyond : buffer)
    (junk : nat → nat → Z) : network :=
  let n := length input in
  Network
    (imap (fun r p => Node p (if bool_decide (r = 0%nat) then input ++ beyond
                              else junk r <$> seq 0 n) []) progs)
    [] None.

(** The fixed bitonic sequence used when [n == 16] (line 277). *)
Definition A16_bitonic : buffer :=
  [14; 16; 15; 11; 9; 8; 7; 5; 4; 2; 1; 3; 6; 10; 12; 13].

(** What is left of the program of the rank [r] of the second program
    after the merge proper, for a sequence of [2^p] elements: at the root,
    the receive of the block of the last process, then the end. *)
Definition bitonic_end (p r : nat) : list action :=
  if decide (r = 0%nat) then
    [Recv (2 ^ Z.of_nat p) 2 (2 ^ Z.of_nat (p - 1)); Finalize;
     Display (2 ^ Z.of_nat p)]
  else [Finalize].

(** ** isInSubset on machine integers (lines 58-64) *)

(** The programs call [isInSubset] with ranks and half-widths that are
    small against the range of [int], and with subsets of a few ranks;
    [isInSubset_nodes] above describes those calls.  The definitions of
    this module describe the function on all its arguments: [int] is a
    32-bit integer, and the vector lives in a memory that can hold
    [capacity] ranks. *)
Module Int32.

Definition int_min : Z := -2147483648.
Definition int_max : Z := 2147483647.

(** The [int] that stands for the mathematical value [z] of an [int]
    expression.  Within [int_min .. int_max] it is [z]; outside that range
    signed arithmetic is undefined in C++, and the compiled code wraps
    around in two's complement, which is what is written here. *)
Definition wrap (z : Z) : Z :=
  (z + 2147483648) `mod` 4294967296 - 2147483648.

(** How a call ends: it returns; [nodes.push_back] throws
    [std::bad_alloc], which nothing catches, so that the process is
    terminated; [half / step] divides by zero. *)
Inductive outcome (A : Type) : Type :=
  | Returns (a : A)
  | BadAlloc
  | DivideByZero.

Arguments Returns {A} a.
Arguments BadAlloc {A}.
Arguments DivideByZero {A}.

(** [for (int i = ..; i < half; i += (half / step)) nodes.push_back(i + offset)]
    from the counter [i] and the vector [nodes], with a budget of
    iterations: [None] when the budget runs out while the loop is still
    running.  [push_back] succeeds as long as the vector holds fewer than
    [capacity] ranks.  The division is reached with [0 < half] only, so
    its quotient is an [int]. *)
Fixpoint isInSubset_loop (fuel capacity : nat) (half step offset i : Z)
    (nodes : list Z) : option (outcome (list Z)) :=
  if bool_decide (i < half) then
    match fuel with
    | O => None
    | S fuel' =>
        if bool_decide (length nodes < capacity)%nat then
          if bool_decide (step = 0) then Some DivideByZero
          else isInSubset_loop fuel' capacity half step offset
                 (wrap (i + half `quot` step)) (nodes ++ [wrap (i + offset)])
        else Some BadAlloc
    end
  else Some (Returns nodes).

Definition isInSubset_nodes (fuel capacity : nat) (half step offset : Z)
    : option (outcome (list Z)) :=
  isInSubset_loop fuel capacity half step offset 0 [].

(** The call.  Every iteration but the last one adds a rank to the
    vector, so [capacity + 1] iterations are enough for the loop to end,
    one way or another ([isInSubset_ends] below). *)
Definition isInSubset (capacity : nat) (half step offset : Z)
    : option (outcome (Z → bool)) :=
  match isInSubset_nodes (S capacity) capacity half step offset with
  | Some (Returns nodes) => Some (Returns (found nodes))
  | Some BadAlloc => Some BadAlloc
  | Some DivideByZero => Some DivideByZero
  | None => None
  end.

End Int32.

(** ** Properties of compareSwap *)

Section compareSwap_facts.

Lemma swapTest_spec ascending a b :
  swapTest ascending a b = true ↔
  (ascending = true ∧ b ≤ a) ∨ (ascending = false ∧ a < b).
Proof.
  unfold swapTest. destruct ascending; simpl;
    destruct (Z.ltb_spec a b); split; intros; try discriminate;
    intuition (try discriminate; try lia).
Qed.

Lemma swapTest_tie ascending a : swapTest ascending a a = ascending.
Proof.
  unfold swapTest. rewrite Z.ltb_irrefl. by destruct ascending.
Qed.

Lemma swapTest_contradicts ascending a b :
  a ≠ b → swapTest ascending a b = contradicts ascending a b.
Proof.
  intros Hne. unfold swapTest, contradicts.
  destruct ascending; simpl;
    destruct (Z.ltb_spec a b), (Z.ltb_spec b a); try reflexivity; lia.
Qed.

Lemma compareSwap_loop_S ascending half count st :
  compareSwap_loop ascending half (S count) st =
  compareSwap_body ascending half count
    (compareSwap_loop ascending half count st).
Proof.
  unfold compareSwap_loop. by rewrite seq_S, foldl_app.
Qed.

Lemma compareSwap_body_length ascending half i st :
  length (compareSwap_body ascending half i st).1 = length st.1.
Proof.
  unfold compareSwap_body. case_match; [|done].
  simpl. by rewrite !length_insert.
Qed.

Lemma compareSwap_loop_length ascending half count st :
  length (compareSwap_loop ascending half count st).1 = length st.1.
Proof.
  induction count as [|c IH]; [done|].
  by rewrite compareSwap_loop_S, compareSwap_body_length.
Qed.

Lemma compareSwap_length s n ascending :
  length (compareSwap s n ascending) = length s.
Proof. apply compareSwap_loop_length. Qed.

Lemma compareSwap_body_perm ascending half i st :
  (i + half < length st.1)%nat →
  (compareSwap_body ascending half i st).1 ≡ₚ st.1.
Proof.
  intros Hlen. unfold compareSwap_body. case_match; [|done]. simpl.
  apply Permutation_insert_swap; apply list_lookup_lookup_total_lt; lia.
Qed.

Lemma compareSwap_loop_perm ascending half count st :
  (count + half ≤ length st.1)%nat →
  (compareSwap_loop ascending half count st).1 ≡ₚ st.1.
Proof.
  induction count as [|c IH]; intros Hlen; [done|].
  rewrite compareSwap_loop_S, compareSwap_body_perm.
  - apply IH. lia.
  - rewrite compareSwap_loop_length. lia.
Qed.

(** The loop invariant: after [count ≤ half] iterations the buffer is the
    closed form, and the record holds exactly the indices below [count]
    whose guard held on the initial contents. *)
Lemma compareSwap_loop_value ascending half count s :
  (count ≤ half)%nat → (half + count ≤ length s)%nat →
  let st := compareSwap_loop ascending half count (s, []) in
  (∀ j, st.1 !!! j = cs_value ascending half count s j) ∧
  (∀ i, i ∈ st.2 ↔
        (i < count)%nat ∧
        swapTest ascending (s !!! i) (s !!! (i + half)%nat) = true).
Proof.
  induction count as [|c IH]; intros Hc Hlen; simpl.
  - split.
    + intros j. unfold cs_value.
      repeat case_decide; try lia; done.
    + intros i. split; [by intros ?%elem_of_nil|lia].
  - destruct IH as [IHv IHl]; [lia..|].
    rewrite compareSwap_loop_S.
    set (st := compareSwap_loop ascending half c (s, [])) in *.
    assert (Hlst : length st.1 = length s)
      by apply compareSwap_loop_length.
    assert (Hc1 : st.1 !!! c = s !!! c).
    { rewrite IHv. unfold cs_value. repeat case_decide; try lia; done. }
    assert (Hc2 : st.1 !!! (c + half)%nat = s !!! (c + half)%nat).
    { rewrite IHv. unfold cs_value. repeat case_decide; try lia; done. }
    unfold compareSwap_body. rewrite Hc1, Hc2.
    destruct (swapTest ascending (s !!! c) (s !!! (c + half)%nat)) eqn:Ht;
      simpl; split.
    + intros j.
      destruct (decide (j = c)) as [->|Hjc].
      { rewrite list_lookup_total_insert_ne by lia.
        rewrite list_lookup_total_insert_eq by lia.
        unfold cs_value. rewrite decide_True by lia. by rewrite Ht. }
      destruct (decide (j = c + half)%nat) as [->|Hjh].
      { rewrite list_lookup_total_insert_eq by (rewrite length_insert; lia).
        unfold cs_value. rewrite decide_False, decide_True by lia.
        replace (c + half - half)%nat with c by lia. by rewrite Ht. }
      rewrite !list_lookup_total_insert_ne by lia. rewrite IHv.
      unfold cs_value. repeat case_decide; try lia; done.
    + intros i. rewrite elem_of_app, list_elem_of_singleton, IHl.
      split.
      * intros [[? ?]| ->]; split; auto; lia.
      * intros [Hi ?]. destruct (decide (i = c)); [by right|left].
        split; [lia|done].
    + intros j. rewrite IHv. unfold cs_value.
      repeat case_decide; try lia; try done.
      * assert (j = c) by lia. subst. by rewrite Ht.
      * assert (j = (c + half)%nat) by lia. subst.
        replace (c + half - half)%nat with c by lia. by rewrite Ht.
    + intros i. rewrite IHl. split.
      * intros [? ?]. split; [lia|done].
      * intros [Hi Hti]. split; [|done].
        destruct (decide (i = c)); [|lia]. subst. congruence.
Qed.

End compareSwap_facts.

Section compareSwap_claims.

Lemma half_bound (n : Z) (len : nat) :
  (Z.to_nat n ≤ len)%nat →
  (Z.to_nat (n `quot` 2) + Z.to_nat (n `quot` 2) ≤ len)%nat.
Proof.
  intros Hn. destruct (Z.le_gt_cases 0 n) as [Hpos|Hneg].
  - pose proof (Z.quot_pos n 2 Hpos ltac:(lia)).
    pose proof (Z.mul_quot_le n 2 Hpos ltac:(lia)). lia.
  - assert (n `quot` 2 ≤ 0); [|lia].
    apply Z.quot_le_upper_bound; lia.
Qed.

Lemma compareSwap_value s n ascending j :
  (Z.to_nat n ≤ length s)%nat →
  let half := Z.to_nat (n `quot` 2) in
  compareSwap s n ascending !!! j = cs_value ascending half half s j.
Proof.
  intros Hn half. pose proof (half_bound n _ Hn).
  apply (compareSwap_loop_value ascending half half s); [done|].
  fold half in H. lia.
Qed.

Lemma compareSwap_swaps_spec s n ascending i :
  (Z.to_nat n ≤ length s)%nat →
  let half := Z.to_nat (n `quot` 2) in
  i ∈ compareSwap_swaps s n ascending ↔
  (i < half)%nat ∧ swapTest ascending (s !!! i) (s !!! (i + half)%nat) = true.
Proof.
  intros Hn half. pose proof (half_bound n _ Hn).
  apply (compareSwap_loop_value ascending half half s); [done|].
  fold half in H. lia.
Qed.

Lemma compareSwap_perm s n ascending :
  (Z.to_nat n ≤ length s)%nat → compareSwap s n ascending ≡ₚ s.
Proof.
  intros Hn. pose proof (half_bound n _ Hn).
  apply (compareSwap_loop_perm ascending _ _ (s, [])). simpl. lia.
Qed.

Lemma list_eq_total (l1 l2 : buffer) :
  length l1 = length l2 → (∀ j, l1 !!! j = l2 !!! j) → l1 = l2.
Proof.
  intros Hlen Hv. apply (list_eq_same_length _ _ (length l2)); [done..|].
  intros i x y _ Hx Hy. specialize (Hv i).
  by rewrite (list_lookup_total_correct _ _ _ Hx),
    (list_lookup_total_correct _ _ _ Hy) in Hv.
Qed.

(** What compareSwap does to the pairs.  On a buffer holding at least [n]
    elements it exchanges the pair [(i, i + n/2)], for [i] in [0, n/2),
    exactly when its guard holds: ascending requested and element [i] not
    smaller than element [i + n/2], or descending requested and element [i]
    smaller.  After the call the pair holds the two input values, exchanged
    when their order strictly contradicts the direction, so every pair is
    ordered according to the direction; no other index is ever exchanged,
    the cells outside the pairs are unchanged and the result is a
    permutation of the input. *)
Lemma compareSwap_pairs (s : buffer) (n : Z) (ascending : bool) :
  (Z.to_nat n ≤ length s)%nat →
  let half := Z.to_nat (n `quot` 2) in
  let out := compareSwap s n ascending in
  (∀ i, (i < half)%nat →
     let a := s !!! i in
     let b := s !!! (i + half)%nat in
     (i ∈ compareSwap_swaps s n ascending ↔
        (ascending = true ∧ b ≤ a) ∨ (ascending = false ∧ a < b)) ∧
     (out !!! i, out !!! (i + half)%nat) =
        (if contradicts ascending a b then (b, a) else (a, b)) ∧
     ordered ascending (out !!! i) (out !!! (i + half)%nat)) ∧
  (∀ i, i ∈ compareSwap_swaps s n ascending → (i < half)%nat) ∧
  (∀ j, (half + half ≤ j)%nat → out !!! j = s !!! j) ∧
  length out = length s ∧
  out ≡ₚ s.
Proof.
  intros Hn half out. split; [|split; [|split; [|split]]].
  - intros i Hi a b.
    assert (Hout : (out !!! i, out !!! (i + half)%nat) =
                   (if contradicts ascending a b then (b, a) else (a, b))).
    { unfold out. rewrite !compareSwap_value by done. fold half.
      unfold cs_value. rewrite (decide_True _ _ Hi).
      rewrite decide_False, decide_True by lia.
      replace (i + half - half)%nat with i by lia. fold a b.
      destruct (decide (a = b)) as [Hab|Hab].
      - rewrite Hab. by repeat case_match.
      - rewrite swapTest_contradicts by done. by case_match. }
    split; [|split; [done|]].
    + rewrite compareSwap_swaps_spec by done. fold half a b.
      rewrite swapTest_spec. intuition.
    + revert Hout. unfold contradicts, ordered.
      destruct ascending; case_match; intros [= -> ->];
        match goal with H : (_ <? _) = _ |- _ =>
          first [apply Z.ltb_lt in H | apply Z.ltb_ge in H] end; lia.
  - intros i Hi. by apply compareSwap_swaps_spec in Hi as [? _].
  - intros j Hj. unfold out. rewrite compareSwap_value by done. fold half.
    unfold cs_value. by rewrite !decide_False by lia.
  - apply compareSwap_length.
  - by apply compareSwap_perm.
Qed.

Lemma compareSwap_pairs_witness :
  let s : buffer := [3; 1; 2; 2] in
  (Z.to_nat 4 ≤ length s)%nat ∧ compareSwap s 4 true ≡ₚ s.
Proof.
  split; [simpl; lia|].
  apply (compareSwap_pairs [3; 1; 2; 2] 4 true). simpl. lia.
Defined.

(** C2.  Of the buffers the claim holds ([compareSwap_pairs]); of the
    swaps themselves it fails on ties, by a defect of the guard
    [ascending ^ (a < b)].  According to the comment of the function
    (lines 25-28) a pair is swapped in ascending order when the former
    element is greater than the latter, and in descending order when it
    is strictly less.  The guard does the latter, but in ascending order
    it holds of equal elements too.  On the buffer {7, 7} with ascending
    requested the swap block runs for the pair (0, 1), whose order does
    not contradict the direction; with descending requested it does not
    run.  The buffer reads {7, 7} afterwards. *)
Lemma tie_swapped_without_contradiction :
  compareSwap_swaps [7; 7] 2 true = [0%nat] ∧
  contradicts true 7 7 = false ∧
  compareSwap_swaps [7; 7] 2 false = [] ∧
  compareSwap [7; 7] 2 true = [7; 7].
Proof. repeat split; reflexivity. Qed.

(** Ties.  With element [i] equal to element [i + n/2], the swap block
    runs exactly when ascending order is requested (the guard is
    [ascending ^ (a < b)], which holds for equal elements iff
    [ascending]); in descending order the pair is not exchanged.  In both
    directions the two cells hold the same values after the call. *)
Lemma compareSwap_on_ties (s : buffer) (n : Z) (ascending : bool) (i : nat) :
  (Z.to_nat n ≤ length s)%nat →
  let half := Z.to_nat (n `quot` 2) in
  (i < half)%nat →
  s !!! i = s !!! (i + half)%nat →
  (i ∈ compareSwap_swaps s n ascending ↔ ascending = true) ∧
  compareSwap s n ascending !!! i = s !!! i ∧
  compareSwap s n ascending !!! (i + half)%nat = s !!! (i + half)%nat.
Proof.
  intros Hn half Hi Htie. split; [|split].
  - rewrite compareSwap_swaps_spec by done. fold half.
    rewrite <-Htie, swapTest_tie. intuition.
  - rewrite compareSwap_value by done. fold half. unfold cs_value.
    rewrite (decide_True _ _ Hi). rewrite <-Htie. by case_match.
  - rewrite compareSwap_value by done. fold half. unfold cs_value.
    rewrite decide_False, decide_True by lia.
    replace (i + half - half)%nat with i by lia.
    rewrite <-Htie. by case_match.
Qed.

Lemma compareSwap_on_ties_witness :
  (0%nat ∈ compareSwap_swaps [7; 7] 2 false ↔ false = true) ∧
  compareSwap [7; 7] 2 false !!! 0%nat = 7 ∧
  compareSwap [7; 7] 2 false !!! 1%nat = 7.
Proof.
  apply (compareSwap_on_ties [7; 7] 2 false 0); [simpl; lia|vm_compute; lia|reflexivity].
Defined.

(** C7.  A tie does trigger a swap when ascending order is requested: the
    test is [ascending ^ (a < b)], not a strict comparison in the
    direction asked for, against the comment of the function (lines
    25-28) and against what the same guard does in descending order.  On
    the buffer {7, 7} the guard holds in ascending order and the pair
    (0, 1) is exchanged; in descending order it is not.  (This is the
    defect of C2.) *)
Lemma ascending_tie_is_swapped :
  swapTest true 7 7 = true ∧
  swapTest false 7 7 = false ∧
  0%nat ∈ compareSwap_swaps [7; 7] 2 true ∧
  0%nat ∉ compareSwap_swaps [7; 7] 2 false.
Proof.
  split; [done|]. split; [done|]. split.
  - vm_compute. apply list_elem_of_here.
  - vm_compute. apply not_elem_of_nil.
Qed.

(** C8.  compareSwap is idempotent: a second application with the same
    size and direction leaves the buffer as the first application left
    it. *)
Theorem compareSwap_idempotent (s : buffer) (n : Z) (ascending : bool) :
  (Z.to_nat n ≤ length s)%nat →
  compareSwap (compareSwap s n ascending) n ascending =
  compareSwap s n ascending.
Proof.
  intros Hn. set (half := Z.to_nat (n `quot` 2)).
  pose proof (half_bound n _ Hn) as Hh. fold half in Hh.
  apply list_eq_total; [by rewrite !compareSwap_length|].
  intros j.
  rewrite (compareSwap_value (compareSwap s n ascending))
    by (by rewrite compareSwap_length).
  fold half. unfold cs_value at 1.
  rewrite !compareSwap_value by done. fold half.
  unfold cs_value.
  repeat case_decide; try lia;
    repeat match goal with
    | |- context [(?a + ?b - ?b)%nat] =>
        replace (a + b - b)%nat with a by lia
    | |- context [(?a - ?b + ?b)%nat] =>
        replace (a - b + b)%nat with a by lia
    end;
    unfold swapTest;
    destruct ascending; simpl;
    repeat match goal with
    | |- context [?x <? ?y] => destruct (Z.ltb_spec x y); simpl
    end; try reflexivity; try lia.
Qed.

Lemma compareSwap_idempotent_witness :
  compareSwap (compareSwap [4; 1; 3; 2] 4 true) 4 true =
  compareSwap [4; 1; 3; 2] 4 true.
Proof.
  apply (compareSwap_idempotent [4; 1; 3; 2] 4 true). simpl. lia.
Defined.

End compareSwap_claims.

(** ** Loops *)

Section loop_facts.

Lemma iterations_done i bound inc :
  0 < inc → bound ≤ i → iterations i bound inc = 0%nat.
Proof.
  intros Hinc Hi. unfold iterations.
  assert ((bound - i + inc - 1) `div` inc ≤ 0); [|lia].
  apply Z.lt_succ_r, Z.div_lt_upper_bound; lia.
Qed.

Lemma iterations_next i bound inc :
  0 < inc → i < bound →
  iterations i bound inc = S (iterations (i + inc) bound inc).
Proof.
  intros Hinc Hi. unfold iterations.
  replace (bound - i + inc - 1) with (bound - (i + inc) + inc - 1 + 1 * inc)
    by lia.
  rewrite Z.div_add by lia.
  assert (0 ≤ (bound - (i + inc) + inc - 1) `div` inc); [|lia].
  apply Z.div_pos; lia.
Qed.

Lemma iterations_lt i bound inc (j : nat) :
  0 < inc →
  (j < iterations i bound inc)%nat ↔ i + Z.of_nat j * inc < bound.
Proof.
  intros Hinc. unfold iterations.
  destruct (Z.le_gt_cases bound i) as [Hge|Hlt].
  - pose proof (iterations_done i bound inc Hinc Hge) as H0.
    unfold iterations in H0. rewrite H0. nia.
  - assert (0 ≤ (bound - i + inc - 1) `div` inc) as Hpos
      by (apply Z.div_pos; lia).
    split; intros H.
    + assert (Z.of_nat j < (bound - i + inc - 1) `div` inc) as Hj by lia.
      assert (Z.of_nat j + 1 ≤ (bound - i + inc - 1) `div` inc) as Hj' by lia.
      pose proof (Z.mul_div_le (bound - i + inc - 1) inc Hinc). nia.
    + assert (Z.of_nat j + 1 ≤ (bound - i + inc - 1) `div` inc); [|lia].
      apply Z.div_le_lower_bound; [done|]. nia.
Qed.

Lemma foldl_shift {S} (f : S → nat → S) (s : S) (a n : nat) :
  foldl f s (seq (Datatypes.S a) n) =
  foldl (fun s j => f s (Datatypes.S j)) s (seq a n).
Proof.
  revert s a. induction n as [|n IH]; intros s a; simpl; [done|].
  apply IH.
Qed.

Lemma foldl_pointwise {S A} (f g : S → A → S) (s : S) (l : list A) :
  (∀ s x, f s x = g s x) → foldl f s l = foldl g s l.
Proof.
  intros Hfg. revert s. induction l as [|x l IH]; intros s; simpl; [done|].
  by rewrite Hfg, IH.
Qed.

(** With a positive increment the loop exits, and it is the fold of its
    body over the values taken by the counter. *)
Lemma for_loop_fold {S} fuel i bound inc (body : Z → S → S) s :
  0 < inc → (Z.to_nat (bound - i) ≤ fuel)%nat →
  for_loop fuel i bound inc body s =
  Some (foldl (fun s (j : nat) => body (i + Z.of_nat j * inc) s) s
          (seq 0 (iterations i bound inc))).
Proof.
  intros Hinc. revert i s.
  induction fuel as [|fuel IH]; intros i s Hfuel.
  - simpl. rewrite bool_decide_false by lia.
    by rewrite iterations_done by lia.
  - simpl. case_bool_decide as Hlt.
    + rewrite IH by lia. rewrite (iterations_next i) by done.
      simpl. f_equal. rewrite foldl_shift.
      rewrite Z.mul_0_l, Z.add_0_r.
      apply foldl_pointwise. intros s' j. f_equal. lia.
    + by rewrite iterations_done by lia.
Qed.

(** More budget does not change the result of a loop that exits. *)
Lemma for_loop_mono {S} fuel fuel' i bound inc (body : Z → S → S) s x :
  for_loop fuel i bound inc body s = Some x → (fuel ≤ fuel')%nat →
  for_loop fuel' i bound inc body s = Some x.
Proof.
  revert fuel' i s. induction fuel as [|fuel IH]; intros fuel' i s; simpl.
  - case_bool_decide; [done|]. intros [= <-] _.
    destruct fuel'; simpl; by rewrite bool_decide_false by done.
  - case_bool_decide as Hlt.
    + intros Hrun Hle. destruct fuel' as [|fuel']; [lia|]. simpl.
      rewrite bool_decide_true by done. apply IH; [done|lia].
    + intros [= <-] _.
      destruct fuel'; simpl; by rewrite bool_decide_false by done.
Qed.

(** With an increment that is not positive the loop never exits. *)
Lemma for_loop_diverges {S} fuel i bound inc (body : Z → S → S) s :
  inc ≤ 0 → i < bound → for_loop fuel i bound inc body s = None.
Proof.
  intros Hinc. revert i s.
  induction fuel as [|fuel IH]; intros i s Hlt; simpl;
    rewrite bool_decide_true by done; [done|].
  apply IH. lia.
Qed.

Lemma join_cons {A} (x : list A) (ls : list (list A)) :
  mjoin (x :: ls) = x ++ mjoin ls.
Proof. done. Qed.

Lemma foldl_snoc_fmap {A B} (f : A → B) (l : list A) (acc : list B) :
  foldl (fun acc x => acc ++ [f x]) acc l = acc ++ (f <$> l).
Proof.
  revert acc. induction l as [|x l IH]; intros acc; simpl.
  - by rewrite app_nil_r.
  - rewrite IH. by rewrite <-app_assoc.
Qed.

Lemma pow2_pos (q : nat) : 0 < 2 ^ Z.of_nat q.
Proof. apply Z.pow_pos_nonneg; lia. Qed.

Lemma pow2_S (q : nat) : 2 ^ Z.of_nat (S q) = 2 * 2 ^ Z.of_nat q.
Proof. rewrite Nat2Z.inj_succ, Z.pow_succ_r; lia. Qed.

Lemma pow2_quot (q : nat) : 2 ^ Z.of_nat (S q) `quot` 2 = 2 ^ Z.of_nat q.
Proof.
  rewrite pow2_S, Z.mul_comm, Z.quot_mul; lia.
Qed.

Lemma pow2_ge (q : nat) : Z.of_nat q < 2 ^ Z.of_nat q.
Proof. apply Z.pow_gt_lin_r; lia. Qed.

Lemma round_loop_pow2 {S} fuel (q j : nat) (body : Z → Z → S → option S) s :
  (q ≤ fuel)%nat →
  round_loop fuel (2 ^ Z.of_nat q) (2 ^ Z.of_nat j) body s =
  rounds_pow2 q j body s.
Proof.
  revert q j s. induction fuel as [|fuel IH]; intros q j s Hq.
  - assert (q = 0%nat) as -> by lia. done.
  - destruct q as [|q].
    + done.
    + cbn [round_loop rounds_pow2].
      rewrite bool_decide_true by (pose proof (pow2_pos q); rewrite pow2_S; lia).
      destruct (body _ _ s) as [s'|]; [|done]. cbn.
      rewrite pow2_quot.
      replace (2 ^ Z.of_nat j * 2) with (2 ^ Z.of_nat (Datatypes.S j))
        by (rewrite pow2_S; lia).
      apply IH. lia.
Qed.

(** The round loop exits within [m] iterations whenever its body does
    not fail, and more budget does not change its result. *)
Lemma round_loop_total {S} fuel m step (body : Z → Z → S → option S) s :
  (∀ m step s, is_Some (body m step s)) →
  (Z.to_nat m ≤ fuel)%nat →
  is_Some (round_loop fuel m step body s).
Proof.
  intros Hbody. revert m step s.
  induction fuel as [|fuel IH]; intros m step s Hfuel; simpl.
  - rewrite bool_decide_false by lia. eauto.
  - case_bool_decide; [|eauto].
    destruct (Hbody m step s) as [s' ->]. cbn.
    apply IH.
    assert (m `quot` 2 < m) by (apply Z.quot_lt; lia). lia.
Qed.

(** The pairs visited by the round loop: [m] stays above 1, [step] grows
    and the product [m * step] never does. *)
Lemma round_loop_visited fuel m step (acc : list (Z * Z)) :
  (Z.to_nat m ≤ fuel)%nat → 1 ≤ step →
  ∃ l, round_loop fuel m step
         (fun m step visited => Some (visited ++ [(m, step)])) acc =
       Some (acc ++ l) ∧
       ∀ m' step', (m', step') ∈ l →
         1 < m' ∧ step ≤ step' ∧ m' * step' ≤ m * step.
Proof.
  revert m step acc. induction fuel as [|fuel IH]; intros m step acc Hfuel Hs.
  - exists []. simpl. rewrite bool_decide_false by lia.
    split; [by rewrite app_nil_r|]. by intros ?? ?%elem_of_nil.
  - simpl. case_bool_decide as Hm.
    + cbn. assert (m `quot` 2 < m) by (apply Z.quot_lt; lia).
      assert (0 ≤ m `quot` 2) by (apply Z.quot_pos; lia).
      destruct (IH (m `quot` 2) (step * 2) (acc ++ [(m, step)]))
        as (l & Hl & Hin); [lia..|].
      exists ((m, step) :: l). split.
      * rewrite Hl. by rewrite <-app_assoc.
      * intros m' step' [Heq|Hin']%elem_of_cons.
        -- injection Heq as -> ->. lia.
        -- destruct (Hin _ _ Hin') as (? & ? & ?).
           pose proof (Z.mul_quot_le m 2 ltac:(lia) ltac:(lia)).
           split; [done|]. split; [lia|]. nia.
    + exists []. split; [by rewrite app_nil_r|]. by intros ?? ?%elem_of_nil.
Qed.

Lemma rounds_visited n :
  ∃ visited, rounds n = Some visited ∧
    ∀ m step, (m, step) ∈ visited →
      1 ≤ n `quot` 2 ∧ 1 ≤ step ≤ n `quot` 2.
Proof.
  unfold rounds.
  destruct (round_loop_visited (Z.to_nat (n `quot` 2)) (n `quot` 2) 1 [])
    as (l & Hl & Hin); [lia..|].
  exists l. split; [done|]. intros m step Hms.
  destruct (Hin _ _ Hms) as (? & ? & ?). nia.
Qed.

Lemma rounds_visited_bounds n visited m step :
  rounds n = Some visited → (m, step) ∈ visited →
  1 < m ∧ 1 ≤ step ∧ m * step ≤ n `quot` 2.
Proof.
  unfold rounds. intros Hv Hin.
  destruct (round_loop_visited (Z.to_nat (n `quot` 2)) (n `quot` 2) 1 [])
    as (l & Hl & Hbound); [lia..|].
  rewrite Hl in Hv. injection Hv as <-.
  destruct (Hbound _ _ Hin) as (? & ? & ?). lia.
Qed.

(** The level loop of [main] visits the powers of two from 4 up to the
    sequence length. *)
Lemma level_loop_widths fuel n (c : nat) (acc : list Z) :
  (Z.to_nat (n - 2 ^ Z.of_nat (S (S c)) + 1) ≤ fuel)%nat →
  ∃ ks, level_loop fuel (2 ^ Z.of_nat (S (S c))) n
          (fun k visited => Some (visited ++ [k])) acc = Some (acc ++ ks) ∧
        ∀ k, k ∈ ks → k ≤ n ∧ ∃ c' : nat, k = 2 ^ Z.of_nat (S (S c')).
Proof.
  revert c acc. induction fuel as [|fuel IH]; intros c acc Hfuel.
  - simpl. rewrite bool_decide_false by lia.
    exists []. split; [by rewrite app_nil_r|]. by intros ? ?%elem_of_nil.
  - simpl. case_bool_decide as Hk.
    + cbn. pose proof (pow2_pos (S (S c))).
      replace (2 ^ Z.of_nat (S (S c)) * 2) with (2 ^ Z.of_nat (S (S (S c))))
        by (rewrite (pow2_S (S (S c))); lia).
      destruct (IH (S c) (acc ++ [2 ^ Z.of_nat (S (S c))])) as (ks & -> & Hks).
      { rewrite (pow2_S (S (S c))). lia. }
      exists (2 ^ Z.of_nat (S (S c)) :: ks).
      split; [by rewrite <-app_assoc|].
      intros k [->|Hin]%elem_of_cons; [eauto|by apply Hks].
    + exists []. split; [by rewrite app_nil_r|]. by intros ? ?%elem_of_nil.
Qed.

Lemma widths_pow2 n :
  ∃ ks, widths n = Some ks ∧
        ∀ k, k ∈ ks → k ≤ n ∧ ∃ c : nat, k = 2 ^ Z.of_nat (S (S c)).
Proof.
  unfold widths. change 4 with (2 ^ Z.of_nat (S (S 0))).
  destruct (level_loop_widths (Z.to_nat n) n 0 []) as (ks & Hks & Hin).
  { change (2 ^ Z.of_nat 2) with 4. lia. }
  exists ks. split; [done|]. apply Hin.
Qed.

End loop_facts.

(** ** isInSubset *)

Section isInSubset_facts.

Lemma found_spec nodes rank : found nodes rank = true ↔ rank ∈ nodes.
Proof.
  unfold found. rewrite existsb_exists. split.
  - intros (x & Hx & Heq). apply Z.eqb_eq in Heq as <-.
    by apply list_elem_of_In.
  - intros Hin. exists rank. split; [by apply list_elem_of_In|].
    apply Z.eqb_refl.
Qed.

Lemma isInSubset_nodes_pos fuel half step offset :
  0 < half `quot` step → (Z.to_nat half ≤ fuel)%nat →
  isInSubset_nodes fuel half step offset =
  Some (subset_nodes half step offset).
Proof.
  intros Hinc Hfuel. unfold isInSubset_nodes, subset_nodes.
  rewrite for_loop_fold by (done || lia).
  f_equal. rewrite foldl_snoc_fmap. simpl.
  apply list_fmap_ext. intros _ j _. lia.
Qed.

Lemma isInSubset_nodes_empty fuel half step offset :
  half ≤ 0 → isInSubset_nodes fuel half step offset = Some [].
Proof.
  intros Hh. unfold isInSubset_nodes.
  destruct fuel; simpl; by rewrite bool_decide_false by lia.
Qed.

Lemma isInSubset_nodes_diverges fuel half step offset :
  0 < half → half `quot` step ≤ 0 →
  isInSubset_nodes fuel half step offset = None.
Proof.
  intros Hh Hinc. unfold isInSubset_nodes. by apply for_loop_diverges.
Qed.

(** The budget of [isInSubset] is adequate: a loop that exits with some
    budget exits with [half] iterations, with the same vector. *)
Lemma isInSubset_nodes_fuel fuel half step offset nodes :
  isInSubset_nodes fuel half step offset = Some nodes →
  isInSubset_nodes (Z.to_nat half) half step offset = Some nodes.
Proof.
  intros Hrun.
  destruct (Z.le_gt_cases half 0) as [Hh|Hh].
  - rewrite isInSubset_nodes_empty in Hrun |- * by done. done.
  - destruct (Z.le_gt_cases (half `quot` step) 0) as [Hinc|Hinc].
    + by rewrite isInSubset_nodes_diverges in Hrun by lia.
    + rewrite isInSubset_nodes_pos by lia.
      apply (for_loop_mono _ (fuel `max` Z.to_nat half)) in Hrun; [|lia].
      fold (isInSubset_nodes (fuel `max` Z.to_nat half) half step offset)
        in Hrun.
      rewrite isInSubset_nodes_pos in Hrun by lia. done.
Qed.

Lemma subset_nodes_elem half step offset r :
  0 < half `quot` step →
  r ∈ subset_nodes half step offset ↔
  ∃ j, 0 ≤ j ∧ j * (half `quot` step) < half ∧
       r = offset + j * (half `quot` step).
Proof.
  intros Hinc. unfold subset_nodes. rewrite list_elem_of_fmap. split.
  - intros (j & -> & Hj). apply elem_of_seq in Hj as [_ Hj]. simpl in Hj.
    apply iterations_lt in Hj; [|done].
    exists (Z.of_nat j). split; [lia|]. split; lia.
  - intros (j & Hj0 & Hj & ->). exists (Z.to_nat j).
    split; [lia|]. apply elem_of_seq. split; [lia|]. simpl.
    apply iterations_lt; [done|]. lia.
Qed.

Lemma subset_nodes_NoDup half step offset :
  0 < half `quot` step → NoDup (subset_nodes half step offset).
Proof.
  intros Hinc. unfold subset_nodes. apply NoDup_fmap_2_strong.
  - intros j1 j2 _ _ Heq. nia.
  - apply NoDup_seq.
Qed.

Lemma subset_nodes_length half step offset :
  0 < step → 0 < half → (step | half) →
  Z.of_nat (length (subset_nodes half step offset)) = step.
Proof.
  intros Hs Hh [c Hc]. unfold subset_nodes.
  rewrite length_fmap, length_seq. unfold iterations.
  assert (half `quot` step = c) as ->.
  { rewrite Hc. apply Z.quot_mul. lia. }
  assert (0 < c) by nia.
  replace (half - 0 + c - 1) with (c - 1 + step * c) by lia.
  rewrite Z.div_add, Z.div_small by lia. lia.
Qed.

End isInSubset_facts.
(** ** isInSubset on machine integers *)

Section isInSubset_int32.

Import Int32.

Lemma wrap_id z : int_min ≤ z ≤ int_max → wrap z = z.
Proof.
  unfold int_min, int_max, wrap. intros Hz.
  rewrite Z.mod_small by lia. lia.
Qed.

(** Whatever the arguments, the loop ends within [capacity + 1]
    iterations. *)
Lemma isInSubset_loop_ends fuel capacity half step offset i nodes :
  (capacity - length nodes < fuel)%nat →
  isInSubset_loop fuel capacity half step offset i nodes ≠ None.
Proof.
  revert i nodes. induction fuel as [|fuel IH]; intros i nodes Hfuel; [lia|].
  simpl. repeat case_bool_decide; try done.
  apply IH. rewrite length_app. simpl. lia.
Qed.

(** With a positive increment and a counter that stays within [int] the
    loop is the one of [isInSubset_nodes]. *)
Lemma isInSubset_loop_returns fuel capacity half step offset i nodes :
  let inc := half `quot` step in
  0 < inc → 0 ≤ i → half + inc - 1 ≤ int_max →
  (length nodes + iterations i half inc ≤ capacity)%nat →
  (iterations i half inc ≤ fuel)%nat →
  isInSubset_loop fuel capacity half step offset i nodes =
  Some (Returns (nodes ++
          ((fun j : nat => wrap (i + Z.of_nat j * inc + offset)) <$>
           seq 0 (iterations i half inc)))).
Proof.
  intros inc Hinc. assert (Hstep : step ≠ 0).
  { intros ->. unfold inc in Hinc. rewrite Z.quot_0_r_ext in Hinc; lia. }
  revert i nodes.
  induction fuel as [|fuel IH]; intros i nodes Hi Hmax Hcap Hfuel.
  - simpl. case_bool_decide as Hlt.
    + rewrite (iterations_next i) in Hfuel by done. lia.
    + rewrite iterations_done by lia. simpl. by rewrite app_nil_r.
  - simpl. case_bool_decide as Hlt.
    + rewrite (iterations_next i) in Hcap, Hfuel |- * by done.
      rewrite bool_decide_true by lia. rewrite bool_decide_false by done.
      fold inc. rewrite (wrap_id (i + inc)) by (unfold int_min; lia).
      rewrite IH by (rewrite ?length_app; simpl; lia).
      rewrite <-app_assoc. do 3 f_equal. simpl. f_equal.
      * f_equal. lia.
      * rewrite <-fmap_S_seq, <-list_fmap_compose.
        apply list_fmap_ext. intros _ j _. simpl. f_equal. lia.
    + rewrite iterations_done by lia. simpl. by rewrite app_nil_r.
Qed.

(** With the increment 0 the counter stays at 0: the loop adds the same
    rank to the vector until the memory is exhausted. *)
Lemma isInSubset_loop_stalls fuel capacity half step offset nodes :
  0 < half → step ≠ 0 → half `quot` step = 0 →
  (length nodes ≤ capacity)%nat →
  isInSubset_loop fuel capacity half step offset 0 nodes =
  if decide (fuel + length nodes ≤ capacity)%nat then None else Some BadAlloc.
Proof.
  intros Hhalf Hstep Hinc. revert nodes.
  induction fuel as [|fuel IH]; intros nodes Hlen; simpl;
    rewrite bool_decide_true by done.
  - by rewrite decide_True by lia.
  - case_bool_decide as Hroom.
    + rewrite bool_decide_false by done. rewrite Hinc.
      change (wrap (0 + 0)) with 0.
      rewrite IH by (rewrite length_app; simpl; lia).
      rewrite length_app. simpl.
      destruct (decide (fuel + (length nodes + 1) ≤ capacity)%nat);
        [by rewrite decide_True by lia|by rewrite decide_False by lia].
    + by rewrite decide_False by lia.
Qed.

Lemma isInSubset_nodes_stalls fuel capacity half step offset :
  1 ≤ half → half < step →
  Int32.isInSubset_nodes fuel capacity half step offset =
  if decide (fuel ≤ capacity)%nat then None else Some BadAlloc.
Proof.
  intros Hhalf Hstep. unfold Int32.isInSubset_nodes.
  rewrite isInSubset_loop_stalls;
    [|lia|lia|apply Z.quot_small; lia|simpl; lia].
  simpl. by rewrite Nat.add_0_r.
Qed.

Lemma subset_nodes_wrap half step offset :
  0 < half `quot` step → int_min ≤ offset → offset + half - 1 ≤ int_max →
  (fun j : nat => wrap (0 + Z.of_nat j * (half `quot` step) + offset)) <$>
    seq 0 (iterations 0 half (half `quot` step)) =
  subset_nodes half step offset.
Proof.
  intros Hinc Hmin Hmax. unfold subset_nodes.
  apply list_fmap_ext. intros i j [-> Hj]%lookup_seq.
  simpl in Hj. apply iterations_lt in Hj; [|done].
  rewrite wrap_id; lia.
Qed.

(** Within the range of [int] and of the memory, the call on machine
    integers returns the vector of [isInSubset_nodes]. *)
Lemma isInSubset_int32_nodes fuel capacity half step offset :
  0 < half `quot` step → half + half `quot` step - 1 ≤ int_max →
  int_min ≤ offset → offset + half - 1 ≤ int_max →
  (iterations 0 half (half `quot` step) ≤ capacity)%nat →
  (iterations 0 half (half `quot` step) ≤ fuel)%nat →
  Int32.isInSubset_nodes fuel capacity half step offset =
  Some (Returns (subset_nodes half step offset)).
Proof.
  intros Hinc Hcnt Hmin Hmax Hcap Hfuel. unfold Int32.isInSubset_nodes.
  rewrite isInSubset_loop_returns by (done || simpl; lia).
  by rewrite subset_nodes_wrap.
Qed.

Lemma isInSubset_int32 capacity half step offset :
  0 < half `quot` step → half + half `quot` step - 1 ≤ int_max →
  int_min ≤ offset → offset + half - 1 ≤ int_max →
  (iterations 0 half (half `quot` step) ≤ capacity)%nat →
  Int32.isInSubset capacity half step offset =
  Some (Returns (found (subset_nodes half step offset))).
Proof.
  intros Hinc Hcnt Hmin Hmax Hcap. unfold Int32.isInSubset.
  by rewrite isInSubset_int32_nodes by (done || lia).
Qed.

Lemma iterations_le_half half inc :
  0 < inc → 0 < half → (iterations 0 half inc ≤ Z.to_nat half)%nat.
Proof.
  intros Hinc Hhalf. unfold iterations.
  assert ((half - 0 + inc - 1) `div` inc ≤ half); [|lia].
  apply Z.lt_succ_r, Z.div_lt_upper_bound; nia.
Qed.

End isInSubset_int32.
(** ** The subset generated by isInSubset *)

Section isInSubset_claims.

(** C3 (as amended).  Let [h ≥ 1], [s ≥ 1] and [h/s ≥ 1], with the loop
    counter and the ranks [o + i] within the range of [int]
    ([h + h/s - 1 ≤ INT_MAX], [INT_MIN ≤ o], [o + h - 1 ≤ INT_MAX]) and a
    memory that can hold the generated ranks.  Then the call
    [isInSubset(h, s, o)] returns, and its predicate holds of a rank [r]
    iff [r = o + j·(h/s)] for some [j ≥ 0] with [j·(h/s) < h], the values
    taken by the loop counter.  When [s] divides [h], as in every round of
    a merge, these are exactly the [s] distinct ranks with [0 ≤ j < s].
    The predicate is the one of [isInSubset] as the programs above use
    it. *)
Theorem isInSubset_membership (capacity : nat) (h s o : Z) :
  1 ≤ h → 1 ≤ s → 1 ≤ h `quot` s →
  h + h `quot` s - 1 ≤ Int32.int_max →
  Int32.int_min ≤ o → o + h - 1 ≤ Int32.int_max →
  (h + h `quot` s - 1) `div` (h `quot` s) ≤ Z.of_nat capacity →
  ∃ nodes,
    Int32.isInSubset_nodes (S capacity) capacity h s o =
      Some (Int32.Returns nodes) ∧
    Int32.isInSubset capacity h s o = Some (Int32.Returns (found nodes)) ∧
    isInSubset h s o = Some (found nodes) ∧
    (∀ r, found nodes r = true ↔
          ∃ j, 0 ≤ j ∧ j * (h `quot` s) < h ∧ r = o + j * (h `quot` s)) ∧
    ((s | h) →
       NoDup nodes ∧ Z.of_nat (length nodes) = s ∧
       ∀ r, found nodes r = true ↔
            ∃ j, 0 ≤ j < s ∧ r = o + j * (h `quot` s)).
Proof.
  intros Hh Hs Hinc Hcnt Hmin Hmax Hcap. exists (subset_nodes h s o).
  assert (Hiter : (iterations 0 h (h `quot` s) ≤ capacity)%nat).
  { unfold iterations. replace (h - 0 + h `quot` s - 1)
      with (h + h `quot` s - 1) by lia. lia. }
  split; [apply isInSubset_int32_nodes; (done || lia)|].
  split; [apply isInSubset_int32; (done || lia)|].
  split.
  { unfold isInSubset. by rewrite isInSubset_nodes_pos by lia. }
  split.
  - intros r. rewrite found_spec. apply subset_nodes_elem. lia.
  - intros Hdiv. split; [apply subset_nodes_NoDup; lia|].
    split; [apply subset_nodes_length; (done || lia)|].
    intros r. rewrite found_spec, subset_nodes_elem by lia.
    destruct Hdiv as [c Hc].
    assert (h `quot` s = c) as Hq by (rewrite Hc; apply Z.quot_mul; lia).
    rewrite Hq. split.
    + intros (j & Hj0 & Hj & ->). exists j. split; [nia|done].
    + intros (j & Hj & ->). exists j. split; [lia|]. split; [nia|done].
Qed.

Lemma isInSubset_membership_witness :
  ∃ nodes,
    Int32.isInSubset_nodes (S 2) 2 8 2 3 = Some (Int32.Returns nodes) ∧
    Int32.isInSubset 2 8 2 3 = Some (Int32.Returns (found nodes)) ∧
    isInSubset 8 2 3 = Some (found nodes) ∧
    (∀ r, found nodes r = true ↔
          ∃ j, 0 ≤ j ∧ j * (8 `quot` 2) < 8 ∧ r = 3 + j * (8 `quot` 2)) ∧
    ((2 | 8) →
       NoDup nodes ∧ Z.of_nat (length nodes) = 2 ∧
       ∀ r, found nodes r = true ↔
            ∃ j, 0 ≤ j < 2 ∧ r = 3 + j * (8 `quot` 2)).
Proof.
  apply (isInSubset_membership 2 8 2 3);
    first [lia | vm_compute; discriminate].
Defined.

(** The claim C3 as written fails when [s] does not divide [h]:
    [isInSubset(3, 2, 0)] generates the three ranks 0, 1, 2, and rank 2 is
    not of the form [0 + j·(3/2)] with [0 ≤ j < 2]. *)
Lemma isInSubset_three_of_two :
  ∃ pred, isInSubset 3 2 0 = Some pred ∧
          Int32.isInSubset 3 3 2 0 = Some (Int32.Returns pred) ∧
          pred 2 = true ∧
          ¬ ∃ j, 0 ≤ j < 2 ∧ 2 = 0 + j * (3 `quot` 2).
Proof.
  eexists. split; [reflexivity|]. split; [reflexivity|].
  split; [reflexivity|].
  intros (j & Hj & Heq). change (3 `quot` 2) with 1 in Heq. lia.
Qed.

(** Outside the range assumed in C3 the generated ranks wrap around:
    with the offset [INT_MAX] the second rank of [isInSubset(4, 2, ..)]
    is [INT_MAX + 2] as an [int], which is [- INT_MAX]. *)
Example isInSubset_wraps_around :
  ∃ pred, Int32.isInSubset 2 4 2 Int32.int_max = Some (Int32.Returns pred) ∧
          pred Int32.int_max = true ∧ pred (- Int32.int_max) = true.
Proof. eexists. repeat split; reflexivity. Qed.

(** C10 (as amended).  [isInSubset(half, step, offset)] returns for
    [half ≥ 1] and [1 ≤ step ≤ half] when the loop counter stays within
    the range of [int] and the memory can hold the generated ranks; any
    budget of iterations that covers them gives the same vector.  For
    [half ≥ 1] and [step > half] the increment [half / step] is 0: the
    loop condition never fails and the call never returns; it appends to
    the vector at every iteration and ends, when the memory is exhausted,
    with [std::bad_alloc].  Whatever its arguments, the call ends within
    [capacity + 1] iterations.  Every call made by the round loop of a
    merge of a width [n] that is an [int], with a memory for [n/2] ranks,
    has [1 ≤ step ≤ n/2] and returns; the round loop itself always
    exits. *)
Theorem isInSubset_terminates :
  (∀ capacity half step offset, 1 ≤ half → 1 ≤ step ≤ half →
     half + half `quot` step - 1 ≤ Int32.int_max →
     (half + half `quot` step - 1) `div` (half `quot` step)
       ≤ Z.of_nat capacity →
     1 ≤ half `quot` step ∧
     ∃ nodes, ∀ fuel,
       (half + half `quot` step - 1) `div` (half `quot` step)
         ≤ Z.of_nat fuel →
       Int32.isInSubset_nodes fuel capacity half step offset =
         Some (Int32.Returns nodes)) ∧
  (∀ capacity half step offset, 1 ≤ half → half < step →
     half `quot` step = 0 ∧
     (∀ fuel, (fuel ≤ capacity)%nat →
        Int32.isInSubset_nodes fuel capacity half step offset = None) ∧
     (∀ fuel, (capacity < fuel)%nat →
        Int32.isInSubset_nodes fuel capacity half step offset =
          Some Int32.BadAlloc) ∧
     Int32.isInSubset capacity half step offset = Some Int32.BadAlloc) ∧
  (∀ capacity fuel half step offset, (capacity < fuel)%nat →
     Int32.isInSubset_nodes fuel capacity half step offset ≠ None) ∧
  (∀ capacity n offset, n ≤ Int32.int_max → n `quot` 2 ≤ Z.of_nat capacity →
     ∃ visited, rounds n = Some visited ∧
       ∀ m step, (m, step) ∈ visited →
         1 ≤ n `quot` 2 ∧ 1 ≤ step ≤ n `quot` 2 ∧
         ∃ nodes, Int32.isInSubset_nodes (S capacity) capacity
                    (n `quot` 2) step offset = Some (Int32.Returns nodes)).
Proof.
  assert (Hreturns : ∀ capacity half step offset, 1 ≤ half →
     1 ≤ step ≤ half → half + half `quot` step - 1 ≤ Int32.int_max →
     (iterations 0 half (half `quot` step) ≤ capacity)%nat →
     1 ≤ half `quot` step ∧
     ∃ nodes, ∀ fuel, (iterations 0 half (half `quot` step) ≤ fuel)%nat →
       Int32.isInSubset_nodes fuel capacity half step offset =
         Some (Int32.Returns nodes)).
  { intros capacity half step offset Hh Hs Hcnt Hcap.
    assert (1 ≤ half `quot` step) by (apply Z.quot_le_lower_bound; lia).
    split; [done|]. eexists. intros fuel Hfuel.
    unfold Int32.isInSubset_nodes.
    apply isInSubset_loop_returns; (done || simpl; lia). }
  split; [|split; [|split]].
  - intros capacity half step offset Hh Hs Hcnt Hcap.
    assert (Hit : Z.of_nat (iterations 0 half (half `quot` step)) =
                  (half + half `quot` step - 1) `div` (half `quot` step)).
    { assert (1 ≤ half `quot` step) by (apply Z.quot_le_lower_bound; lia).
      unfold iterations. rewrite Z2Nat.id by (apply Z.div_pos; lia).
      f_equal. lia. }
    destruct (Hreturns capacity half step offset) as (Hinc & nodes & Hnodes);
      [lia..|].
    split; [done|]. exists nodes. intros fuel Hfuel. apply Hnodes. lia.
  - intros capacity half step offset Hh Hs.
    assert (half `quot` step = 0) as H0 by (apply Z.quot_small; lia).
    assert (Hloop : ∀ fuel,
      Int32.isInSubset_nodes fuel capacity half step offset =
      if decide (fuel ≤ capacity)%nat then None else Some Int32.BadAlloc)
      by (intros fuel; by apply isInSubset_nodes_stalls).
    split; [done|]. split; [|split].
    + intros fuel Hfuel. by rewrite Hloop, decide_True by done.
    + intros fuel Hfuel. by rewrite Hloop, decide_False by lia.
    + unfold Int32.isInSubset. by rewrite Hloop, decide_False by lia.
  - intros capacity fuel half step offset Hfuel.
    apply isInSubset_loop_ends. simpl. lia.
  - intros capacity n offset Hn Hcap.
    destruct (rounds_visited n) as (visited & Hv & Hbounds).
    exists visited. split; [done|]. intros m step Hin.
    destruct (Hbounds m step Hin) as [Hhalf Hstep].
    split; [done|]. split; [done|].
    assert (Hinc : 1 ≤ (n `quot` 2) `quot` step)
      by (apply Z.quot_le_lower_bound; lia).
    assert ((n `quot` 2) `quot` step ≤ n `quot` 2).
    { apply Z.quot_le_upper_bound; nia. }
    assert (Hpos : 0 ≤ n).
    { destruct (Z.le_gt_cases 0 n) as [|Hneg]; [done|].
      assert (n `quot` 2 ≤ 0) by (apply Z.quot_le_upper_bound; lia). lia. }
    pose proof (Z.mul_quot_le n 2 Hpos ltac:(lia)).
    pose proof (iterations_le_half (n `quot` 2) ((n `quot` 2) `quot` step)
                  ltac:(lia) ltac:(lia)).
    destruct (Hreturns capacity (n `quot` 2) step offset)
      as (_ & nodes & Hnodes); [lia..|].
    exists nodes. apply Hnodes. lia.
Qed.

Lemma isInSubset_terminates_witness :
  (∃ nodes, ∀ fuel, (4 + 4 `quot` 2 - 1) `div` (4 `quot` 2) ≤ Z.of_nat fuel →
     Int32.isInSubset_nodes fuel 2 4 2 0 = Some (Int32.Returns nodes)) ∧
  (∀ fuel, (fuel ≤ 1000)%nat →
     Int32.isInSubset_nodes fuel 1000 4 5 0 = None) ∧
  (∀ fuel, (1000 < fuel)%nat →
     Int32.isInSubset_nodes fuel 1000 4 5 0 = Some Int32.BadAlloc).
Proof.
  destruct isInSubset_terminates as (Hterm & Hstall & _). split.
  - apply (Hterm 2%nat 4 2 0); first [lia | vm_compute; discriminate].
  - destruct (Hstall 1000%nat 4 5 0) as (_ & Hrun & Hthrow & _); [lia..|].
    by split.
Defined.

(** The claim C10 as written fails where the increment is 0: the call
    [isInSubset(1, 2, 0)] does not run for ever.  Whatever the memory,
    its loop ends, with [std::bad_alloc]. *)
Lemma isInSubset_ends_in_bad_alloc :
  ¬ ∃ capacity, ∀ fuel, Int32.isInSubset_nodes fuel capacity 1 2 0 = None.
Proof.
  intros (capacity & Hrun). specialize (Hrun (S capacity)).
  rewrite isInSubset_nodes_stalls in Hrun by lia.
  rewrite decide_False in Hrun by lia. discriminate.
Qed.

(** X9.  The subset generated by [isInSubset(half, step, offset)].  With
    [half ≤ 0] the loop body never runs and the subset is empty, whatever
    [step] and [offset] are.  With [half ≥ 1] and a positive increment
    [half / step], the loop counter and the ranks within the range of
    [int] and a memory that can hold the ranks, the generated ranks are
    distinct, there are [⌈half / (half / step)⌉] of them, the first one
    is [offset], and all lie in [offset, offset + half). *)
Theorem isInSubset_extent (capacity : nat) (half step offset : Z) :
  (half ≤ 0 →
   ∃ pred, Int32.isInSubset capacity half step offset = Some (Int32.Returns pred) ∧
           ∀ r, pred r = false) ∧
  (1 ≤ half → 1 ≤ half `quot` step →
   half + half `quot` step - 1 ≤ Int32.int_max →
   Int32.int_min ≤ offset → offset + half - 1 ≤ Int32.int_max →
   (half + half `quot` step - 1) `div` (half `quot` step)
     ≤ Z.of_nat capacity →
   ∃ nodes,
     Int32.isInSubset_nodes (S capacity) capacity half step offset =
       Some (Int32.Returns nodes) ∧
     Int32.isInSubset capacity half step offset =
       Some (Int32.Returns (found nodes)) ∧
     NoDup nodes ∧
     Z.of_nat (length nodes) =
       (half + half `quot` step - 1) `div` (half `quot` step) ∧
     head nodes = Some offset ∧
     ∀ r, found nodes r = true → offset ≤ r < offset + half).
Proof.
  split.
  - intros Hhalf. exists (found []). split; [|done].
    unfold Int32.isInSubset, Int32.isInSubset_nodes. simpl.
    by rewrite bool_decide_false by lia.
  - intros Hhalf Hinc Hcnt Hmin Hmax Hcap.
    exists (subset_nodes half step offset).
    assert (Hiter : (iterations 0 half (half `quot` step) ≤ capacity)%nat).
    { unfold iterations. replace (half - 0 + half `quot` step - 1)
        with (half + half `quot` step - 1) by lia. lia. }
    split; [apply isInSubset_int32_nodes; (done || lia)|].
    split; [apply isInSubset_int32; (done || lia)|].
    split; [apply subset_nodes_NoDup; lia|].
    assert (Hpos : (0 < iterations 0 half (half `quot` step))%nat)
      by (apply iterations_lt; lia).
    split; [|split].
    + unfold subset_nodes. rewrite length_fmap, length_seq.
      unfold iterations.
      rewrite Z2Nat.id by (apply Z.div_pos; lia). f_equal. lia.
    + unfold subset_nodes.
      destruct (iterations 0 half (half `quot` step)) as [|it]; [lia|].
      simpl; f_equal; lia.
    + intros r Hr%found_spec.
      apply subset_nodes_elem in Hr as (j & Hj & Hlt & ->); [|lia]. nia.
Qed.

Lemma isInSubset_extent_witness :
  ∃ nodes,
    Int32.isInSubset_nodes (S 3) 3 3 2 5 = Some (Int32.Returns nodes) ∧
    Int32.isInSubset 3 3 2 5 = Some (Int32.Returns (found nodes)) ∧
    NoDup nodes ∧
    Z.of_nat (length nodes) = (3 + 3 `quot` 2 - 1) `div` (3 `quot` 2) ∧
    head nodes = Some 5 ∧
    ∀ r, found nodes r = true → 5 ≤ r < 5 + 3.
Proof.
  apply (isInSubset_extent 3 3 2 5);
    first [lia | vm_compute; discriminate].
Defined.

End isInSubset_claims.

(** ** The rounds of a merge *)

Section round_facts.

Lemma subset_nodes_senders half step m offset r :
  0 < m → 0 < step → half = step * m →
  r ∈ subset_nodes half step offset ↔
  offset ≤ r < offset + half ∧ (r - offset) `mod` m = 0.
Proof.
  intros Hm Hs Hhalf.
  assert (half `quot` step = m) as Hq
    by (rewrite Hhalf, Z.mul_comm; apply Z.quot_mul; lia).
  rewrite subset_nodes_elem by lia. rewrite Hq. split.
  - intros (j & Hj0 & Hj & ->). split; [nia|].
    replace (offset + j * m - offset) with (j * m) by lia.
    apply Z.mod_mul. lia.
  - intros [Hr Hmod]. exists ((r - offset) `div` m).
    pose proof (Z.div_mod (r - offset) m ltac:(lia)) as Hdm.
    rewrite Hmod in Hdm.
    assert (0 ≤ (r - offset) `div` m) by (apply Z.div_pos; lia).
    split; [done|]. split; nia.
Qed.

Lemma subset_nodes_receivers half step m offset r :
  1 < m → Z.even m = true → 0 < step → half = step * m →
  r ∈ subset_nodes half step (offset + m `quot` 2) ↔
  offset ≤ r < offset + half ∧ (r - offset) `mod` m = m `quot` 2.
Proof.
  intros Hm Hev Hs Hhalf.
  rewrite (subset_nodes_senders half step m) by (done || lia).
  apply Zeven_bool_iff in Hev. destruct (Zeven_ex _ Hev) as [m2 Hm2].
  assert (m `quot` 2 = m2) as ->
    by (rewrite Hm2, Z.mul_comm; apply Z.quot_mul; lia).
  assert (0 < m2 < m) by lia.
  split.
  - intros [Hr Hmod].
    pose proof (Z.div_mod (r - (offset + m2)) m ltac:(lia)) as Hdm.
    rewrite Hmod in Hdm.
    assert (0 ≤ (r - (offset + m2)) `div` m) by (apply Z.div_pos; lia).
    set (c := (r - (offset + m2)) `div` m) in *.
    assert (c < step) by nia.
    split; [nia|].
    symmetry. apply (Z.mod_unique_pos _ _ c); [lia|]. lia.
  - intros [Hr Hmod].
    pose proof (Z.div_mod (r - offset) m ltac:(lia)) as Hdm.
    rewrite Hmod in Hdm.
    assert (0 ≤ (r - offset) `div` m) by (apply Z.div_pos; lia).
    set (c := (r - offset) `div` m) in *.
    split; [nia|].
    replace (r - (offset + m2)) with (c * m) by lia.
    apply Z.mod_mul. lia.
Qed.

Lemma pow2_even (q : nat) : Z.even (2 ^ Z.of_nat (S q)) = true.
Proof. rewrite pow2_S. apply Z.even_mul. Qed.

Lemma pow2_add (q j : nat) :
  2 ^ Z.of_nat (q + j) = 2 ^ Z.of_nat j * 2 ^ Z.of_nat q.
Proof. rewrite Nat2Z.inj_add, Z.pow_add_r by lia. lia. Qed.

(** The two predicates computed in a round, on powers of two. *)
Lemma isInSubset_senders (q j : nat) master_node :
  isInSubset (2 ^ Z.of_nat (q + j)) (2 ^ Z.of_nat j) master_node =
  Some (found (subset_nodes (2 ^ Z.of_nat (q + j)) (2 ^ Z.of_nat j)
                 master_node)).
Proof.
  unfold isInSubset. rewrite isInSubset_nodes_pos; [done| |lia].
  rewrite pow2_add, Z.mul_comm, Z.quot_mul by (pose proof (pow2_pos j); lia).
  apply pow2_pos.
Qed.

Lemma found_senders (q j : nat) master_node rank :
  found (subset_nodes (2 ^ Z.of_nat (q + j)) (2 ^ Z.of_nat j) master_node)
    rank =
  sends_in_round master_node (2 ^ Z.of_nat (q + j)) (2 ^ Z.of_nat q) rank.
Proof.
  apply eq_true_iff_eq. rewrite found_spec.
  unfold sends_in_round. rewrite bool_decide_eq_true.
  apply subset_nodes_senders; [apply pow2_pos..|apply pow2_add].
Qed.

Lemma found_receivers (q j : nat) master_node rank :
  found (subset_nodes (2 ^ Z.of_nat (S q + j)) (2 ^ Z.of_nat j)
           (master_node + 2 ^ Z.of_nat (S q) `quot` 2)) rank =
  receives_in_round master_node (2 ^ Z.of_nat (S q + j))
    (2 ^ Z.of_nat (S q)) rank.
Proof.
  apply eq_true_iff_eq. rewrite found_spec.
  unfold receives_in_round. rewrite bool_decide_eq_true.
  apply subset_nodes_receivers;
    [|apply pow2_even|apply pow2_pos|apply pow2_add].
  pose proof (pow2_pos q). rewrite pow2_S. lia.
Qed.

(** One round of [bitonicSort] on powers of two appends [round_ops]. *)
Lemma bitonicSort_round_pow2 (q j : nat) master_node rank ascending acts :
  let k := 2 ^ Z.of_nat (S (S q + j)) in
  bitonicSort_round k master_node rank ascending
    (2 ^ Z.of_nat (S q)) (2 ^ Z.of_nat j) acts =
  Some (acts ++ round_ops k master_node rank ascending (2 ^ Z.of_nat (S q))).
Proof.
  intros k. unfold bitonicSort_round, round_ops.
  unfold k. rewrite (pow2_quot (S q + j)).
  rewrite (isInSubset_senders (S q) j), (isInSubset_senders (S q) j).
  by rewrite found_senders, found_receivers.
Qed.

Lemma rounds_pow2_ops (q j : nat) master_node rank ascending acts :
  let k := 2 ^ Z.of_nat (S (q + j)) in
  rounds_pow2 q j (bitonicSort_round k master_node rank ascending) acts =
  Some (acts ++
        mjoin (round_ops k master_node rank ascending <$> halvings q)).
Proof.
  revert j acts. induction q as [|q IH]; intros j acts k.
  - simpl. by rewrite app_nil_r.
  - cbn [rounds_pow2 halvings]. unfold k.
    rewrite bitonicSort_round_pow2.
    replace (S q + j)%nat with (q + S j)%nat by lia.
    rewrite IH. rewrite fmap_cons, join_cons.
    by rewrite <-app_assoc.
Qed.

Lemma halvings_elem (P : nat) m :
  m ∈ halvings P ↔ ∃ q : nat, (q < P)%nat ∧ m = 2 ^ Z.of_nat (S q).
Proof.
  induction P as [|P IH]; simpl.
  - split; [by intros ?%elem_of_nil|]. intros (q & ? & _). lia.
  - rewrite elem_of_cons, IH. split.
    + intros [->|(q & Hq & ->)]; [exists P|exists q]; split; (done || lia).
    + intros (q & Hq & ->). destruct (decide (q = P)) as [->|Hne].
      * by left.
      * right. exists q. split; [lia|done].
Qed.

Lemma halvings_seq (P : nat) :
  halvings P =
  (fun i : nat => 2 ^ Z.of_nat P `quot` 2 ^ Z.of_nat i) <$> seq 0 P.
Proof.
  induction P as [|P IH]; [done|].
  cbn [halvings seq fmap list_fmap]. f_equal.
  - change (2 ^ Z.of_nat 0) with 1. by rewrite Z.quot_1_r.
  - rewrite IH, <-fmap_S_seq, <-list_fmap_compose.
    apply list_fmap_ext. intros _ i _. simpl. rewrite !pow2_S.
    symmetry. apply Z.quot_mul_cancel_l; [pose proof (pow2_pos i)|]; lia.
Qed.

Lemma rounds_pow2_visited (q j : nat) (acc : list (Z * Z)) :
  rounds_pow2 q j (fun m step visited => Some (visited ++ [(m, step)])) acc =
  Some (acc ++ ((fun m => (m, 2 ^ Z.of_nat (q + j) `quot` m)) <$> halvings q)).
Proof.
  revert j acc. induction q as [|q IH]; intros j acc.
  - simpl. by rewrite app_nil_r.
  - cbn [rounds_pow2 halvings]. rewrite IH, fmap_cons, <-app_assoc.
    replace (q + S j)%nat with (S q + j)%nat by lia.
    assert (2 ^ Z.of_nat (S q + j) `quot` 2 ^ Z.of_nat (S q) =
            2 ^ Z.of_nat j) as ->; [|done].
    rewrite (pow2_add (S q) j).
    apply Z.quot_mul. pose proof (pow2_pos (S q)). lia.
Qed.

Lemma rounds_pow2_closed (P : nat) :
  rounds (2 ^ Z.of_nat (S P)) =
  Some ((fun m => (m, 2 ^ Z.of_nat P `quot` m)) <$> halvings P).
Proof.
  unfold rounds. rewrite pow2_quot.
  change 1 with (2 ^ Z.of_nat 0).
  rewrite round_loop_pow2 by (pose proof (pow2_ge P); lia).
  rewrite rounds_pow2_visited. by rewrite Nat.add_0_r.
Qed.

End round_facts.

Section merge_claims.

Lemma bitonicSort_pow2 (P : nat) master_node rank ascending :
  let k := 2 ^ Z.of_nat (S P) in
  bitonicSort k master_node rank ascending =
  Some ((if bool_decide (rank = master_node)
         then [CompareSwap k ascending] else []) ++
        mjoin (round_ops k master_node rank ascending <$> halvings P) ++
        bitonicSort_gather k master_node rank).
Proof.
  intros k. subst k. unfold bitonicSort. cbv zeta.
  rewrite pow2_quot.
  rewrite (round_loop_pow2 _ P 0) by (pose proof (pow2_ge P); lia).
  pose proof (rounds_pow2_ops P 0 master_node rank ascending) as Hr.
  rewrite Nat.add_0_r in Hr. cbv zeta in Hr. rewrite Hr. cbn.
  by rewrite <-app_assoc.
Qed.

Lemma roles_pow2 (q j : nat) master_node :
  let half := 2 ^ Z.of_nat (S q + j) in
  let m := 2 ^ Z.of_nat (S q) in
  let step := 2 ^ Z.of_nat j in
  half `quot` m = step ∧
  isInSubset half step master_node =
    Some (found (subset_nodes half step master_node)) ∧
  isInSubset half step (master_node + m `quot` 2) =
    Some (found (subset_nodes half step (master_node + m `quot` 2))) ∧
  (∀ r, found (subset_nodes half step master_node) r =
        sends_in_round master_node half m r) ∧
  (∀ r, found (subset_nodes half step (master_node + m `quot` 2)) r =
        receives_in_round master_node half m r).
Proof.
  intros half m step. split; [|split; [|split; [|split]]].
  - unfold half, m, step. rewrite (pow2_add (S q) j).
    apply Z.quot_mul. pose proof (pow2_pos (S q)). lia.
  - apply (isInSubset_senders (S q) j).
  - apply (isInSubset_senders (S q) j).
  - intros r. apply (found_senders (S q) j).
  - intros r. apply found_receivers.
Qed.

(** C5.  A merge of width [k = 2^(P+1)] (the merges of main have such
    widths, [widths_pow2]), as performed by the rank [rank]:
    the sub-coordinator first applies compareSwap to its [k] elements; then
    come the rounds, with half-widths [m = k/2, k/4, .., 2] (the pairs
    [(m, step)] visited by the loop have [step = (k/2)/m]); in the round of
    half-width [m] a sender, a rank for which the predicate of
    [isInSubset(k/2, step, master)] holds, sends the [m] elements at offset
    [m] to the rank [m/2] above it and applies compareSwap to its low [m]
    elements, a receiver, for which the predicate of
    [isInSubset(k/2, step, master + m/2)] holds, receives [m] elements at
    offset 0 from the rank [m/2] below it and applies compareSwap to them,
    and any other rank does nothing; the gather follows. *)
Theorem bitonicSort_protocol (P : nat) (master_node rank : Z)
    (ascending : bool) :
  let k := 2 ^ Z.of_nat (S P) in
  bitonicSort k master_node rank ascending =
    Some ((if bool_decide (rank = master_node)
           then [CompareSwap k ascending] else []) ++
          mjoin (round_ops k master_node rank ascending <$> halvings P) ++
          bitonicSort_gather k master_node rank) ∧
  halvings P =
    (fun i : nat => (k `quot` 2) `quot` 2 ^ Z.of_nat i) <$> seq 0 P ∧
  rounds k = Some ((fun m => (m, (k `quot` 2) `quot` m)) <$> halvings P) ∧
  (∀ m, m ∈ halvings P →
     ∃ isASender isAReceiver,
       isInSubset (k `quot` 2) ((k `quot` 2) `quot` m) master_node =
         Some isASender ∧
       isInSubset (k `quot` 2) ((k `quot` 2) `quot` m)
         (master_node + m `quot` 2) = Some isAReceiver ∧
       (∀ r, isASender r = sends_in_round master_node (k `quot` 2) m r) ∧
       (∀ r, isAReceiver r =
             receives_in_round master_node (k `quot` 2) m r)).
Proof.
  intros k. split; [apply bitonicSort_pow2|].
  unfold k. rewrite pow2_quot.
  split; [apply halvings_seq|]. split; [apply rounds_pow2_closed|].
  intros m (q & Hq & ->)%halvings_elem.
  destruct (roles_pow2 q (P - S q) master_node)
    as (Hstep & Hsend & Hrecv & Hs & Hr).
  replace (S q + (P - S q))%nat with P in * by lia.
  rewrite Hstep. eauto 10.
Qed.

Lemma bitonicSort_protocol_witness :
  ∃ isASender isAReceiver,
    isInSubset (16 `quot` 2) ((16 `quot` 2) `quot` 4) 0 = Some isASender ∧
    isInSubset (16 `quot` 2) ((16 `quot` 2) `quot` 4) (0 + 4 `quot` 2) =
      Some isAReceiver ∧
    (∀ r, isASender r = sends_in_round 0 (16 `quot` 2) 4 r) ∧
    (∀ r, isAReceiver r = receives_in_round 0 (16 `quot` 2) 4 r).
Proof.
  apply (bitonicSort_protocol 3 0 0 true). vm_compute.
  apply list_elem_of_further, list_elem_of_here.
Defined.

Lemma subset_nodes_shift half step offset d :
  subset_nodes half step (offset + d) =
  (fun r => r + d) <$> subset_nodes half step offset.
Proof.
  unfold subset_nodes. rewrite <-list_fmap_compose.
  apply list_fmap_ext. intros _ j _. simpl. lia.
Qed.

Lemma subset_nodes_apart half step offset d r :
  0 < d < half `quot` step →
  r ∈ subset_nodes half step offset →
  r ∉ subset_nodes half step (offset + d).
Proof.
  intros Hd Hs Hr.
  apply subset_nodes_elem in Hs as (j1 & ? & _ & ->); [|lia].
  apply subset_nodes_elem in Hr as (j2 & ? & _ & Heq); [|lia].
  destruct (Z.lt_trichotomy j1 j2) as [?|[?|?]]; nia.
Qed.

End merge_claims.
(** ** The roles of a round *)

Section round_roles.

(** C4.  In every round [(m, step)] of a merge, of any width [n] and for
    any base rank, let [isASender] and [isAReceiver] be the predicates
    returned by [isInSubset(n/2, step, base)] and
    [isInSubset(n/2, step, base + m/2)].  No rank is both a sender and a
    receiver; the base rank is a sender; [r + m/2] is a receiver for every
    sender [r] and [r' - m/2] a sender for every receiver [r'], so that
    [r ↦ r + m/2] maps the senders one-to-one onto the receivers.  Each
    predicate holds exactly of the ranks of a duplicate-free list, the two
    lists being of the same length; for the widths [n = 2^(P+1)], which
    are the widths of all the merges that main performs ([widths_pow2]),
    that length is [step], and [2·step ≤ n/2].  For a width and ranks
    within the range of [int] and a memory for [n/2] ranks, these are the
    predicates that the calls on machine integers return. *)
Theorem round_roles_paired (n base m step : Z) (visited : list (Z * Z)) :
  let half := n `quot` 2 in
  rounds n = Some visited →
  (m, step) ∈ visited →
  ∃ (isASender isAReceiver : Z → bool) (senders receivers : list Z),
    isInSubset half step base = Some isASender ∧
    isInSubset half step (base + m `quot` 2) = Some isAReceiver ∧
    (∀ r, isASender r = true ↔ r ∈ senders) ∧
    (∀ r, isAReceiver r = true ↔ r ∈ receivers) ∧
    NoDup senders ∧ NoDup receivers ∧
    length receivers = length senders ∧
    isASender base = true ∧
    (∀ r, isASender r = true → isAReceiver r = false) ∧
    (∀ r, isASender r = true → isAReceiver (r + m `quot` 2) = true) ∧
    (∀ r', isAReceiver r' = true → isASender (r' - m `quot` 2) = true) ∧
    (∀ r1 r2, isASender r1 = true → isASender r2 = true →
              r1 + m `quot` 2 = r2 + m `quot` 2 → r1 = r2) ∧
    ((∃ P : nat, n = 2 ^ Z.of_nat (S P)) →
     Z.of_nat (length senders) = step ∧
     Z.of_nat (length receivers) = step ∧
     2 * step ≤ half) ∧
    (∀ capacity : nat,
       n ≤ Int32.int_max → Int32.int_min ≤ base →
       base + n - 1 ≤ Int32.int_max → half ≤ Z.of_nat capacity →
       Int32.isInSubset capacity half step base =
         Some (Int32.Returns isASender) ∧
       Int32.isInSubset capacity half step (base + m `quot` 2) =
         Some (Int32.Returns isAReceiver)).
Proof.
  intros half Hv Hin.
  destruct (rounds_visited_bounds n visited m step Hv Hin)
    as (Hm & Hstep & Hprod). fold half in Hprod.
  assert (Hinc : m ≤ half `quot` step).
  { apply Z.quot_le_lower_bound; lia. }
  assert (Hm2 : 0 < m `quot` 2 < m).
  { split; [apply Z.quot_str_pos; lia|apply Z.quot_lt; lia]. }
  assert (Hnodes : ∀ o, isInSubset_nodes (Z.to_nat half) half step o =
                        Some (subset_nodes half step o))
    by (intros o; apply isInSubset_nodes_pos; lia).
  set (senders := subset_nodes half step base).
  set (receivers := subset_nodes half step (base + m `quot` 2)).
  assert (Hshift : receivers = (fun r => r + m `quot` 2) <$> senders)
    by apply subset_nodes_shift.
  assert (Hapart : ∀ r, r ∈ senders → r ∉ receivers)
    by (intros r; apply subset_nodes_apart; lia).
  exists (found senders), (found receivers), senders, receivers.
  split; [unfold isInSubset; by rewrite Hnodes|].
  split; [unfold isInSubset; by rewrite Hnodes|].
  split; [intros r; apply found_spec|].
  split; [intros r; apply found_spec|].
  split; [apply subset_nodes_NoDup; lia|].
  split; [apply subset_nodes_NoDup; lia|].
  split; [by rewrite Hshift, length_fmap|].
  split.
  { apply found_spec, subset_nodes_elem; [lia|].
    exists 0. split; [done|]. split; lia. }
  split.
  { intros r Hr%found_spec. apply not_true_is_false.
    intros Hr'%found_spec. by apply (Hapart r). }
  split.
  { intros r Hr%found_spec. apply found_spec. rewrite Hshift.
    apply list_elem_of_fmap. by exists r. }
  split.
  { intros r' Hr'%found_spec. apply found_spec. rewrite Hshift in Hr'.
    apply list_elem_of_fmap in Hr' as (r & -> & Hr).
    by replace (r + m `quot` 2 - m `quot` 2) with r by lia. }
  split; [intros; lia|].
  split.
  - intros [P ->]. unfold receivers, senders, half in *.
    rewrite pow2_quot in *.
    rewrite (rounds_pow2_closed P) in Hv. injection Hv as <-.
    apply list_elem_of_fmap in Hin as (m' & [= -> ->] & Hmem).
    apply halvings_elem in Hmem as (q & Hq & ->).
    assert (HP : 2 ^ Z.of_nat P =
                 2 ^ Z.of_nat (P - S q) * 2 ^ Z.of_nat (S q)).
    { rewrite <-pow2_add. f_equal. lia. }
    pose proof (pow2_pos (S q)). pose proof (pow2_pos (P - S q)).
    assert (Hs : 2 ^ Z.of_nat P `quot` 2 ^ Z.of_nat (S q) =
                 2 ^ Z.of_nat (P - S q)).
    { rewrite HP at 1. apply Z.quot_mul. lia. }
    rewrite Hs in *.
    rewrite subset_nodes_shift, length_fmap.
    rewrite subset_nodes_length;
      [|lia|apply pow2_pos|exists (2 ^ Z.of_nat (S q)); lia].
    split; [done|]. split; [done|].
    rewrite HP, (pow2_S q). pose proof (pow2_pos q). nia.
  - intros capacity Hn Hmin Hmax Hcap.
    assert (Hle : half `quot` step ≤ half)
      by (apply Z.quot_le_upper_bound; nia).
    assert (Hpos : 0 ≤ n).
    { destruct (Z.le_gt_cases 0 n) as [|Hneg]; [done|].
      assert (n `quot` 2 ≤ 0) by (apply Z.quot_le_upper_bound; lia).
      unfold half in *. nia. }
    pose proof (Z.mul_quot_le n 2 Hpos ltac:(lia)) as Hn2. fold half in Hn2.
    assert (Hhalf : 0 < half) by nia.
    pose proof (iterations_le_half half (half `quot` step)
                  ltac:(lia) Hhalf).
    split; apply isInSubset_int32; unfold Int32.int_min in *; nia.
Qed.

Lemma round_roles_paired_witness :
  ∃ (isASender isAReceiver : Z → bool) (senders receivers : list Z),
    isInSubset 8 2 0 = Some isASender ∧
    isInSubset 8 2 (0 + 4 `quot` 2) = Some isAReceiver ∧
    (∀ r, isASender r = true ↔ r ∈ senders) ∧
    (∀ r, isAReceiver r = true ↔ r ∈ receivers) ∧
    NoDup senders ∧ NoDup receivers ∧
    length receivers = length senders ∧
    isASender 0 = true ∧
    (∀ r, isASender r = true → isAReceiver r = false) ∧
    (∀ r, isASender r = true → isAReceiver (r + 4 `quot` 2) = true) ∧
    (∀ r', isAReceiver r' = true → isASender (r' - 4 `quot` 2) = true) ∧
    (∀ r1 r2, isASender r1 = true → isASender r2 = true →
              r1 + 4 `quot` 2 = r2 + 4 `quot` 2 → r1 = r2) ∧
    ((∃ P : nat, 16 = 2 ^ Z.of_nat (S P)) →
     Z.of_nat (length senders) = 2 ∧
     Z.of_nat (length receivers) = 2 ∧
     2 * 2 ≤ 8) ∧
    (∀ capacity : nat,
       16 ≤ Int32.int_max → Int32.int_min ≤ 0 →
       0 + 16 - 1 ≤ Int32.int_max → 8 ≤ Z.of_nat capacity →
       Int32.isInSubset capacity 8 2 0 = Some (Int32.Returns isASender) ∧
       Int32.isInSubset capacity 8 2 (0 + 4 `quot` 2) =
         Some (Int32.Returns isAReceiver)).
Proof.
  apply (round_roles_paired 16 0 4 2 [(8, 1); (4, 2); (2, 4)]).
  - reflexivity.
  - apply list_elem_of_further, list_elem_of_here.
Defined.

End round_roles.

(** ** main *)

Section main_facts.

Local Ltac no_fatal :=
  rewrite ?not_elem_of_app, ?not_elem_of_cons;
  repeat split; try discriminate; try apply not_elem_of_nil; try done.

Lemma round_ops_no_fatal k master_node rank ascending m :
  Fatal ∉ round_ops k master_node rank ascending m.
Proof.
  unfold round_ops. repeat case_match; no_fatal.
Qed.

Lemma gather_no_fatal n master_node rank :
  Fatal ∉ bitonicSort_gather n master_node rank.
Proof.
  unfold bitonicSort_gather. case_bool_decide; [no_fatal|].
  intros (i & Hi & _)%list_elem_of_fmap. discriminate.
Qed.

Lemma bitonicSort_no_fatal (P : nat) master_node rank ascending :
  ∃ sorted,
    bitonicSort (2 ^ Z.of_nat (S P)) master_node rank ascending =
      Some sorted ∧ Fatal ∉ sorted.
Proof.
  eexists. split; [apply bitonicSort_pow2|].
  rewrite !not_elem_of_app. split; [case_bool_decide; no_fatal|].
  split; [|apply gather_no_fatal].
  intros (ops & Hin & (m & -> & _)%list_elem_of_fmap)%list_elem_of_join.
  by apply round_ops_no_fatal in Hin.
Qed.

Lemma foldl_extends {A} (f : list action → A → list action) l acts :
  (∀ acts x, ∃ more, f acts x = acts ++ more ∧ Fatal ∉ more) →
  ∃ more, foldl f acts l = acts ++ more ∧ Fatal ∉ more.
Proof.
  intros Hf. revert acts. induction l as [|x l IH]; intros acts; simpl.
  - exists []. split; [by rewrite app_nil_r|no_fatal].
  - destruct (Hf acts x) as (more1 & -> & H1).
    destruct (IH (acts ++ more1)) as (more2 & -> & H2).
    exists (more1 ++ more2). split; [by rewrite <-app_assoc|].
    by rewrite not_elem_of_app.
Qed.

Lemma regroup_no_fatal n k rank acts :
  1 ≤ k `quot` 4 →
  ∃ more, regroup n k rank acts = Some (acts ++ more) ∧ Fatal ∉ more.
Proof.
  intros Hk. unfold regroup. rewrite for_loop_fold by lia.
  edestruct (foldl_extends (A := nat)) as (more & -> & Hmore); [|eauto].
  intros acts' j. cbv beta. case_bool_decide.
  - eexists. split; [reflexivity|]. no_fatal; repeat case_bool_decide; no_fatal.
  - exists []. split; [by rewrite app_nil_r|no_fatal].
Qed.

Lemma sort_groups_no_fatal n (P : nat) rank acts :
  ∃ more, sort_groups n (2 ^ Z.of_nat (S P)) rank acts = Some (acts ++ more) ∧
          Fatal ∉ more.
Proof.
  unfold sort_groups.
  generalize (seqZ 0 (n `quot` 2 ^ Z.of_nat (S P))). intros l.
  revert acts. induction l as [|i l IH]; intros acts; simpl.
  - exists []. split; [by rewrite app_nil_r|no_fatal].
  - case_bool_decide.
    + destruct (bitonicSort_no_fatal P
                  (i * (2 ^ Z.of_nat (S P) `quot` 2)) rank
                  (bool_decide (i `rem` 2 = 0))) as (sorted & -> & Hs).
      cbn. destruct (IH (acts ++ sorted)) as (more & -> & Hmore).
      exists (sorted ++ more). split; [by rewrite <-app_assoc|].
      by rewrite not_elem_of_app.
    + apply IH.
Qed.

Lemma level_loop_no_fatal n rank fuel (c : nat) acts :
  (Z.to_nat (n - 2 ^ Z.of_nat (S (S c)) + 1) ≤ fuel)%nat →
  ∃ more,
    level_loop fuel (2 ^ Z.of_nat (S (S c))) n
      (fun k acts => acts ← regroup n k rank acts;
                     sort_groups n k rank acts) acts =
      Some (acts ++ more) ∧ Fatal ∉ more.
Proof.
  revert c acts. induction fuel as [|fuel IH]; intros c acts Hfuel.
  - simpl. rewrite bool_decide_false by lia.
    exists []. split; [by rewrite app_nil_r|no_fatal].
  - simpl. case_bool_decide as Hk.
    + pose proof (pow2_pos c) as Hc.
      assert (Hk4 : 2 ^ Z.of_nat (S (S c)) `quot` 4 = 2 ^ Z.of_nat c).
      { rewrite !pow2_S.
        replace (2 * (2 * 2 ^ Z.of_nat c)) with (2 ^ Z.of_nat c * 4) by lia.
        apply Z.quot_mul. lia. }
      destruct (regroup_no_fatal n (2 ^ Z.of_nat (S (S c))) rank acts)
        as (more1 & -> & H1); [lia|]. cbn.
      destruct (sort_groups_no_fatal n (S c) rank (acts ++ more1))
        as (more2 & -> & H2). cbn.
      replace (2 ^ Z.of_nat (S (S c)) * 2) with (2 ^ Z.of_nat (S (S (S c))))
        by (rewrite (pow2_S (S (S c))); lia).
      destruct (IH (S c) ((acts ++ more1) ++ more2)) as (more3 & -> & H3).
      { rewrite (pow2_S (S (S c))). rewrite !pow2_S in Hk, Hfuel |- *. lia. }
      exists (more1 ++ more2 ++ more3).
      split; [by rewrite <-!app_assoc|].
      by rewrite !not_elem_of_app.
    + exists []. split; [by rewrite app_nil_r|no_fatal].
Qed.

(** C9 (as amended).  main performs no topology validation.  The sequence
    length is derived from the process count, [N = 2·(nb_instances − 1)],
    so the worker count is [N/2] by construction; for every process count,
    a power of two or not, the program of every rank is defined, reports
    no fatal error anywhere, and starts with the scatter followed by the
    compare-exchange of the rank's pair. *)
Theorem main_no_topology_check (nb_instances rank : Z) :
  (main_n nb_instances) `quot` 2 = nb_instances - 1 ∧
  ∃ rest,
    main nb_instances rank =
      Some (Scatter :: CompareSwap 2 (bool_decide (rank `rem` 2 = 0)) :: rest) ∧
    (Fatal ∉ rest) ∧
    fatal_before_exchange
      (Scatter :: CompareSwap 2 (bool_decide (rank `rem` 2 = 0)) :: rest) =
      false.
Proof.
  split; [unfold main_n; apply Z.quot_mul; lia|].
  unfold main. set (n := main_n nb_instances).
  change 4 with (2 ^ Z.of_nat (S (S 0))).
  destruct (level_loop_no_fatal n rank (Z.to_nat n) 0
              [Scatter; CompareSwap 2 (bool_decide (rank `rem` 2 = 0))])
    as (more & -> & Hmore).
  { change (2 ^ Z.of_nat 2) with 4. lia. }
  cbn. eexists. split; [reflexivity|]. split; [|done].
  case_bool_decide; no_fatal.
Qed.

(** The claim C9 as written fails: with 4 processes the sequence length is
    6, not a power of two, and rank 0 goes straight to the scatter. *)
Lemma main_six_elements_unreported :
  ¬ (¬ topology_ok 4 → reports_topology_error 4 0).
Proof.
  intros H. destruct H as (prog & Hprog & Hfatal).
  - intros (_ & _ & p & Hp). change (main_n 4) with 6 in Hp.
    destruct p as [|[|[|p]]]; try discriminate.
    rewrite !pow2_S in Hp. pose proof (pow2_pos p). lia.
  - vm_compute in Hprog. injection Hprog as <-. discriminate.
Qed.

End main_facts.

(** ** Elements are neither lost nor duplicated *)

Section accounting_facts.

Lemma held_cells_insert fin r0 nds i nd nd' :
  nds !! i = Some nd →
  ∃ before after,
    held_cells fin r0 nds =
      before ++ take (holds (fin (r0 + i)%nat) (prog nd)) (buf nd) ++ after ∧
    held_cells fin r0 (<[i := nd']> nds) =
      before ++ take (holds (fin (r0 + i)%nat) (prog nd')) (buf nd') ++ after.
Proof.
  revert r0 i. induction nds as [|x nds IH]; intros r0 i Hi; [done|].
  destruct i as [|i]; simpl in *.
  - injection Hi as ->. exists [], (held_cells fin (S r0) nds).
    by rewrite Nat.add_0_r.
  - destruct (IH (S r0) i Hi) as (before & after & -> & ->).
    exists (take (holds (fin r0) (prog x)) (buf x) ++ before), after.
    replace (S r0 + i)%nat with (r0 + S i)%nat by lia.
    by rewrite <-!app_assoc.
Qed.

Lemma payloads_app msgs1 msgs2 :
  payloads (msgs1 ++ msgs2) = payloads msgs1 ++ payloads msgs2.
Proof. unfold payloads. by rewrite fmap_app, join_app. Qed.

Lemma queued_app src dst msgs1 msgs2 :
  queued src dst (msgs1 ++ msgs2) =
  queued src dst msgs1 ++ queued src dst msgs2.
Proof.
  induction msgs1 as [|[[s d] p] msgs1 IH]; simpl; [done|].
  case_bool_decide; by rewrite IH.
Qed.

Lemma take_msg_payloads s d msgs p msgs' :
  take_msg s d msgs = Some (p, msgs') → payloads msgs ≡ₚ p ++ payloads msgs'.
Proof.
  revert msgs'. induction msgs as [|[[s0 d0] p0] msgs IH]; intros msgs';
    simpl; [done|].
  case_bool_decide.
  - intros ?; simplify_eq. done.
  - destruct (take_msg s d msgs) as [[q rest]|]; [|done].
    intros ?; simplify_eq. unfold payloads in *. simpl.
    rewrite (IH rest eq_refl). by rewrite Permutation_app_swap_app.
Qed.

Lemma take_msg_queued s d msgs p msgs' src dst :
  take_msg s d msgs = Some (p, msgs') →
  queued src dst msgs =
  if bool_decide (src = s ∧ dst = d)
  then length p :: queued src dst msgs' else queued src dst msgs'.
Proof.
  revert msgs'. induction msgs as [|[[s0 d0] p0] msgs IH]; intros msgs';
    simpl; [done|].
  destruct (decide (s0 = s ∧ d0 = d)) as [[-> ->]|Hmiss].
  - rewrite (bool_decide_true (s = s ∧ d = d)) by done.
    intros ?; simplify_eq.
    destruct (decide (s = src ∧ d = dst)) as [[-> ->]|Hne].
    + by rewrite !bool_decide_true.
    + rewrite !bool_decide_false; [done| |done].
      intros [-> ->]. by apply Hne.
  - rewrite (bool_decide_false (s0 = s ∧ d0 = d)) by done.
    destruct (take_msg s d msgs) as [[q rest]|]; [|done].
    intros ?; simplify_eq. simpl. rewrite (IH rest eq_refl).
    destruct (decide (src = s ∧ dst = d)) as [[-> ->]|Hne].
    + rewrite (bool_decide_true (s = s ∧ d = d)) by done.
      by rewrite !bool_decide_false by done.
    + by rewrite (bool_decide_false (src = s ∧ dst = d)) by done.
Qed.

Lemma store_take_app (b1 b2 b3 data : list Z) :
  length data = length b2 →
  take (length b1 + length data)
    (list_inserts (length b1) data (b1 ++ b2 ++ b3)) = b1 ++ data.
Proof.
  intros Hlen.
  pose proof (list_inserts_app_r data b1 (b2 ++ b3) 0) as H.
  rewrite Nat.add_0_r in H. rewrite H.
  rewrite list_inserts_0_r by done.
  rewrite app_assoc. apply take_app_length'. by rewrite length_app.
Qed.

Lemma store_take (off : nat) (data : list Z) (b : buffer) :
  (off + length data ≤ length b)%nat →
  take (off + length data) (list_inserts off data b) = take off b ++ data.
Proof.
  intros Hlen.
  assert (length (take off b) = off) as Hoff by (rewrite length_take; lia).
  pose proof (store_take_app (take off b)
                (take (length data) (drop off b))
                (drop (length data) (drop off b)) data) as H.
  rewrite !take_drop, Hoff in H. apply H.
  rewrite length_take, length_drop. lia.
Qed.

Lemma compareSwap_drop s n ascending (h : nat) :
  (Z.to_nat n ≤ h)%nat → (Z.to_nat n ≤ length s)%nat →
  drop h (compareSwap s n ascending) = drop h s.
Proof.
  intros Hh Hn. pose proof (half_bound n (Z.to_nat n) ltac:(lia)) as Hb.
  apply list_eq_total; [by rewrite !length_drop, compareSwap_length|].
  intros j. rewrite !lookup_total_drop, compareSwap_value by done.
  unfold cs_value. rewrite !decide_False; [done|lia..].
Qed.

Lemma compareSwap_take_perm s n ascending (h : nat) :
  (Z.to_nat n ≤ h)%nat → (Z.to_nat n ≤ length s)%nat →
  take h (compareSwap s n ascending) ≡ₚ take h s.
Proof.
  intros Hh Hn.
  apply (Permutation_app_inv_r (drop h s)).
  rewrite <-(compareSwap_drop s n ascending h) at 1 by done.
  rewrite !take_drop. by apply compareSwap_perm.
Qed.

Lemma prog_of_insert nds msgs sc msgs' sc' r nd x :
  (r < length nds)%nat →
  prog_of (Network (<[r := nd]> nds) msgs' sc') x =
  if decide (x = r) then prog nd else prog_of (Network nds msgs sc) x.
Proof.
  intros Hr. unfold prog_of. simpl. case_decide as Hx.
  - subst. by rewrite list_lookup_insert_eq.
  - by rewrite list_lookup_insert_ne.
Qed.

Lemma prog_of_lookup net r nd :
  nodes net !! r = Some nd → prog_of net r = prog nd.
Proof. intros H. unfold prog_of. by rewrite H. Qed.

Lemma lookup_insert_cases {A} (P : nat → A → Prop) (l : list A) r x :
  (∀ i y, l !! i = Some y → P i y) → P r x →
  ∀ i y, <[r := x]> l !! i = Some y → P i y.
Proof.
  intros Hl Hx i y [(-> & -> & _)|[_ Hi]]%list_lookup_insert_Some; auto.
Qed.

(** A step of a rank that is neither a send nor a receive leaves the
    channels as they are. *)
Lemma channels_local nds msgs sc sc' r a rest b o b' o' src dst :
  nds !! r = Some (Node (a :: rest) b o) →
  (∀ src dst,
     queued src dst msgs ++ sends_to dst (prog_of (Network nds msgs sc) src) =
     recvs_from src (prog_of (Network nds msgs sc) dst)) →
  (∀ d, sends_to d (a :: rest) = sends_to d rest) →
  (∀ s, recvs_from s (a :: rest) = recvs_from s rest) →
  queued src dst msgs ++
    sends_to dst (prog_of (Network (<[r := Node rest b' o']> nds) msgs sc') src) =
  recvs_from src (prog_of (Network (<[r := Node rest b' o']> nds) msgs sc') dst).
Proof.
  intros Hnd Hchan Hs Hr.
  assert (r < length nds)%nat by (by eapply lookup_lt_Some).
  rewrite !(prog_of_insert nds msgs sc) by done. simpl.
  specialize (Hchan src dst).
  unfold prog_of in *. simpl in *.
  repeat case_decide; subst; rewrite ?Hnd in *; simpl in *;
    rewrite ?Hs, ?Hr in Hchan; done.
Qed.

Lemma perm_block_out (before x y after rest : list Z) :
  (before ++ x ++ after) ++ rest ++ y ≡ₚ (before ++ (x ++ y) ++ after) ++ rest.
Proof.
  rewrite <-!app_assoc. do 2 f_equiv.
  rewrite (app_assoc after rest y). by rewrite (Permutation_app_comm _ y).
Qed.

Lemma slice_length off cnt (b : buffer) :
  (Z.to_nat off + Z.to_nat cnt ≤ length b)%nat →
  length (slice off cnt b) = Z.to_nat cnt.
Proof.
  intros Hlen. unfold slice. rewrite length_take, length_drop. lia.
Qed.

(** One step of any rank keeps the network balanced and its elements the
    same. *)
Lemma exec_balanced fin r net net' :
  balanced fin net → exec r net = Some net' →
  balanced fin net' ∧ live fin net' ≡ₚ live fin net.
Proof.
  intros [Hheld Hchan] Hexec. destruct net as [nds msgs sc].
  unfold exec in Hexec. simpl in *.
  destruct (nds !! r) as [[pr b o]|] eqn:Hnd; [|done].
  destruct (Hheld r _ Hnd) as [Hwf Hlen].
  assert (Hr : (r < length nds)%nat) by (by eapply lookup_lt_Some).
  simpl in *. destruct pr as [|a rest]; [done|].
  destruct a as [ | n asc | off cnt dest | off cnt source | | n | ];
    simpl in Hwf, Hlen, Hexec.
  - done.
  - (* compareSwap *)
    destruct Hwf as [Hn Hwf]. case_bool_decide as Hb; [|done].
    injection Hexec as <-. simpl. split; [split|].
    + apply lookup_insert_cases; [done|]. simpl.
      by rewrite compareSwap_length.
    + intros src dst. by eapply channels_local.
    + unfold live. simpl. f_equiv.
      destruct (held_cells_insert fin 0 nds r _
                  (Node rest (compareSwap b n asc) o) Hnd)
        as (before & after & -> & ->). simpl.
      do 2 f_equiv. apply compareSwap_take_perm; lia.
  - (* send *)
    destruct Hwf as (Hoff & Hcnt & Hrest & Hwf).
    case_bool_decide as Hb; [|done]. destruct Hb as (_ & _ & _ & Hdest).
    injection Hexec as <-. simpl. split; [split|].
    + apply lookup_insert_cases; [done|]. simpl. split; [done|lia].
    + intros src dst. simpl. rewrite !(prog_of_insert nds msgs sc) by done.
      rewrite queued_app. simpl. rewrite slice_length by done.
      specialize (Hchan src dst). unfold prog_of in *. simpl in *.
      destruct (decide (src = r)) as [->|Hsrc].
      * rewrite Hnd in Hchan. simpl in Hchan.
        assert (recvs_from r (if decide (dst = r) then rest
                              else default [] (prog <$> nds !! dst)) =
                recvs_from r (default [] (prog <$> nds !! dst))) as ->.
        { destruct (decide (dst = r)) as [->|?]; [|done]. by rewrite Hnd. }
        rewrite <-Hchan, <-app_assoc. f_equal.
        destruct (decide (dest = Z.of_nat dst)) as [->|Hne].
        -- rewrite !bool_decide_true; [done|done|]. split; [done|lia].
        -- rewrite !bool_decide_false; [done|done|]. intros [_ <-]. lia.
      * rewrite bool_decide_false by (intros [? _]; congruence).
        rewrite app_nil_r, Hchan.
        destruct (decide (dst = r)) as [->|?]; [|done]. by rewrite Hnd.
    + unfold live. simpl. rewrite payloads_app.
      destruct (held_cells_insert fin 0 nds r _ (Node rest b o) Hnd)
        as (before & after & -> & ->). simpl.
      rewrite Hrest. unfold payloads at 2. simpl. rewrite app_nil_r.
      rewrite <-(take_take_drop b (Z.to_nat off) (Z.to_nat cnt)).
      apply perm_block_out.
  - (* receive *)
    destruct Hwf as (Hoff & Hcnt & Hrest & Hwf).
    case_bool_decide as Hb; [|done]. destruct Hb as (_ & _ & Hsource).
    destruct (take_msg (Z.to_nat source) r msgs) as [[payload msgs']|]
      eqn:Htake; [|done].
    case_bool_decide as Hb; [|done]. destruct Hb as [_ Hfit].
    injection Hexec as <-. simpl.
    assert (Hsize : length payload = Z.to_nat cnt).
    { pose proof (Hchan (Z.to_nat source) r) as Hc.
      rewrite (take_msg_queued _ _ _ _ _ _ _ Htake) in Hc.
      rewrite bool_decide_true in Hc by done.
      unfold prog_of in Hc. simpl in Hc. rewrite Hnd in Hc. simpl in Hc.
      rewrite bool_decide_true in Hc by lia. by injection Hc. }
    split; [split|].
    + apply lookup_insert_cases; [done|]. simpl. split; [done|].
      unfold store. rewrite length_inserts. lia.
    + intros src dst. simpl. rewrite !(prog_of_insert nds msgs sc) by done.
      specialize (Hchan src dst).
      rewrite (take_msg_queued _ _ _ _ _ src dst Htake) in Hchan.
      unfold prog_of in *. simpl in *.
      destruct (decide (dst = r)) as [->|Hdst].
      * rewrite Hnd in Hchan. simpl in Hchan.
        assert (sends_to r (if decide (src = r) then rest
                            else default [] (prog <$> nds !! src)) =
                sends_to r (default [] (prog <$> nds !! src))) as ->.
        { destruct (decide (src = r)) as [->|?]; [|done]. by rewrite Hnd. }
        destruct (decide (src = Z.to_nat source)) as [->|Hne].
        -- rewrite bool_decide_true in Hchan by done.
           rewrite bool_decide_true in Hchan by lia.
           simpl in Hchan. by injection Hchan.
        -- rewrite bool_decide_false in Hchan by (intros [? _]; done).
           rewrite bool_decide_false in Hchan by lia. done.
      * rewrite bool_decide_false in Hchan by (intros [_ ?]; done).
        rewrite <-Hchan. f_equal.
        destruct (decide (src = r)) as [->|?]; [|done]. by rewrite Hnd.
    + unfold live. simpl.
      destruct (held_cells_insert fin 0 nds r _
                  (Node rest (store off payload b) o) Hnd)
        as (before & after & -> & ->). simpl.
      rewrite Hrest, <-Hsize. unfold store.
      rewrite store_take by lia.
      rewrite (take_msg_payloads _ _ _ _ _ Htake).
      rewrite (Permutation_app_comm payload). symmetry.
      apply perm_block_out.
  - injection Hexec as <-. simpl. split; [split|].
    + by apply lookup_insert_cases.
    + intros src dst. by eapply channels_local.
    + unfold live. simpl. f_equiv.
      destruct (held_cells_insert fin 0 nds r _ (Node rest b o) Hnd)
        as (before & after & -> & ->). done.
  - injection Hexec as <-. simpl. split; [split|].
    + by apply lookup_insert_cases.
    + intros src dst. by eapply channels_local.
    + unfold live. simpl. f_equiv.
      destruct (held_cells_insert fin 0 nds r _
                  (Node rest b (o ++ [slice 0 n b])) Hnd)
        as (before & after & -> & ->). done.
  - done.
Qed.

End accounting_facts.

(** ** The programs of a merge are balanced *)

Section merge_accounting.

Lemma rtc_balanced fin net net' :
  reachable net net' → balanced fin net →
  balanced fin net' ∧ live fin net' ≡ₚ live fin net.
Proof.
  intros Hreach. induction Hreach as [net|net net1 net' [r Hstep] _ IH];
    intros Hbal; [done|].
  destruct (exec_balanced fin r net net1 Hbal Hstep) as [Hbal1 Hlive1].
  destruct (IH Hbal1) as [Hbal' Hlive']. split; [done|].
  by rewrite Hlive'.
Qed.

Lemma queued_nil_all msgs :
  (∀ src dst, queued src dst msgs = []) → msgs = [].
Proof.
  destruct msgs as [|[[s d] p] msgs]; [done|]. intros H.
  specialize (H s d). simpl in H. by rewrite bool_decide_true in H.
Qed.

Lemma finished_prog_of net r :
  finished net = true → prog_of net r = [].
Proof.
  unfold finished, prog_of. rewrite forallb_forall. intros Hall.
  destruct (nodes net !! r) as [nd|] eqn:Hnd; [|done]. simpl.
  specialize (Hall nd). destruct (prog nd); [done|].
  discriminate Hall. apply list_elem_of_In, list_elem_of_lookup. eauto.
Qed.

Lemma finished_no_messages fin net :
  balanced fin net → finished net = true → inflight net = [].
Proof.
  intros [_ Hchan] Hfin. apply queued_nil_all. intros src dst.
  specialize (Hchan src dst). rewrite !finished_prog_of in Hchan by done.
  by rewrite app_nil_r in Hchan.
Qed.

Lemma held_cells_none fin r0 nds :
  (∀ i nd, nds !! i = Some nd → holds (fin (r0 + i)%nat) (prog nd) = 0%nat) →
  held_cells fin r0 nds = [].
Proof.
  revert r0. induction nds as [|nd nds IH]; intros r0 Hz; simpl; [done|].
  pose proof (Hz 0%nat nd eq_refl) as H0. rewrite Nat.add_0_r in H0.
  rewrite H0, IH; [done|]. intros i nd' Hi.
  replace (S r0 + i)%nat with (r0 + S i)%nat by lia. by apply Hz.
Qed.

Lemma held_cells_single fin r0 nds (master : nat) nd :
  nds !! master = Some nd →
  (∀ i nd', nds !! i = Some nd' → i ≠ master →
            holds (fin (r0 + i)%nat) (prog nd') = 0%nat) →
  held_cells fin r0 nds =
  take (holds (fin (r0 + master)%nat) (prog nd)) (buf nd).
Proof.
  revert r0 master. induction nds as [|x nds IH]; intros r0 master Hm Hz;
    [done|].
  destruct master as [|master]; simpl in *.
  - injection Hm as ->. rewrite Nat.add_0_r.
    rewrite held_cells_none; [by rewrite app_nil_r|].
    intros i nd' Hi. replace (S r0 + i)%nat with (r0 + S i)%nat by lia.
    by apply (Hz (S i)).
  - pose proof (Hz 0%nat x eq_refl ltac:(lia)) as H0.
    rewrite Nat.add_0_r in H0. rewrite H0. simpl.
    replace (r0 + S master)%nat with (S r0 + master)%nat by lia.
    apply IH; [done|]. intros i nd' Hi Hne.
    replace (S r0 + i)%nat with (r0 + S i)%nat by lia.
    apply (Hz (S i)); [done|lia].
Qed.

Lemma holds_app fin a b : holds fin (a ++ b) = holds (holds fin b) a.
Proof.
  induction a as [|[] a IH]; simpl; auto.
Qed.

Lemma well_held_app fin a b :
  well_held fin (a ++ b) ↔ well_held (holds fin b) a ∧ well_held fin b.
Proof.
  induction a as [|[] a IH]; simpl; rewrite ?holds_app; tauto.
Qed.

Lemma mod_double_cases x a :
  0 < a → x `mod` a = 0 ↔ x `mod` (2 * a) = 0 ∨ x `mod` (2 * a) = a.
Proof.
  intros Ha. rewrite (Z.mul_comm 2 a), Z.rem_mul_r by lia.
  pose proof (Z.mod_pos_bound x a Ha).
  pose proof (Z.mod_pos_bound (x `div` a) 2 ltac:(lia)).
  assert ((x `div` a) `mod` 2 = 0 ∨ (x `div` a) `mod` 2 = 1) as [->| ->]
    by lia; lia.
Qed.

(** The receives of the gather at the sub-coordinator, from the rank
    [start] above it on. *)
Lemma gather_recvs_held master_node (len : nat) start fin :
  0 ≤ start → fin = Z.to_nat (2 * (start + Z.of_nat len)) →
  let g := (fun i => Recv (2 * i) 2 (master_node + i)) <$>
           seqZ start (Z.of_nat len) in
  holds fin g = Z.to_nat (2 * start) ∧ well_held fin g.
Proof.
  revert start. induction len as [|len IH]; intros start Hs -> g.
  - subst g. simpl. split; [f_equal; lia|done].
  - subst g. rewrite seqZ_cons by lia. rewrite fmap_cons.
    replace (Z.pred (Z.of_nat (S len))) with (Z.of_nat len) by lia.
    destruct (IH (Z.succ start) ltac:(lia) ltac:(f_equal; lia)) as [Hh Hw].
    simpl. split; [done|]. rewrite Hh. repeat split; try lia. done.
Qed.

Lemma gather_held (P : nat) master_node rank :
  master_node ≤ rank < master_node + 2 ^ Z.of_nat P →
  let k := 2 ^ Z.of_nat (S P) in
  let fin := if bool_decide (rank = master_node) then Z.to_nat k else 0%nat in
  holds fin (bitonicSort_gather k master_node rank) = 2%nat ∧
  well_held fin (bitonicSort_gather k master_node rank).
Proof.
  intros Hin k fin. unfold bitonicSort_gather.
  pose proof (pow2_pos P) as HP.
  case_bool_decide as Hm.
  - subst fin. rewrite bool_decide_false by done. simpl.
    repeat split; lia.
  - subst fin k. rewrite bool_decide_true by done. rewrite pow2_quot.
    destruct (gather_recvs_held master_node (Z.to_nat (2 ^ Z.of_nat P - 1)) 1
                (Z.to_nat (2 ^ Z.of_nat (S P)))) as [Hh Hw]; [lia| |].
    { f_equal. rewrite pow2_S. lia. }
    rewrite Z2Nat.id in Hh, Hw by lia. split; [|done].
    by rewrite Hh.
Qed.

(** What a rank of the group holds before the round of half-width [2^q]:
    the [2·2^q] low cells of its buffer if it is at a multiple of [2^q]
    from the sub-coordinator, nothing otherwise. *)
Lemma suffix_held (P : nat) master_node rank ascending (q : nat) :
  (q ≤ P)%nat →
  master_node ≤ rank < master_node + 2 ^ Z.of_nat P →
  let k := 2 ^ Z.of_nat (S P) in
  let fin := if bool_decide (rank = master_node) then Z.to_nat k else 0%nat in
  let suffix := mjoin (round_ops k master_node rank ascending <$> halvings q)
                ++ bitonicSort_gather k master_node rank in
  well_held fin suffix ∧
  holds fin suffix =
    if bool_decide ((rank - master_node) `mod` 2 ^ Z.of_nat q = 0)
    then Z.to_nat (2 * 2 ^ Z.of_nat q) else 0%nat.
Proof.
  intros Hq Hin k fin. induction q as [|q IH]; intros suffix.
  - subst suffix. simpl.
    destruct (gather_held P master_node rank Hin) as [Hh Hw].
    fold k fin in Hh, Hw. split; [done|].
    rewrite Z.mod_1_r, bool_decide_true by done. by rewrite Hh.
  - destruct (IH ltac:(lia)) as [Hw Hh]. clear IH.
    subst suffix. cbn [halvings]. rewrite fmap_cons, join_cons.
    rewrite <-app_assoc.
    set (rest := mjoin (round_ops k master_node rank ascending <$> halvings q)
                 ++ bitonicSort_gather k master_node rank) in *.
    pose proof (pow2_pos q) as Hq2.
    pose proof (mod_double_cases (rank - master_node) _ Hq2) as Hmod.
    rewrite <-pow2_S in Hmod.
    unfold round_ops, sends_in_round, receives_in_round.
    assert (Hk2 : k `quot` 2 = 2 ^ Z.of_nat P) by apply pow2_quot.
    rewrite !Hk2, !(pow2_quot q).
    set (m := 2 ^ Z.of_nat (S q)) in *.
    assert (Hm : m = 2 * 2 ^ Z.of_nat q) by apply pow2_S.
    destruct (decide ((rank - master_node) `mod` m = 0)) as [H0|H0].
    + rewrite (bool_decide_true (_ ∧ _)) by done.
      rewrite (bool_decide_true (_ `mod` m = 0)) by done.
      rewrite bool_decide_true in Hh by tauto.
      simpl. rewrite Hh. split; [|lia]. repeat split; try lia. done.
    + rewrite (bool_decide_false (_ ∧ _ `mod` m = 0)) by tauto.
      rewrite (bool_decide_false (_ `mod` m = 0)) by done.
      destruct (decide ((rank - master_node) `mod` m = 2 ^ Z.of_nat q))
        as [H1|H1].
      * rewrite bool_decide_true by done.
        rewrite bool_decide_true in Hh by tauto.
        simpl. rewrite Hh. split; [|done]. repeat split; try lia. done.
      * rewrite bool_decide_false by tauto.
        rewrite bool_decide_false in Hh by tauto. done.
Qed.

Lemma group_prog_held (P : nat) (master : nat) ascending (r : nat) :
  let fin := merge_fin (2 ^ Z.of_nat (S P)) (Z.of_nat master) r in
  well_held fin (group_prog P (Z.of_nat master) ascending r) ∧
  holds fin (group_prog P (Z.of_nat master) ascending r) = fin.
Proof.
  intros fin. subst fin. unfold merge_fin, group_prog, in_group.
  rewrite pow2_quot.
  destruct (decide (Z.of_nat master ≤ Z.of_nat r ∧
                    Z.of_nat r < Z.of_nat master + 2 ^ Z.of_nat P))
    as [Hin|Hout].
  2: { by rewrite (bool_decide_false _ Hout). }
  rewrite (bool_decide_true _ Hin).
  destruct (suffix_held P (Z.of_nat master) (Z.of_nat r) ascending P
              ltac:(lia) ltac:(lia)) as [Hw Hh].
  cbv zeta in Hw, Hh.
  set (suffix := mjoin _ ++ bitonicSort_gather _ _ _) in *.
  rewrite well_held_app, holds_app. rewrite !Hh.
  pose proof (pow2_pos P) as HP.
  destruct (decide (Z.of_nat r = Z.of_nat master)) as [Heq|Hne].
  - rewrite !(bool_decide_true (Z.of_nat r = Z.of_nat master)) in * by done.
    rewrite bool_decide_true
      by (rewrite Heq, Z.sub_diag; apply Z.mod_0_l; lia).
    rewrite <-pow2_S. simpl. split; [|done]. split; [|done]. split; [lia|done].
  - rewrite !(bool_decide_false (Z.of_nat r = Z.of_nat master)) in * by done.
    rewrite bool_decide_false by (rewrite Z.mod_small; lia).
    simpl. done.
Qed.

Lemma sends_to_app dst a b :
  sends_to dst (a ++ b) = sends_to dst a ++ sends_to dst b.
Proof.
  induction a as [|[] a IH]; simpl; try done.
  case_bool_decide; simpl; by rewrite IH.
Qed.

Lemma recvs_from_app src a b :
  recvs_from src (a ++ b) = recvs_from src a ++ recvs_from src b.
Proof.
  induction a as [|[] a IH]; simpl; try done.
  case_bool_decide; simpl; by rewrite IH.
Qed.

Lemma closed_up master_node hh step m m2 s :
  0 < m2 → m = 2 * m2 → 0 < step → hh = step * m →
  master_node ≤ s < master_node + hh → (s - master_node) `mod` m = 0 →
  master_node ≤ s + m2 < master_node + hh ∧
  (s + m2 - master_node) `mod` m = m2.
Proof.
  intros Hm2 Hm Hstep Hhh Hs Hmod.
  pose proof (Z.div_mod (s - master_node) m ltac:(lia)) as Hdm.
  rewrite Hmod in Hdm.
  assert (0 ≤ (s - master_node) `div` m) by (apply Z.div_pos; lia).
  set (c := (s - master_node) `div` m) in *.
  assert (c < step) by nia.
  assert (m * c ≤ m * (step - 1)) by nia.
  split; [lia|].
  symmetry. apply (Z.mod_unique_pos _ _ c); lia.
Qed.

Lemma closed_down master_node hh m m2 t :
  0 < m2 → m = 2 * m2 →
  master_node ≤ t < master_node + hh → (t - master_node) `mod` m = m2 →
  master_node ≤ t - m2 < master_node + hh ∧
  (t - m2 - master_node) `mod` m = 0.
Proof.
  intros Hm2 Hm Ht Hmod.
  pose proof (Z.div_mod (t - master_node) m ltac:(lia)) as Hdm.
  rewrite Hmod in Hdm.
  assert (0 ≤ (t - master_node) `div` m) by (apply Z.div_pos; lia).
  set (c := (t - master_node) `div` m) in *.
  split; [nia|].
  replace (t - m2 - master_node) with (c * m) by lia.
  apply Z.mod_mul. lia.
Qed.

(** In a round, the block a rank sends to [dst] is the block [dst]
    receives from it. *)
Lemma round_channel (P q : nat) master_node ascending (src dst : nat) :
  (q < P)%nat →
  let k := 2 ^ Z.of_nat (S P) in
  let m := 2 ^ Z.of_nat (S q) in
  sends_to dst (round_ops k master_node (Z.of_nat src) ascending m) =
  recvs_from src (round_ops k master_node (Z.of_nat dst) ascending m).
Proof.
  intros Hq k m. unfold round_ops, sends_in_round, receives_in_round.
  assert (Hk2 : k `quot` 2 = 2 ^ Z.of_nat P) by apply pow2_quot.
  assert (Hm2 : m `quot` 2 = 2 ^ Z.of_nat q) by apply pow2_quot.
  rewrite !Hk2, !Hm2.
  pose proof (pow2_pos q) as Hq2.
  assert (Hm : m = 2 * 2 ^ Z.of_nat q) by apply pow2_S.
  set (m2 := 2 ^ Z.of_nat q) in *.
  set (hh := 2 ^ Z.of_nat P) in *.
  set (step := 2 ^ Z.of_nat (P - S q)).
  assert (Hstep : 0 < step) by apply pow2_pos.
  assert (Hhh : hh = step * m).
  { unfold hh, step, m. rewrite <-pow2_add. f_equal. lia. }
  set (s := Z.of_nat src). set (t := Z.of_nat dst).
  destruct (decide (master_node ≤ s < master_node + hh ∧
                    (s - master_node) `mod` m = 0)) as [Hs|Hs].
  - rewrite (bool_decide_true _ Hs). destruct Hs as [Hs1 Hs2].
    destruct (closed_up master_node hh step m m2 s) as [Hu1 Hu2]; [done..|].
    simpl. destruct (decide (s + m2 = t)) as [Heq|Hne].
    + rewrite (bool_decide_true (s + m2 = t)) by done. rewrite <-Heq.
      rewrite (bool_decide_false (_ ∧ (s + m2 - master_node) `mod` m = 0))
        by (intros [_ ?]; lia).
      rewrite (bool_decide_true (_ ∧ (s + m2 - master_node) `mod` m = m2))
        by done.
      simpl. rewrite bool_decide_true by lia. done.
    + rewrite (bool_decide_false (s + m2 = t)) by done.
      repeat case_bool_decide; simpl; try done.
      rewrite bool_decide_false by lia. done.
  - rewrite (bool_decide_false _ Hs).
    assert (sends_to dst
              (if bool_decide (master_node ≤ s < master_node + hh ∧
                               (s - master_node) `mod` m = m2)
               then [Recv 0 m (s - m2); CompareSwap m ascending] else []) = [])
      as -> by (by case_bool_decide).
    case_bool_decide as Ht1; [done|].
    case_bool_decide as Ht2; [|done]. simpl.
    rewrite bool_decide_false; [done|]. intros Heq.
    destruct Ht2 as [Ht2 Ht3].
    destruct (closed_down master_node hh m m2 t) as [Hd1 Hd2]; [done..|].
    apply Hs. change (Z.of_nat src) with s in Heq. rewrite <-Heq. done.
Qed.

Lemma recvs_from_gather master_node (src : nat) (len : nat) start :
  recvs_from src ((fun i => Recv (2 * i) 2 (master_node + i)) <$>
                  seqZ start (Z.of_nat len)) =
  if bool_decide (start ≤ Z.of_nat src - master_node < start + Z.of_nat len)
  then [2%nat] else [].
Proof.
  revert start. induction len as [|len IH]; intros start.
  - simpl. by rewrite bool_decide_false by lia.
  - rewrite seqZ_cons by lia. rewrite fmap_cons.
    replace (Z.pred (Z.of_nat (S len))) with (Z.of_nat len) by lia.
    simpl. rewrite IH.
    destruct (decide (master_node + start = Z.of_nat src)) as [Heq|Hne].
    + rewrite (bool_decide_true (master_node + start = _)) by done.
      rewrite bool_decide_false by lia. rewrite bool_decide_true by lia. done.
    + rewrite (bool_decide_false (master_node + start = _)) by done.
      repeat case_bool_decide; (done || lia).
Qed.

Lemma rounds_channel (P : nat) master_node ascending (src dst : nat) l :
  (∀ m, m ∈ l → m ∈ halvings P) →
  let k := 2 ^ Z.of_nat (S P) in
  sends_to dst (mjoin (round_ops k master_node (Z.of_nat src) ascending <$> l)) =
  recvs_from src (mjoin (round_ops k master_node (Z.of_nat dst) ascending <$> l)).
Proof.
  intros Hl k. induction l as [|m l IH]; [done|].
  rewrite !fmap_cons, !join_cons.
  rewrite sends_to_app, recvs_from_app.
  f_equal; [|apply IH; intros m' Hm'; apply Hl; by right].
  destruct (proj1 (halvings_elem P m) (Hl m ltac:(by left)))
    as (q & Hq & ->).
  by apply round_channel.
Qed.

Lemma rounds_outside k master_node rank ascending l :
  ¬ in_group k master_node rank →
  mjoin (round_ops k master_node rank ascending <$> l) = [].
Proof.
  intros Hout. induction l as [|m l IH]; [done|].
  rewrite fmap_cons, join_cons, IH, app_nil_r.
  unfold round_ops, sends_in_round, receives_in_round, in_group in *.
  rewrite !bool_decide_false; [done|tauto..].
Qed.

Lemma sends_to_gather master_node (y : nat) (l : list Z) :
  sends_to y ((fun i => Recv (2 * i) 2 (master_node + i)) <$> l) = [].
Proof. induction l as [|i l IH]; [done|]. by rewrite fmap_cons. Qed.

Lemma gather_channel (P : nat) master_node (src dst : nat) :
  let k := 2 ^ Z.of_nat (S P) in
  sends_to dst
    (if bool_decide (in_group k master_node (Z.of_nat src))
     then bitonicSort_gather k master_node (Z.of_nat src) else []) =
  recvs_from src
    (if bool_decide (in_group k master_node (Z.of_nat dst))
     then bitonicSort_gather k master_node (Z.of_nat dst) else []).
Proof.
  intros k. unfold in_group, bitonicSort_gather.
  assert (Hk2 : k `quot` 2 = 2 ^ Z.of_nat P) by apply pow2_quot.
  rewrite !Hk2. pose proof (pow2_pos P) as HP.
  set (s := Z.of_nat src). set (t := Z.of_nat dst). set (hh := 2 ^ Z.of_nat P) in *.
  assert (Hrecv : ∀ x : nat,
    recvs_from x ((fun i => Recv (2 * i) 2 (master_node + i)) <$>
                  seqZ 1 (hh - 1)) =
    if bool_decide (1 ≤ Z.of_nat x - master_node < hh) then [2%nat] else []).
  { intros x. replace (hh - 1) with (Z.of_nat (Z.to_nat (hh - 1))) by lia.
    rewrite recvs_from_gather.
    destruct (decide (1 ≤ Z.of_nat x - master_node < hh)).
    - rewrite !bool_decide_true by lia. done.
    - rewrite !bool_decide_false by lia. done. }
  assert (Hsend : ∀ y : nat,
    sends_to y ((fun i => Recv (2 * i) 2 (master_node + i)) <$>
                seqZ 1 (hh - 1)) = []) by (intros; apply sends_to_gather).
  destruct (decide (master_node ≤ s ∧ s < master_node + hh)) as [Hs|Hs];
    destruct (decide (master_node ≤ t ∧ t < master_node + hh)) as [Ht|Ht];
    rewrite ?(bool_decide_true _ Hs), ?(bool_decide_false _ Hs),
            ?(bool_decide_true _ Ht), ?(bool_decide_false _ Ht).
  - destruct (decide (s = master_node)) as [Hsm|Hsm];
      destruct (decide (t = master_node)) as [Htm|Htm];
      rewrite ?(bool_decide_true (s ≠ master_node)),
              ?(bool_decide_false (s ≠ master_node)),
              ?(bool_decide_true (t ≠ master_node)),
              ?(bool_decide_false (t ≠ master_node)) by tauto;
      rewrite ?Hrecv, ?Hsend; simpl; fold s t.
    + rewrite bool_decide_false by lia. done.
    + done.
    + rewrite bool_decide_true by lia. rewrite bool_decide_true by lia. done.
    + rewrite bool_decide_false by lia. done.
  - destruct (decide (s = master_node)) as [Hsm|Hsm];
      rewrite ?(bool_decide_true (s ≠ master_node)),
              ?(bool_decide_false (s ≠ master_node)) by tauto;
      rewrite ?Hsend; simpl; [done|].
    rewrite bool_decide_false; [done|]. fold t. lia.
  - destruct (decide (t = master_node)) as [Htm|Htm];
      rewrite ?(bool_decide_true (t ≠ master_node)),
              ?(bool_decide_false (t ≠ master_node)) by tauto;
      rewrite ?Hrecv; simpl; [|done].
    fold s. rewrite bool_decide_false by lia. done.
  - done.
Qed.

Lemma group_prog_sends (P : nat) master_node ascending (x dst : nat) :
  let k := 2 ^ Z.of_nat (S P) in
  sends_to dst (group_prog P master_node ascending x) =
  sends_to dst (mjoin (round_ops k master_node (Z.of_nat x) ascending <$>
                       halvings P)) ++
  sends_to dst (if bool_decide (in_group k master_node (Z.of_nat x))
                then bitonicSort_gather k master_node (Z.of_nat x) else []).
Proof.
  intros k. unfold group_prog. fold k.
  destruct (decide (in_group k master_node (Z.of_nat x))) as [Hin|Hout].
  - rewrite !(bool_decide_true _ Hin). rewrite !sends_to_app.
    by case_bool_decide.
  - rewrite !(bool_decide_false _ Hout). by rewrite rounds_outside.
Qed.

Lemma group_prog_recvs (P : nat) master_node ascending (x src : nat) :
  let k := 2 ^ Z.of_nat (S P) in
  recvs_from src (group_prog P master_node ascending x) =
  recvs_from src (mjoin (round_ops k master_node (Z.of_nat x) ascending <$>
                         halvings P)) ++
  recvs_from src (if bool_decide (in_group k master_node (Z.of_nat x))
                  then bitonicSort_gather k master_node (Z.of_nat x) else []).
Proof.
  intros k. unfold group_prog. fold k.
  destruct (decide (in_group k master_node (Z.of_nat x))) as [Hin|Hout].
  - rewrite !(bool_decide_true _ Hin). rewrite !recvs_from_app.
    by case_bool_decide.
  - rewrite !(bool_decide_false _ Hout). by rewrite rounds_outside.
Qed.

(** On every channel of a merge the blocks sent are the blocks expected. *)
Lemma group_prog_channels (P : nat) master_node ascending (src dst : nat) :
  sends_to dst (group_prog P master_node ascending src) =
  recvs_from src (group_prog P master_node ascending dst).
Proof.
  rewrite group_prog_sends, group_prog_recvs.
  f_equal; [by apply rounds_channel|apply gather_channel].
Qed.

End merge_accounting.

(** ** A merge keeps the elements of its group *)

Section merge_claim.

Lemma mapM_closed {A B} (f : A → option B) (g : A → B) (l : list A) :
  (∀ x, f x = Some (g x)) → mapM f l = Some (g <$> l).
Proof.
  intros Hf. apply mapM_Some_2. induction l as [|x l IH]; simpl.
  - constructor.
  - constructor; [apply Hf|done].
Qed.

Lemma merge_progs_closed ranks (P : nat) master_node ascending :
  merge_progs ranks (2 ^ Z.of_nat (S P)) master_node ascending =
  Some (group_prog P master_node ascending <$> seq 0 ranks).
Proof.
  unfold merge_progs. apply mapM_closed. intros r.
  unfold group_prog, in_group.
  destruct (decide (master_node ≤ Z.of_nat r ∧
              Z.of_nat r < master_node + 2 ^ Z.of_nat (S P) `quot` 2))
    as [Hin|Hout].
  - rewrite !(bool_decide_true _ Hin). apply bitonicSort_pow2.
  - by rewrite !(bool_decide_false _ Hout).
Qed.

Lemma merge_start_lookup (P : nat) master_node ascending bufs r nd :
  nodes (merge_start (group_prog P master_node ascending <$>
                      seq 0 (length bufs)) bufs) !! r = Some nd ↔
  ∃ b, bufs !! r = Some b ∧
       nd = Node (group_prog P master_node ascending r) b [].
Proof.
  unfold merge_start. simpl. rewrite lookup_zip_with_Some. split.
  - intros (p & b & -> & Hp & Hb). exists b. split; [done|].
    apply list_lookup_fmap_Some in Hp as (r' & -> & Hr').
    apply lookup_seq in Hr' as [-> _]. done.
  - intros (b & Hb & ->). eexists _, b. split; [done|]. split; [|done].
    rewrite list_lookup_fmap, lookup_seq_lt; [done|].
    by eapply lookup_lt_Some.
Qed.

Lemma merge_start_prog_of (P : nat) (master : nat) ascending bufs x :
  (master + Z.to_nat (2 ^ Z.of_nat P) ≤ length bufs)%nat →
  prog_of (merge_start (group_prog P (Z.of_nat master) ascending <$>
                        seq 0 (length bufs)) bufs) x =
  group_prog P (Z.of_nat master) ascending x.
Proof.
  intros Hranks. unfold prog_of.
  destruct (nodes _ !! x) as [nd|] eqn:Hnd.
  - apply merge_start_lookup in Hnd as (b & _ & ->). done.
  - simpl. unfold merge_start in Hnd. simpl in Hnd.
    apply lookup_ge_None in Hnd.
    rewrite length_zip_with, length_fmap, length_seq in Hnd.
    unfold group_prog, in_group. rewrite pow2_quot.
    pose proof (pow2_pos P). rewrite bool_decide_false; [done|lia].
Qed.

Lemma merge_start_balanced (P : nat) (master : nat) ascending bufs :
  let k := 2 ^ Z.of_nat (S P) in
  (master + Z.to_nat (k `quot` 2) ≤ length bufs)%nat →
  (Z.to_nat k ≤ length (bufs !!! master))%nat →
  balanced (merge_fin k (Z.of_nat master))
    (merge_start (group_prog P (Z.of_nat master) ascending <$>
                  seq 0 (length bufs)) bufs).
Proof.
  intros k Hranks Hbuf. unfold k in Hranks. rewrite pow2_quot in Hranks.
  split.
  - intros r nd (b & Hb & ->)%merge_start_lookup. simpl.
    destruct (group_prog_held P master ascending r) as [Hw Hh].
    cbv zeta in Hw, Hh. fold k in Hw, Hh. split; [done|]. rewrite Hh.
    unfold merge_fin. case_bool_decide as Hm; [|lia].
    assert (r = master) as -> by lia.
    by rewrite (list_lookup_total_correct _ _ _ Hb) in Hbuf.
  - intros src dst. rewrite !merge_start_prog_of by done. simpl.
    apply group_prog_channels.
Qed.

Lemma merge_start_live (P : nat) (master : nat) ascending bufs :
  let k := 2 ^ Z.of_nat (S P) in
  (master + Z.to_nat (k `quot` 2) ≤ length bufs)%nat →
  live (merge_fin k (Z.of_nat master))
    (merge_start (group_prog P (Z.of_nat master) ascending <$>
                  seq 0 (length bufs)) bufs) =
  take (Z.to_nat k) (bufs !!! master).
Proof.
  intros k Hranks. unfold k in Hranks. rewrite pow2_quot in Hranks.
  pose proof (pow2_pos P) as HP.
  destruct (lookup_lt_is_Some_2 bufs master ltac:(lia)) as [b Hb].
  unfold live. simpl. rewrite app_nil_r.
  rewrite (held_cells_single _ 0 _ master
             (Node (group_prog P (Z.of_nat master) ascending master) b [])).
  - simpl. destruct (group_prog_held P master ascending master) as [_ Hh].
    cbv zeta in Hh. fold k in Hh. rewrite Hh.
    unfold merge_fin. rewrite bool_decide_true by done.
    by rewrite (list_lookup_total_correct _ _ _ Hb).
  - apply merge_start_lookup. eauto.
  - intros i nd (b' & _ & ->)%merge_start_lookup Hne. simpl.
    destruct (group_prog_held P master ascending i) as [_ Hh].
    cbv zeta in Hh. fold k in Hh. rewrite Hh.
    unfold merge_fin. rewrite bool_decide_false; [done|lia].
Qed.

Lemma exec_length r net net' :
  exec r net = Some net' → length (nodes net') = length (nodes net).
Proof.
  unfold exec. intros H.
  repeat (case_match; simplify_eq; simpl in *; try done).
  by rewrite length_insert.
Qed.

Lemma reachable_length net net' :
  reachable net net' → length (nodes net') = length (nodes net).
Proof.
  induction 1 as [|net net1 net' [r Hstep] _ IH]; [done|].
  rewrite IH. by eapply exec_length.
Qed.

Lemma finished_live fin net (master : nat) nd :
  finished net = true → nodes net !! master = Some nd →
  (∀ r, r ≠ master → fin r = 0%nat) →
  live fin net = take (fin master) (buf nd) ++ payloads (inflight net).
Proof.
  intros Hfin Hm Hz. unfold live. f_equal.
  assert (Hprog : ∀ i nd', nodes net !! i = Some nd' → prog nd' = []).
  { intros i nd' Hi. pose proof (finished_prog_of net i Hfin) as Hp.
    unfold prog_of in Hp. by rewrite Hi in Hp. }
  rewrite (held_cells_single fin 0 _ master nd Hm).
  - by rewrite (Hprog _ _ Hm).
  - intros i nd' Hi Hne. rewrite (Hprog _ _ Hi). simpl. by apply Hz.
Qed.

(** C6.  A merge of width [k = 2^(P+1)] (every merge level of main has
    such a width, [widths_pow2]) run by the ranks
    [master .. master + k/2) of a network, the sub-coordinator holding
    the [k] elements of the group: whatever the order in which the ranks
    proceed, at every moment the elements held by the ranks together with
    those in transit are the [k] initial elements, each exactly as often
    as initially; and once all ranks have finished no message is left and
    the [k] elements assembled at the sub-coordinator are a permutation of
    the initial ones. *)
Theorem merge_preserves_elements (P ranks master : nat) (ascending : bool)
    (bufs : list buffer) :
  let k := 2 ^ Z.of_nat (S P) in
  length bufs = ranks →
  (master + Z.to_nat (k `quot` 2) ≤ ranks)%nat →
  (Z.to_nat k ≤ length (bufs !!! master))%nat →
  ∃ progs,
    merge_progs ranks k (Z.of_nat master) ascending = Some progs ∧
    ∀ net, reachable (merge_start progs bufs) net →
      live (merge_fin k (Z.of_nat master)) net ≡ₚ
        take (Z.to_nat k) (bufs !!! master) ∧
      (finished net = true →
       inflight net = [] ∧
       ∃ nd, nodes net !! master = Some nd ∧
             take (Z.to_nat k) (buf nd) ≡ₚ
               take (Z.to_nat k) (bufs !!! master)).
Proof.
  intros k <- Hranks Hbuf. eexists. split; [apply merge_progs_closed|].
  intros net Hreach.
  pose proof (merge_start_balanced P master ascending bufs Hranks Hbuf)
    as Hbal0.
  destruct (rtc_balanced _ _ _ Hreach Hbal0) as [Hbal Hlive].
  rewrite (merge_start_live P master ascending bufs Hranks) in Hlive.
  split; [done|]. intros Hfin.
  pose proof (finished_no_messages _ _ Hbal Hfin) as Hmsgs.
  split; [done|].
  pose proof (reachable_length _ _ Hreach) as Hlen.
  unfold merge_start in Hlen. simpl in Hlen.
  rewrite length_zip_with, length_fmap, length_seq in Hlen.
  assert (master < length bufs)%nat as Hmaster.
  { unfold k in Hranks. rewrite pow2_quot in Hranks.
    pose proof (pow2_pos P). lia. }
  destruct (lookup_lt_is_Some_2 (nodes net) master ltac:(lia)) as [nd Hnd].
  exists nd. split; [done|].
  rewrite (finished_live _ _ master nd Hfin Hnd) in Hlive.
  - rewrite Hmsgs in Hlive. unfold payloads in Hlive. simpl in Hlive.
    rewrite app_nil_r in Hlive. unfold merge_fin in Hlive.
    by rewrite bool_decide_true in Hlive by done.
  - intros r Hne. unfold merge_fin. rewrite bool_decide_false; [done|lia].
Qed.

(** A run of the fair schedule is a sequence of steps of the network, and
    it ends with all ranks finished. *)
Lemma sweep_reachable net : reachable net (sweep net).
Proof.
  unfold sweep. generalize (seq 0 (length (nodes net))). intros l.
  revert net. induction l as [|r l IH]; intros net; simpl; [done|].
  destruct (exec r net) as [net1|] eqn:Hstep; simpl; [|apply IH].
  eapply rtc_l; [by exists r|apply IH].
Qed.

Lemma run_reachable fuel net net' :
  run fuel net = Some net' → reachable net net' ∧ finished net' = true.
Proof.
  revert net. induction fuel as [|fuel IH]; intros net; simpl.
  - destruct (finished net) eqn:Hfin; [|done]. by intros [= <-].
  - destruct (finished net) eqn:Hfin; [by intros [= <-]|].
    intros Hrun. destruct (IH _ Hrun) as [Hreach Hdone]. split; [|done].
    eapply rtc_trans; [apply sweep_reachable|done].
Qed.

End merge_claim.

Section merge_examples.

Lemma merge_preserves_elements_witness :
  ∃ progs,
    merge_progs 4 8 0 true = Some progs ∧
    ∀ net, reachable (merge_start progs bufs8) net →
      live (merge_fin 8 0) net ≡ₚ take 8 (bufs8 !!! 0%nat) ∧
      (finished net = true →
       inflight net = [] ∧
       ∃ nd, nodes net !! 0%nat = Some nd ∧
             take 8 (buf nd) ≡ₚ take 8 (bufs8 !!! 0%nat)).
Proof.
  apply (merge_preserves_elements 2 4 0 true bufs8);
    [reflexivity|vm_compute; lia|vm_compute; lia].
Defined.

(** The merge of that group does end, under the fair schedule, with the
    group sorted at rank 0. *)
Example merge_eight_finishes :
  ∃ progs net,
    merge_progs 4 8 0 true = Some progs ∧
    reachable (merge_start progs bufs8) net ∧ finished net = true ∧
    buf <$> nodes net !! 0%nat = Some [1; 2; 3; 4; 5; 6; 7; 8].
Proof.
  assert (∃ progs net, merge_progs 4 8 0 true = Some progs ∧
            run 20 (merge_start progs bufs8) = Some net ∧
            buf <$> nodes net !! 0%nat = Some [1; 2; 3; 4; 5; 6; 7; 8])
    as (progs & net & Hp & Hrun & Hbuf).
  { eexists _, _. split; [reflexivity|]. split; [vm_compute; reflexivity|].
    reflexivity. }
  exists progs, net. destruct (run_reachable _ _ _ Hrun). done.
Qed.

End merge_examples.

(** ** All interleavings end in the same state *)

Section traffic_facts.

Lemma channel_app src dst msgs1 msgs2 :
  channel src dst (msgs1 ++ msgs2) =
  channel src dst msgs1 ++ channel src dst msgs2.
Proof.
  induction msgs1 as [|[[s d] p] msgs1 IH]; simpl; [done|].
  case_bool_decide; by rewrite IH.
Qed.

Lemma take_msg_channel s d msgs p msgs' src dst :
  take_msg s d msgs = Some (p, msgs') →
  channel src dst msgs =
  if bool_decide (src = s ∧ dst = d)
  then p :: channel src dst msgs' else channel src dst msgs'.
Proof.
  revert msgs'. induction msgs as [|[[s0 d0] p0] msgs IH]; intros msgs';
    simpl; [done|].
  destruct (decide (s0 = s ∧ d0 = d)) as [[-> ->]|Hmiss].
  - rewrite (bool_decide_true (s = s ∧ d = d)) by done.
    intros ?; simplify_eq.
    destruct (decide (s = src ∧ d = dst)) as [[-> ->]|Hne].
    + by rewrite !bool_decide_true.
    + rewrite !bool_decide_false; [done| |done].
      intros [-> ->]. by apply Hne.
  - rewrite (bool_decide_false (s0 = s ∧ d0 = d)) by done.
    destruct (take_msg s d msgs) as [[q rest]|]; [|done].
    intros ?; simplify_eq. simpl. rewrite (IH rest eq_refl).
    destruct (decide (src = s ∧ dst = d)) as [[-> ->]|Hne].
    + rewrite (bool_decide_true (s = s ∧ d = d)) by done.
      by rewrite !bool_decide_false by done.
    + by rewrite (bool_decide_false (src = s ∧ dst = d)) by done.
Qed.

Lemma take_msg_head s d msgs p q :
  channel s d msgs = p :: q → ∃ msgs', take_msg s d msgs = Some (p, msgs').
Proof.
  induction msgs as [|[[s0 d0] p0] msgs IH]; simpl; [done|].
  case_bool_decide.
  - intros [= -> _]. eauto.
  - intros Hc. destruct (IH Hc) as [msgs' ->]. eauto.
Qed.

Lemma take_msg_same_traffic s d msgs1 msgs2 p msgs1' :
  same_traffic msgs1 msgs2 → take_msg s d msgs1 = Some (p, msgs1') →
  ∃ msgs2', take_msg s d msgs2 = Some (p, msgs2') ∧
            same_traffic msgs1' msgs2'.
Proof.
  intros Hsame Htake.
  pose proof (take_msg_channel _ _ _ _ _ s d Htake) as Hc.
  rewrite bool_decide_true in Hc by done. rewrite Hsame in Hc.
  destruct (take_msg_head _ _ _ _ _ Hc) as [msgs2' Htake2].
  exists msgs2'. split; [done|]. intros src dst.
  pose proof (take_msg_channel _ _ _ _ _ src dst Htake) as H1.
  pose proof (take_msg_channel _ _ _ _ _ src dst Htake2) as H2.
  rewrite Hsame, H2 in H1. case_bool_decide; by simplify_eq.
Qed.

Lemma take_msg_app s d msgs p msgs' more :
  take_msg s d msgs = Some (p, msgs') →
  take_msg s d (msgs ++ more) = Some (p, msgs' ++ more).
Proof.
  revert msgs'. induction msgs as [|[[s0 d0] p0] msgs IH]; intros msgs';
    simpl; [done|].
  case_bool_decide.
  - intros ?; by simplify_eq.
  - destruct (take_msg s d msgs) as [[q rest]|]; [|done].
    intros ?; simplify_eq. by rewrite (IH rest eq_refl).
Qed.

Global Instance same_traffic_equiv : Equivalence same_traffic.
Proof.
  split.
  - by intros l s d.
  - intros l1 l2 H s d. by rewrite H.
  - intros l1 l2 l3 H1 H2 s d. by rewrite H1, H2.
Qed.

Global Instance net_equiv_equiv : Equivalence net_equiv.
Proof.
  split.
  - by intros net.
  - intros a b (? & ? & ?). by split; [|split].
  - intros a b c (? & ? & ?) (? & ? & ?).
    split; [congruence|]. split; [congruence|]. by etrans.
Qed.

End traffic_facts.

Section effect_facts.

Context (r ranks : nat) (b : buffer) (o : list (list Z)).

Lemma effect_quiet a sc msgs b' o' sc' msgs' :
  quiet a → effect r ranks a b o sc msgs = Some (b', o', sc', msgs') →
  sc' = sc ∧ msgs' = msgs ∧
  ∀ sc0 msgs0, effect r ranks a b o sc0 msgs0 = Some (b', o', sc0, msgs0).
Proof.
  destruct a; simpl; try done; intros _ Heff;
    repeat case_bool_decide; simplify_eq; done.
Qed.

Lemma effect_send off count dest sc msgs b' o' sc' msgs' :
  effect r ranks (Send off count dest) b o sc msgs = Some (b', o', sc', msgs') →
  ∃ d p,
    sc' = sc ∧ msgs' = msgs ++ [(r, d, p)] ∧
    ∀ sc0 msgs0,
      effect r ranks (Send off count dest) b o sc0 msgs0 =
      Some (b', o', sc0, msgs0 ++ [(r, d, p)]).
Proof.
  simpl. case_bool_decide; [|done]. intros ?; simplify_eq.
  eexists _, _. split; [done|]. split; [done|]. done.
Qed.

Lemma effect_recv off count source sc msgs b' o' sc' msgs' :
  effect r ranks (Recv off count source) b o sc msgs = Some (b', o', sc', msgs') →
  ∃ s p,
    sc' = sc ∧ take_msg s r msgs = Some (p, msgs') ∧
    ∀ sc0 msgs0 msgs0',
      take_msg s r msgs0 = Some (p, msgs0') →
      effect r ranks (Recv off count source) b o sc0 msgs0 =
      Some (b', o', sc0, msgs0').
Proof.
  simpl. case_bool_decide as Hg; [|done].
  destruct (take_msg (Z.to_nat source) r msgs) as [[p rest]|] eqn:Htake;
    [|done].
  case_bool_decide as Hfit; [|done]. intros ?; simplify_eq.
  exists (Z.to_nat source), p. split; [done|]. split; [done|].
  intros sc0 msgs0 msgs0' Htake0. rewrite Htake0.
  by rewrite bool_decide_true.
Qed.

Lemma effect_scatter sc msgs b' o' sc' msgs' :
  effect r ranks Scatter b o sc msgs = Some (b', o', sc', msgs') →
  msgs' = msgs ∧
  (if decide (r = 0%nat) then sc = None else sc' = sc ∧ is_Some sc) ∧
  ∀ msgs0, effect r ranks Scatter b o sc msgs0 = Some (b', o', sc', msgs0).
Proof.
  simpl. case_decide as Hr.
  - rewrite bool_decide_true by done. destruct sc; [done|].
    intros ?; simplify_eq. done.
  - rewrite bool_decide_false by done. destruct sc; [|done].
    intros ?; simplify_eq. split; [done|]. split; [|done]. eauto.
Qed.

(** An effect never depends on messages of other channels nor on their
    order. *)
Lemma effect_same_traffic a sc msgs msgs2 b' o' sc' msgs' :
  same_traffic msgs msgs2 →
  effect r ranks a b o sc msgs = Some (b', o', sc', msgs') →
  ∃ msgs2', effect r ranks a b o sc msgs2 = Some (b', o', sc', msgs2') ∧
            same_traffic msgs' msgs2'.
Proof.
  intros Hsame Heff. destruct a.
  - destruct (effect_scatter _ _ _ _ _ _ Heff) as (-> & _ & Hany).
    exists msgs2. by rewrite Hany.
  - apply effect_quiet in Heff as (-> & -> & Hany); [|done].
    exists msgs2. by rewrite Hany.
  - destruct (effect_send _ _ _ _ _ _ _ _ _ Heff) as (d & p & -> & -> & Hany).
    exists (msgs2 ++ [(r, d, p)]). rewrite Hany. split; [done|].
    intros src dst. by rewrite !channel_app, Hsame.
  - destruct (effect_recv _ _ _ _ _ _ _ _ _ Heff)
      as (s & p & -> & Htake & Hany).
    destruct (take_msg_same_traffic _ _ _ _ _ _ Hsame Htake)
      as (msgs2' & Htake2 & Hsame').
    exists msgs2'. split; [|done]. by apply Hany.
  - apply effect_quiet in Heff as (-> & -> & Hany); [|done].
    exists msgs2. by rewrite Hany.
  - apply effect_quiet in Heff as (-> & -> & Hany); [|done].
    exists msgs2. by rewrite Hany.
  - done.
Qed.

(** The four ways in which an operation acts on the shared state: not at
    all, by sending, by receiving, by scattering. *)
Lemma effect_cases a sc msgs b' o' sc' msgs' :
  effect r ranks a b o sc msgs = Some (b', o', sc', msgs') →
  (sc' = sc ∧ msgs' = msgs ∧
   ∀ sc0 msgs0, effect r ranks a b o sc0 msgs0 = Some (b', o', sc0, msgs0)) ∨
  (∃ d p,
     sc' = sc ∧ msgs' = msgs ++ [(r, d, p)] ∧
     ∀ sc0 msgs0,
       effect r ranks a b o sc0 msgs0 =
       Some (b', o', sc0, msgs0 ++ [(r, d, p)])) ∨
  (∃ s p,
     sc' = sc ∧ take_msg s r msgs = Some (p, msgs') ∧
     ∀ sc0 msgs0 msgs0',
       take_msg s r msgs0 = Some (p, msgs0') →
       effect r ranks a b o sc0 msgs0 = Some (b', o', sc0, msgs0')) ∨
  (msgs' = msgs ∧
   (if decide (r = 0%nat) then sc = None else sc' = sc ∧ is_Some sc) ∧
   ∀ msgs0, effect r ranks a b o sc msgs0 = Some (b', o', sc', msgs0)).
Proof.
  intros Heff. destruct a.
  - right; right; right. by apply effect_scatter.
  - left. by apply effect_quiet in Heff.
  - right; left. by apply effect_send in Heff.
  - right; right; left. by apply effect_recv in Heff.
  - left. by apply effect_quiet in Heff.
  - left. by apply effect_quiet in Heff.
  - done.
Qed.

End effect_facts.

Section diamond.

Lemma channel_two_senders src dst msgs (s1 d1 s2 d2 : nat) (p1 p2 : list Z) :
  s1 ≠ s2 →
  channel src dst ((msgs ++ [(s1, d1, p1)]) ++ [(s2, d2, p2)]) =
  channel src dst ((msgs ++ [(s2, d2, p2)]) ++ [(s1, d1, p1)]).
Proof.
  intros Hne. rewrite !channel_app, <-!(assoc_L (++)). f_equal. simpl.
  repeat case_bool_decide; try done. destruct_and!; congruence.
Qed.

Lemma take_msg_diamond s1 d1 s2 d2 msgs p1 m1 p2 m2 :
  d1 ≠ d2 →
  take_msg s1 d1 msgs = Some (p1, m1) →
  take_msg s2 d2 msgs = Some (p2, m2) →
  ∃ m12 m21,
    take_msg s2 d2 m1 = Some (p2, m12) ∧
    take_msg s1 d1 m2 = Some (p1, m21) ∧
    same_traffic m12 m21.
Proof.
  intros Hne T1 T2.
  assert (∃ m12, take_msg s2 d2 m1 = Some (p2, m12)) as [m12 T12].
  { pose proof (take_msg_channel _ _ _ _ _ s2 d2 T1) as H1.
    pose proof (take_msg_channel _ _ _ _ _ s2 d2 T2) as H2.
    rewrite bool_decide_false in H1 by (intros [_ ?]; congruence).
    rewrite bool_decide_true in H2 by done.
    rewrite H1 in H2. by apply take_msg_head in H2. }
  assert (∃ m21, take_msg s1 d1 m2 = Some (p1, m21)) as [m21 T21].
  { pose proof (take_msg_channel _ _ _ _ _ s1 d1 T1) as H1.
    pose proof (take_msg_channel _ _ _ _ _ s1 d1 T2) as H2.
    rewrite bool_decide_true in H1 by done.
    rewrite bool_decide_false in H2 by (intros [_ ?]; congruence).
    rewrite H2 in H1. by apply take_msg_head in H1. }
  exists m12, m21. split; [done|]. split; [done|]. intros src dst.
  pose proof (take_msg_channel _ _ _ _ _ src dst T1) as H1.
  pose proof (take_msg_channel _ _ _ _ _ src dst T2) as H2.
  pose proof (take_msg_channel _ _ _ _ _ src dst T12) as H12.
  pose proof (take_msg_channel _ _ _ _ _ src dst T21) as H21.
  destruct (decide (src = s1 ∧ dst = d1)) as [[-> ->]|N1].
  - rewrite bool_decide_true in H1, H21 by done.
    rewrite bool_decide_false in H2, H12 by (intros [_ ?]; congruence). congruence.
  - rewrite bool_decide_false in H1, H21 by done.
    destruct (decide (src = s2 ∧ dst = d2)) as [[-> ->]|N2].
    + rewrite bool_decide_true in H2, H12 by done. congruence.
    + rewrite bool_decide_false in H2, H12 by done. congruence.
Qed.

(** Operations of two different ranks that are both possible can be
    performed in either order, with the same result. *)
Lemma effect_diamond r1 r2 ranks a1 b1 o1 a2 b2 o2 sc msgs
    b1' o1' sc1 m1 b2' o2' sc2 m2 :
  r1 ≠ r2 →
  effect r1 ranks a1 b1 o1 sc msgs = Some (b1', o1', sc1, m1) →
  effect r2 ranks a2 b2 o2 sc msgs = Some (b2', o2', sc2, m2) →
  ∃ sc' m12 m21,
    effect r2 ranks a2 b2 o2 sc1 m1 = Some (b2', o2', sc', m12) ∧
    effect r1 ranks a1 b1 o1 sc2 m2 = Some (b1', o1', sc', m21) ∧
    same_traffic m12 m21.
Proof.
  intros Hne H1 H2.
  destruct (effect_cases _ _ _ _ _ _ _ _ _ _ _ H1)
    as [(-> & -> & A1)|[(d1 & p1 & -> & -> & A1)|
        [(s1 & p1 & -> & T1 & A1)|(-> & G1 & A1)]]];
    destruct (effect_cases _ _ _ _ _ _ _ _ _ _ _ H2)
    as [(-> & -> & A2)|[(d2 & p2 & -> & -> & A2)|
        [(s2 & p2 & -> & T2 & A2)|(-> & G2 & A2)]]].
  - by exists sc, msgs, msgs.
  - by eexists sc, _, _.
  - exists sc, m2, m2. split; [by apply A2|]. by split.
  - by exists sc2, msgs, msgs.
  - by eexists sc, _, _.
  - eexists sc, _, _. split; [apply A2|]. split; [apply A1|].
    intros src dst. by apply channel_two_senders.
  - exists sc, (m2 ++ [(r1, d1, p1)]), (m2 ++ [(r1, d1, p1)]).
    split; [by apply A2, take_msg_app|]. by split.
  - by eexists sc2, _, _.
  - exists sc, m1, m1. split; [done|]. split; [by apply A1|done].
  - exists sc, (m1 ++ [(r2, d2, p2)]), (m1 ++ [(r2, d2, p2)]).
    split; [done|]. split; [by apply A1, take_msg_app|done].
  - destruct (take_msg_diamond _ _ _ _ _ _ _ _ _ Hne T1 T2)
      as (m12 & m21 & T12 & T21 & Hsame).
    exists sc, m12, m21. split; [by apply A2|]. split; [by apply A1|done].
  - exists sc2, m1, m1. split; [done|]. split; [by apply A1|done].
  - by exists sc1, msgs, msgs.
  - by eexists sc1, _, _.
  - exists sc1, m2, m2. split; [by apply A2|]. by split.
  - destruct (decide (r1 = 0%nat)) as [->|N1],
      (decide (r2 = 0%nat)) as [->|N2]; try done.
    + destruct G2 as [_ [x Hx]]. congruence.
    + destruct G1 as [_ [x Hx]]. congruence.
    + destruct G1 as [-> _], G2 as [-> _]. by exists sc, msgs, msgs.
Qed.

Lemma exec_equiv r net net2 net' :
  net_equiv net net2 → exec r net = Some net' →
  ∃ net2', exec r net2 = Some net2' ∧ net_equiv net' net2'.
Proof.
  destruct net as [nds msgs sc], net2 as [nds2 msgs2 sc2].
  intros (Hn & Hs & Ht); simpl in *; subst nds2 sc2. unfold exec; simpl.
  destruct (nds !! r) as [[[|a rest] b o]|]; try done.
  destruct (effect r (length nds) a b o sc msgs)
    as [[[[b' o'] sc'] msgs']|] eqn:Heff; [|done].
  intros [= <-].
  destruct (effect_same_traffic _ _ _ _ _ _ _ _ _ _ _ _ Ht Heff)
    as (msgs2' & -> & Ht').
  eexists. split; [done|]. by split; [|split].
Qed.

Lemma exec_diamond r1 r2 net net1 net2 :
  r1 ≠ r2 → exec r1 net = Some net1 → exec r2 net = Some net2 →
  ∃ net12 net21,
    exec r2 net1 = Some net12 ∧ exec r1 net2 = Some net21 ∧
    net_equiv net12 net21.
Proof.
  destruct net as [nds msgs sc]. intros Hne. unfold exec; simpl.
  destruct (nds !! r1) as [[[|a1 rest1] b1 o1]|] eqn:L1; try done.
  destruct (effect r1 (length nds) a1 b1 o1 sc msgs)
    as [[[[b1' o1'] sc1] m1]|] eqn:E1; [|done].
  intros [= <-].
  destruct (nds !! r2) as [[[|a2 rest2] b2 o2]|] eqn:L2; try done.
  destruct (effect r2 (length nds) a2 b2 o2 sc msgs)
    as [[[[b2' o2'] sc2] m2]|] eqn:E2; [|done].
  intros [= <-]. simpl.
  rewrite !length_insert, !list_lookup_insert_ne, L1, L2 by done.
  destruct (effect_diamond _ _ _ _ _ _ _ _ _ _ _ _ _ _ _ _ _ _ _ Hne E1 E2)
    as (sc' & m12 & m21 & -> & -> & Hsame).
  eexists _, _. split; [done|]. split; [done|].
  split; [by apply list_insert_insert_ne|]. by split.
Qed.

Lemma terminal_equiv net net2 :
  net_equiv net net2 → terminal net → terminal net2.
Proof.
  intros Heq Hterm r. destruct (exec r net2) as [net2'|] eqn:Hex; [|done].
  symmetry in Heq. destruct (exec_equiv _ _ _ _ Heq Hex) as (x & Hx & _).
  by rewrite Hterm in Hx.
Qed.

Lemma nsteps_equiv n net net2 net' :
  net_equiv net net2 → nsteps step n net net' →
  ∃ net2', nsteps step n net2 net2' ∧ net_equiv net' net2'.
Proof.
  intros Heq Hsteps. revert net2 Heq.
  induction Hsteps as [net|n net mid net' [r Hex] _ IH]; intros net2 Heq.
  - exists net2. split; [constructor|done].
  - destruct (exec_equiv _ _ _ _ Heq Hex) as (mid2 & Hex2 & Hmid).
    destruct (IH _ Hmid) as (net2' & Hsteps2 & Hfin).
    exists net2'. split; [|done]. econstructor; [by exists r|done].
Qed.

(** A run that ends after [n] operations: any other run from the same
    state has performed at most [n] operations, and ends with the missing
    ones, in the same state. *)
Lemma runs_join n :
  ∀ net t, nsteps step n net t → terminal t →
  ∀ net2 u m, net_equiv net net2 → nsteps step m net2 u →
    (m ≤ n)%nat ∧ ∃ t', nsteps step (n - m) u t' ∧ net_equiv t t'.
Proof.
  induction n as [|n IH]; intros net t Hrun Hterm net2 u m Heq Hother.
  - inversion Hrun; subst.
    destruct Hother as [net2|m net2 mid u [r Hex] _].
    + split; [done|]. exists net2. split; [constructor|done].
    + pose proof (terminal_equiv _ _ Heq Hterm r) as Hstuck. congruence.
  - inversion Hrun as [|? ? net1 ? [r1 Hex1] Hrest]; subst.
    destruct Hother as [net2|m net2 mid u [r2 Hex2] Hother].
    + split; [lia|]. replace (S n - 0)%nat with (S n) by lia.
      by apply (nsteps_equiv _ net).
    + assert (Hback : net_equiv net2 net) by done.
      destruct (exec_equiv _ _ _ _ Hback Hex2) as (netb & Hexb & Hmid).
      destruct (decide (r1 = r2)) as [->|Hne].
      * assert (netb = net1) as -> by congruence.
        destruct (IH _ _ Hrest Hterm mid u m) as [Hle Hjoin];
          [done|done|]. split; [lia|done].
      * destruct (exec_diamond _ _ _ _ _ Hne Hex1 Hexb)
          as (n12 & n21 & Hex12 & Hex21 & Hsq).
        destruct (IH _ _ Hrest Hterm net1 n12 1%nat) as [Hle1 Hjoin1];
          [done|by apply nsteps_once; exists r2|].
        destruct Hjoin1 as (t1 & Hrun1 & Ht1).
        destruct (nsteps_equiv _ _ _ _ Hsq Hrun1) as (t2 & Hrun2 & Ht2).
        assert (Hrunb : nsteps step n netb t2).
        { replace n with (S (n - 1)) by lia.
          econstructor; [by exists r1|done]. }
        assert (Hterm2 : terminal t2).
        { eapply terminal_equiv; [|done]. by etrans. }
        destruct (IH _ _ Hrunb Hterm2 mid u m) as [Hle Hjoin];
          [done|done|]. split; [lia|].
        destruct Hjoin as (t' & Hrun' & Ht'). exists t'.
        split; [done|]. etrans; [done|]. by etrans.
Qed.

(** Whatever the interleaving, a state from which a run ends is never
    left: every state reached from it can still reach an end state, and
    all end states have the same ranks. *)
Theorem runs_agree net t u :
  reachable net t → terminal t → reachable net u →
  ∃ t', reachable u t' ∧ net_equiv t t' ∧ (terminal u → u = t').
Proof.
  intros [n Hrun]%rtc_nsteps_1 Hterm [m Hother]%rtc_nsteps_1.
  destruct (runs_join n _ _ Hrun Hterm net u m) as [Hle Hjoin];
    [done|done|].
  destruct Hjoin as (t' & Hrun' & Ht'). exists t'.
  split; [by eapply rtc_nsteps_2|]. split; [done|].
  intros Hstuck. inversion Hrun' as [|? ? mid ? [r Hex] _]; subst; [done|].
  by rewrite Hstuck in Hex.
Qed.

Lemma finished_terminal net : finished net = true → terminal net.
Proof.
  unfold finished, terminal, exec. intros Hfin r.
  destruct (nodes net !! r) as [[[|a rest] b o]|] eqn:Hr; try done.
  rewrite forallb_forall in Hfin.
  apply list_elem_of_lookup_2, list_elem_of_In, Hfin in Hr. done.
Qed.

End diamond.
(** ** The run of main *)

Section main_run.

Lemma equiv_finished net net2 :
  net_equiv net net2 → finished net = true → finished net2 = true.
Proof. intros (Hn & _). unfold finished. by rewrite Hn. Qed.

Lemma equiv_displayed r net net2 :
  net_equiv net net2 → displayed r net = displayed r net2.
Proof. intros (Hn & _). unfold displayed. by rewrite Hn. Qed.

(** C1.  With 9 processes the sequence length is 16 and rank 0 takes the
    fixed sequence.  Whatever the other buffers hold initially, the run of
    all ranks (pairwise compare-exchange, then regrouping and merging for
    the widths 4, 8 and 16) ends under the fair schedule, and rank 0
    displays 1, 2, .., 16, once.  The same holds for every other
    interleaving of the ranks: from any state the run can reach, it can
    still end with all ranks finished and that display, and it cannot
    stop in any other way. *)
Theorem main_sorts_fixed_sequence (junk : nat → nat → Z) :
  main_n 9 = 16 ∧
  A16 = [10; 6; 14; 11; 9; 16; 3; 13; 8; 12; 5; 2; 4; 15; 1; 7] ∧
  main_output 60 9 A16 junk =
    Some [[1; 2; 3; 4; 5; 6; 7; 8; 9; 10; 11; 12; 13; 14; 15; 16]] ∧
  ∃ progs,
    main_progs 9 = Some progs ∧
    ∀ net, reachable (start progs A16 junk) net →
      (∃ net', reachable net net' ∧ finished net' = true ∧
               displayed 0 net' =
                 [[1; 2; 3; 4; 5; 6; 7; 8; 9; 10; 11; 12; 13; 14; 15; 16]]) ∧
      (terminal net →
       finished net = true ∧
       displayed 0 net =
         [[1; 2; 3; 4; 5; 6; 7; 8; 9; 10; 11; 12; 13; 14; 15; 16]]).
Proof.
  assert (Hout : main_output 60 9 A16 junk =
            Some [[1; 2; 3; 4; 5; 6; 7; 8; 9; 10; 11; 12; 13; 14; 15; 16]])
    by (vm_compute; reflexivity).
  split; [reflexivity|]. split; [reflexivity|]. split; [done|].
  unfold main_output in Hout.
  destruct (main_progs 9) as [progs|] eqn:Hprogs; [|done].
  exists progs. split; [done|]. cbn [mbind option_bind] in Hout.
  destruct (run 60 (start progs A16 junk)) as [netf|] eqn:Hrun; [|done].
  cbn [mbind option_bind] in Hout. injection Hout as Hout.
  apply run_reachable in Hrun as [Hreach Hfin].
  intros net Hnet.
  destruct (runs_agree _ _ _ Hreach (finished_terminal _ Hfin) Hnet)
    as (t' & Hreach' & Heq & Hstuck).
  assert (finished t' = true ∧
          displayed 0 t' =
            [[1; 2; 3; 4; 5; 6; 7; 8; 9; 10; 11; 12; 13; 14; 15; 16]])
    as [Hfin' Hout'].
  { split; [by eapply equiv_finished|].
    by rewrite <-(equiv_displayed _ _ _ Heq). }
  split; [by exists t'|]. intros Hterm. by rewrite (Hstuck Hterm).
Qed.

End main_run.
(** ** compareSwap on bitonic sequences *)

Section sequences.

Implicit Types (s l : list Z) (asc : bool).

Lemma cells_S q : cells (S q) = (cells q + cells q)%nat.
Proof. unfold cells. rewrite pow2_S. pose proof (pow2_pos q). lia. Qed.

Lemma cells_Z q : Z.of_nat (cells q) = 2 ^ Z.of_nat q.
Proof. unfold cells. pose proof (pow2_pos q). lia. Qed.

Lemma cells_pos q : (0 < cells q)%nat.
Proof. unfold cells. pose proof (pow2_pos q). lia. Qed.

Lemma quot_double (m : nat) : Z.of_nat (m + m) `quot` 2 = Z.of_nat m.
Proof.
  replace (Z.of_nat (m + m)) with (Z.of_nat m * 2) by lia.
  apply Z.quot_mul. lia.
Qed.

(** Every cell after the call: the pairs hold their minimum and their
    maximum, placed by the direction. *)
Lemma compareSwap_cells s n asc j :
  (Z.to_nat n ≤ length s)%nat →
  let half := Z.to_nat (n `quot` 2) in
  compareSwap s n asc !!! j =
    if decide (j < half)%nat then
      (if asc then Z.min else Z.max) (s !!! j) (s !!! (j + half)%nat)
    else if decide (j < half + half)%nat then
      (if asc then Z.max else Z.min) (s !!! (j - half)%nat) (s !!! j)
    else s !!! j.
Proof.
  intros Hn half. rewrite compareSwap_value by done. fold half.
  unfold cs_value, swapTest.
  destruct (decide (j < half)%nat).
  - destruct asc, (Z.ltb_spec (s !!! j) (s !!! (j + half)%nat)); simpl; lia.
  - destruct (decide (j < half + half)%nat).
    + rewrite decide_True by lia.
      destruct asc, (Z.ltb_spec (s !!! (j - half)%nat) (s !!! j)); simpl; lia.
    + by rewrite decide_False by lia.
Qed.

Lemma fmap_cell (f : Z → Z) l i :
  (i < length l)%nat → (f <$> l) !!! i = f (l !!! i).
Proof. apply list_lookup_total_fmap. Qed.

Lemma compareSwap_fmap (f : Z → Z) s n asc :
  (∀ x y, x ≤ y → f x ≤ f y) →
  (Z.to_nat n ≤ length s)%nat →
  compareSwap (f <$> s) n asc = f <$> compareSwap s n asc.
Proof.
  intros Hmono Hn. pose proof (half_bound n (length s) Hn) as Hhalf.
  apply (list_eq_same_length _ _ (length s)).
  { by rewrite length_fmap, compareSwap_length. }
  { by rewrite compareSwap_length, length_fmap. }
  intros j x y Hj Hx Hy.
  apply list_lookup_total_correct in Hx, Hy. subst x y.
  rewrite fmap_cell by (by rewrite compareSwap_length).
  rewrite !compareSwap_cells by (by rewrite ?length_fmap).
  assert (Hmin : ∀ a b, f (Z.min a b) = Z.min (f a) (f b)).
  { intros a b. destruct (Z.le_gt_cases a b) as [Hab|Hab].
    - pose proof (Hmono a b Hab). rewrite (Z.min_l a b) by done. lia.
    - pose proof (Hmono b a ltac:(lia)). rewrite (Z.min_r a b) by lia. lia. }
  assert (Hmax : ∀ a b, f (Z.max a b) = Z.max (f a) (f b)).
  { intros a b. destruct (Z.le_gt_cases a b) as [Hab|Hab].
    - pose proof (Hmono a b Hab). rewrite (Z.max_r a b) by done. lia.
    - pose proof (Hmono b a ltac:(lia)). rewrite (Z.max_l a b) by lia. lia. }
  repeat case_decide; rewrite ?fmap_cell by lia;
    destruct asc; by rewrite ?Hmin, ?Hmax.
Qed.

(** *** Sequences of zeros and ones *)

Lemma threshold_mono t x y : x ≤ y → threshold t x ≤ threshold t y.
Proof. unfold threshold. intros. repeat case_bool_decide; lia. Qed.

Local Ltac band_cell Hf m :=
  let i := fresh "i" in
  let Hi := fresh "Hi" in
  intros i Hi; rewrite (Hf i), (Hf (i + m)%nat) by lia;
  repeat case_bool_decide; lia.

Local Ltac band_with Hf m lo hi v :=
  exists lo, hi, v; split; [auto|split; [lia|band_cell Hf m]].

(** Compare-exchange of the two halves of a band: the minima form a band,
    the maxima form a band, and the minima are all zero or the maxima all
    one. *)
Lemma band_split (m : nat) (f : nat → Z) :
  band (m + m) f →
  band m (fun i => Z.min (f i) (f (i + m)%nat)) ∧
  band m (fun i => Z.max (f i) (f (i + m)%nat)) ∧
  ((∀ i, (i < m)%nat → Z.min (f i) (f (i + m)%nat) = 0) ∨
   (∀ i, (i < m)%nat → Z.max (f i) (f (i + m)%nat) = 1)).
Proof.
  intros (lo & hi & v & Hv & Hb & Hf).
  destruct (decide (hi ≤ m)%nat) as [A|A];
    [|destruct (decide (m ≤ lo)%nat) as [B|B];
      [|destruct (decide (hi - m ≤ lo)%nat) as [C|C]]];
    destruct Hv as [-> | ->].
  - split; [band_with Hf m lo hi 0|]. split; [band_with Hf m 0%nat 0%nat 0|].
    right. band_cell Hf m.
  - split; [band_with Hf m 0%nat 0%nat 1|]. split; [band_with Hf m lo hi 1|].
    left. band_cell Hf m.
  - split; [band_with Hf m (lo - m)%nat (hi - m)%nat 0|].
    split; [band_with Hf m 0%nat 0%nat 0|]. right. band_cell Hf m.
  - split; [band_with Hf m 0%nat 0%nat 1|].
    split; [band_with Hf m (lo - m)%nat (hi - m)%nat 1|].
    left. band_cell Hf m.
  - split; [band_with Hf m (hi - m)%nat lo 1|].
    split; [band_with Hf m 0%nat 0%nat 0|]. right. band_cell Hf m.
  - split; [band_with Hf m 0%nat 0%nat 1|].
    split; [band_with Hf m (hi - m)%nat lo 0|]. left. band_cell Hf m.
  - split; [band_with Hf m 0%nat m 0|].
    split; [band_with Hf m lo (hi - m)%nat 0|]. left. band_cell Hf m.
  - split; [band_with Hf m lo (hi - m)%nat 1|].
    split; [band_with Hf m 0%nat m 1|]. right. band_cell Hf m.
Qed.

Lemma band_ext (n : nat) (f g : nat → Z) :
  (∀ i, (i < n)%nat → f i = g i) → band n f → band n g.
Proof.
  intros Hfg (lo & hi & v & Hv & Hb & Hf). exists lo, hi, v.
  split; [done|]. split; [done|]. intros i Hi. rewrite <-Hfg by done. auto.
Qed.

Lemma banded_01 l x : banded l → x ∈ l → x = 0 ∨ x = 1.
Proof.
  intros (lo & hi & v & Hv & Hb & Hf) (i & Hi & <-)%list_elem_of_lookup_total.
  rewrite Hf by done. case_bool_decide; lia.
Qed.

Lemma compareSwap_banded s (m : nat) asc :
  length s = (m + m)%nat → banded s →
  let out := compareSwap s (Z.of_nat (m + m)) asc in
  banded (take m out) ∧ banded (drop m out) ∧
  ((∀ i, (i < m)%nat → out !!! i = if asc then 0 else 1) ∨
   (∀ i, (i < m)%nat → out !!! (m + i)%nat = if asc then 1 else 0)).
Proof.
  intros Hlen Hband out. unfold banded in Hband. rewrite Hlen in Hband.
  destruct (band_split _ _ Hband) as (Hmin & Hmax & Hone).
  assert (Hout : length out = (m + m)%nat)
    by (unfold out; by rewrite compareSwap_length).
  assert (Hlo : ∀ i, (i < m)%nat →
            out !!! i =
            (if asc then Z.min else Z.max) (s !!! i) (s !!! (i + m)%nat)).
  { intros i Hi. unfold out. rewrite compareSwap_cells by lia.
    rewrite quot_double, Nat2Z.id. by rewrite decide_True by done. }
  assert (Hhi : ∀ i, (i < m)%nat →
            out !!! (m + i)%nat =
            (if asc then Z.max else Z.min) (s !!! i) (s !!! (i + m)%nat)).
  { intros i Hi. unfold out. rewrite compareSwap_cells by lia.
    rewrite quot_double, Nat2Z.id.
    rewrite decide_False, decide_True by lia.
    by replace (m + i - m)%nat with i by lia;
      replace (m + i)%nat with (i + m)%nat by lia. }
  unfold banded. rewrite length_take, length_drop, Hout.
  replace (m `min` (m + m))%nat with m by lia.
  replace (m + m - m)%nat with m by lia.
  split; [|split].
  - destruct asc; [eapply band_ext, Hmin|eapply band_ext, Hmax];
      intros i Hi; simpl; by rewrite lookup_total_take_lt, Hlo by done.
  - destruct asc; [eapply band_ext, Hmax|eapply band_ext, Hmin];
      intros i Hi; simpl; by rewrite lookup_total_drop, Hhi by done.
  - destruct asc.
    + destruct Hone as [Hz|Hz]; [left|right]; intros i Hi.
      * rewrite Hlo by done. auto.
      * rewrite Hhi by done. auto.
    + destruct Hone as [Hz|Hz]; [right|left]; intros i Hi.
      * rewrite Hhi by done. auto.
      * rewrite Hlo by done. auto.
Qed.

(** *** From bitonic sequences to bands *)

Lemma sorted_tail up x l : sorted up (x :: l) → sorted up l.
Proof.
  intros Hs i j Hij Hj. apply (Hs (S i) (S j)); simpl; lia.
Qed.

Lemma sorted_cut up l t :
  sorted up l →
  ∃ a, (a ≤ length l)%nat ∧
    ∀ i, (i < length l)%nat →
      (t < l !!! i ↔ if up then (a ≤ i)%nat else (i < a)%nat).
Proof.
  induction l as [|x l IH]; intros Hs.
  - exists 0%nat. split; [done|]. simpl. lia.
  - destruct (IH (sorted_tail _ _ _ Hs)) as (a & Ha & Hcut).
    assert (Hhead : ∀ i, (i < length l)%nat → ordered up x (l !!! i)).
    { intros i Hi. apply (Hs 0%nat (S i)); simpl; lia. }
    destruct (decide (t < x)) as [Hx|Hx], up; simpl in *.
    + exists 0%nat. split; [lia|]. intros [|i] Hi; simpl; [lia|].
      specialize (Hhead i ltac:(lia)). lia.
    + exists (S a). split; [lia|]. intros [|i] Hi; simpl; [lia|].
      rewrite Hcut by lia. lia.
    + exists (S a). split; [lia|]. intros [|i] Hi; simpl; [lia|].
      rewrite Hcut by lia. lia.
    + exists 0%nat. split; [lia|]. intros [|i] Hi; simpl; [lia|].
      specialize (Hhead i ltac:(lia)). lia.
Qed.

Lemma bitonic_banded l t : bitonic l → banded (threshold t <$> l).
Proof.
  intros (up & l1 & l2 & l3 & -> & Hs1 & Hs2).
  destruct (sorted_cut _ _ t Hs1) as (a1 & Ha1 & Hcut1).
  destruct (sorted_cut _ _ t Hs2) as (a2 & Ha2 & Hcut2).
  rewrite length_app in Ha1, Hcut1.
  assert (Hcell : ∀ i, (i < length (l1 ++ l2 ++ l3))%nat →
    (t < (l1 ++ l2 ++ l3) !!! i ↔
     if decide (i < length l1)%nat then
       (if up then a1 ≤ length l3 + i else length l3 + i < a1)%nat
     else if decide (i < length l1 + length l2)%nat then
       (if up then i - length l1 < a2 else a2 ≤ i - length l1)%nat
     else
       (if up then a1 ≤ i - length l1 - length l2
        else i - length l1 - length l2 < a1)%nat)).
  { intros i Hi. rewrite !length_app in Hi.
    destruct (decide (i < length l1)%nat) as [H1|H1].
    - rewrite lookup_total_app_l by done.
      specialize (Hcut1 (length l3 + i)%nat ltac:(lia)).
      rewrite lookup_total_app_r in Hcut1 by lia.
      replace (length l3 + i - length l3)%nat with i in Hcut1 by lia.
      rewrite Hcut1. by destruct up.
    - rewrite lookup_total_app_r by lia.
      destruct (decide (i < length l1 + length l2)%nat) as [H2|H2].
      + rewrite lookup_total_app_l by lia.
        specialize (Hcut2 (i - length l1)%nat ltac:(lia)).
        rewrite Hcut2. by destruct up.
      + rewrite lookup_total_app_r by lia.
        specialize (Hcut1 (i - length l1 - length l2)%nat ltac:(lia)).
        rewrite lookup_total_app_l in Hcut1 by lia.
        rewrite Hcut1. by destruct up. }
  unfold banded. rewrite length_fmap.
  assert (Hthr : ∀ i, (i < length (l1 ++ l2 ++ l3))%nat →
            (threshold t <$> l1 ++ l2 ++ l3) !!! i =
            if bool_decide (t < (l1 ++ l2 ++ l3) !!! i) then 1 else 0).
  { intros i Hi. by rewrite fmap_cell by done. }
  rewrite !length_app in *.
  destruct (decide (a1 ≤ length l3)%nat) as [Hin|Hout].
  - exists (length l1 + a2)%nat, (length l1 + length l2 + a1)%nat,
      (if up then 0 else 1).
    split; [destruct up; auto|]. split; [lia|]. intros i Hi.
    rewrite Hthr by done. specialize (Hcell i Hi).
    destruct up; repeat case_decide; repeat case_bool_decide; lia.
  - exists (a1 - length l3)%nat, (length l1 + a2)%nat,
      (if up then 1 else 0).
    split; [destruct up; auto|]. split; [lia|]. intros i Hi.
    rewrite Hthr by done. specialize (Hcell i Hi).
    destruct up; repeat case_decide; repeat case_bool_decide; lia.
Qed.

Lemma sorted_thresholds asc l :
  (∀ t, sorted asc (threshold t <$> l)) → sorted asc l.
Proof.
  intros Hall i j Hij Hj.
  destruct asc; simpl.
  - specialize (Hall (l !!! j) i j Hij). rewrite length_fmap in Hall.
    specialize (Hall Hj). simpl in Hall. rewrite !fmap_cell in Hall by lia.
    unfold threshold in Hall. repeat case_bool_decide; lia.
  - specialize (Hall (l !!! i) i j Hij). rewrite length_fmap in Hall.
    specialize (Hall Hj). simpl in Hall. rewrite !fmap_cell in Hall by lia.
    unfold threshold in Hall. repeat case_bool_decide; lia.
Qed.

Lemma half_of_even (n : Z) :
  0 ≤ n → Z.even n = true →
  n = Z.of_nat (Z.to_nat (n `quot` 2) + Z.to_nat (n `quot` 2)).
Proof.
  intros Hn [k ->]%Z.even_spec.
  replace (2 * k) with (k * 2) by lia. rewrite Z.quot_mul by lia. lia.
Qed.

Lemma sorted_app asc l1 l2 :
  sorted asc l1 → sorted asc l2 →
  (∀ x y, x ∈ l1 → y ∈ l2 → ordered asc x y) →
  sorted asc (l1 ++ l2).
Proof.
  intros H1 H2 H12 i j Hij Hj. rewrite length_app in Hj.
  destruct (decide (j < length l1)%nat) as [Hl|Hl].
  - rewrite !lookup_total_app_l by lia. by apply H1.
  - rewrite (lookup_total_app_r _ _ j) by lia.
    destruct (decide (i < length l1)%nat) as [Hi|Hi].
    + rewrite lookup_total_app_l by done.
      apply H12; apply list_elem_of_lookup_total; eauto with lia.
      exists (j - length l1)%nat. split; [lia|done].
    + rewrite lookup_total_app_r by lia. apply H2; lia.
Qed.

(** *** What a merge assembles *)

Lemma spread_S q asc s :
  spread (S q) asc s =
  merge_result q asc (take (cells (S q)) s) ++
  merge_result q asc (take (cells (S q)) (drop (cells (S q)) s)).
Proof. unfold merge_result. simpl. by rewrite cells_Z. Qed.

Lemma merge_result_S q asc s :
  merge_result (S q) asc s =
  let out := compareSwap s (2 ^ Z.of_nat (S (S q))) asc in
  merge_result q asc (take (cells (S q)) out) ++
  merge_result q asc (take (cells (S q)) (drop (cells (S q)) out)).
Proof. unfold merge_result at 1. by rewrite spread_S. Qed.

Lemma merge_result_perm q asc s :
  length s = cells (S q) → merge_result q asc s ≡ₚ s.
Proof.
  revert s. induction q as [|q IH]; intros s Hlen.
  - unfold merge_result. simpl. rewrite take_ge.
    + apply compareSwap_perm. rewrite Hlen. by vm_compute.
    + rewrite compareSwap_length, Hlen. by vm_compute.
  - rewrite merge_result_S. cbv zeta.
    set (out := compareSwap s (2 ^ Z.of_nat (S (S q))) asc).
    assert (Hout : length out = (cells (S q) + cells (S q))%nat).
    { unfold out. by rewrite compareSwap_length, Hlen, cells_S. }
    rewrite !IH.
    + rewrite take_take_drop, take_ge by lia.
      apply compareSwap_perm. rewrite <-cells_Z, Nat2Z.id. lia.
    + rewrite length_take, length_drop. lia.
    + rewrite length_take. lia.
Qed.

Lemma merge_result_length q asc s :
  length s = cells (S q) → length (merge_result q asc s) = cells (S q).
Proof. intros Hlen. by rewrite merge_result_perm. Qed.

Lemma merge_result_fmap (f : Z → Z) q asc s :
  (∀ x y, x ≤ y → f x ≤ f y) → length s = cells (S q) →
  merge_result q asc (f <$> s) = f <$> merge_result q asc s.
Proof.
  intros Hmono. revert s. induction q as [|q IH]; intros s Hlen.
  - unfold merge_result. simpl. rewrite compareSwap_fmap, fmap_take; [done..|].
    rewrite Hlen. by vm_compute.
  - rewrite !merge_result_S. cbv zeta.
    rewrite compareSwap_fmap.
    + set (out := compareSwap s (2 ^ Z.of_nat (S (S q))) asc).
      assert (Hout : length out = (cells (S q) + cells (S q))%nat).
      { unfold out. by rewrite compareSwap_length, Hlen, cells_S. }
      rewrite fmap_app, <-!IH, ?fmap_take, ?fmap_drop; [done|..].
      * rewrite length_take, length_drop. lia.
      * rewrite length_take. lia.
    + done.
    + rewrite <-cells_Z, Nat2Z.id. lia.
Qed.

(** On a band a merge assembles a sorted sequence. *)
Lemma merge_result_banded q asc s :
  length s = cells (S q) → banded s → sorted asc (merge_result q asc s).
Proof.
  revert s. induction q as [|q IH]; intros s Hlen Hband.
  - unfold merge_result. simpl.
    assert (H2 : (Z.to_nat (2 ^ 1) ≤ length s)%nat)
      by (rewrite Hlen; by vm_compute).
    intros i j Hij Hj. rewrite length_take, compareSwap_length in Hj.
    rewrite !lookup_total_take_lt, !compareSwap_cells by lia.
    change (Z.to_nat (2 ^ 1 `quot` 2)) with 1%nat.
    assert (Hcells : length s = 2%nat) by (rewrite Hlen; by vm_compute).
    destruct i as [|[|i]], j as [|[|j]]; simpl; try lia;
      destruct asc; simpl; lia.
  - rewrite merge_result_S. cbv zeta.
    set (m := cells (S q)).
    assert (Hm : length s = (m + m)%nat) by (by rewrite Hlen, cells_S).
    replace (2 ^ Z.of_nat (S (S q))) with (Z.of_nat (m + m))
      by (unfold m; by rewrite <-cells_S, cells_Z).
    destruct (compareSwap_banded s m asc Hm Hband) as (Hlo & Hhi & Hone).
    set (out := compareSwap s (Z.of_nat (m + m)) asc) in *.
    assert (Hout : length out = (m + m)%nat)
      by (unfold out; by rewrite compareSwap_length).
    assert (Htail : take m (drop m out) = drop m out)
      by (apply take_ge; rewrite length_drop; lia).
    rewrite Htail.
    assert (Hl1 : length (take m out) = m) by (rewrite length_take; lia).
    assert (Hl2 : length (drop m out) = m) by (rewrite length_drop; lia).
    apply sorted_app; [by apply IH|by apply IH|].
    intros x y Hx Hy.
    rewrite merge_result_perm in Hx by done.
    rewrite merge_result_perm in Hy by done.
    pose proof (banded_01 _ _ Hlo Hx) as Hx01.
    pose proof (banded_01 _ _ Hhi Hy) as Hy01.
    apply list_elem_of_lookup_total in Hx as (i & Hi & <-).
    apply list_elem_of_lookup_total in Hy as (j & Hj & <-).
    rewrite Hl1 in Hi. rewrite Hl2 in Hj.
    rewrite lookup_total_take_lt in * by done.
    rewrite lookup_total_drop in *.
    destruct Hone as [Hz|Hz]; [rewrite Hz by done|rewrite (Hz j) by done];
      destruct asc; simpl; lia.
Qed.

(** A merge of a bitonic sequence assembles the sorted sequence of its
    elements. *)
Lemma merge_result_sorted q asc s :
  length s = cells (S q) → bitonic s →
  sorted asc (merge_result q asc s) ∧ merge_result q asc s ≡ₚ s.
Proof.
  intros Hlen Hbit. split; [|by apply merge_result_perm].
  apply sorted_thresholds. intros t.
  rewrite <-merge_result_fmap by (done || apply threshold_mono).
  apply merge_result_banded; [by rewrite length_fmap|].
  by apply bitonic_banded.
Qed.

(** compareSwap works on the first [n] cells only. *)
Lemma compareSwap_take s n asc (h : nat) :
  (Z.to_nat n ≤ h)%nat → (Z.to_nat n ≤ length s)%nat →
  take h (compareSwap s n asc) = compareSwap (take h s) n asc.
Proof.
  intros Hh Hn. pose proof (half_bound n (length s) Hn) as Hhalf.
  pose proof (half_bound n h Hh) as Hhalf'.
  apply (list_eq_same_length _ _ (h `min` length s)%nat).
  { by rewrite compareSwap_length, length_take. }
  { by rewrite length_take, compareSwap_length. }
  intros j x y Hj Hx Hy.
  apply list_lookup_total_correct in Hx, Hy. subst x y.
  rewrite lookup_total_take_lt by lia.
  rewrite !compareSwap_cells by (rewrite ?length_take; lia).
  repeat case_decide; by rewrite ?lookup_total_take_lt by lia.
Qed.

Lemma compareSwap_frame s n asc (h : nat) :
  (Z.to_nat n ≤ h)%nat → (Z.to_nat n ≤ length s)%nat →
  compareSwap s n asc = compareSwap (take h s) n asc ++ drop h s.
Proof.
  intros Hh Hn.
  rewrite <-(take_drop h (compareSwap s n asc)).
  by rewrite compareSwap_take, compareSwap_drop.
Qed.

(** X1.  Compare-exchange splits a bitonic sequence: when the first [n]
    cells ([n] even) form a bitonic sequence, then after the call every
    element of the first half is in order, for the direction, with every
    element of the second half; for the ascending direction no element of
    the first half exceeds any element of the second half. *)
Theorem compareSwap_splits_bitonic (s : buffer) (n : Z) (ascending : bool) :
  0 ≤ n → Z.even n = true → (Z.to_nat n ≤ length s)%nat →
  bitonic (take (Z.to_nat n) s) →
  let half := Z.to_nat (n `quot` 2) in
  let out := compareSwap s n ascending in
  ∀ i j, (i < half)%nat → (j < half)%nat →
    ordered ascending (out !!! i) (out !!! (half + j)%nat).
Proof.
  intros Hn Heven Hlen Hbit half out i j Hi Hj.
  pose proof (half_of_even n Hn Heven) as Hnm. fold half in Hnm.
  set (s' := take (Z.to_nat n) s) in *.
  assert (Hs' : length s' = (half + half)%nat)
    by (unfold s'; rewrite length_take; lia).
  set (out' := compareSwap s' n ascending).
  assert (Hout : ∀ x, (x < half + half)%nat → out !!! x = out' !!! x).
  { intros x Hx. unfold out', s'. rewrite <-compareSwap_take by lia.
    rewrite lookup_total_take_lt by lia. done. }
  rewrite !Hout by lia.
  assert (Hlen' : length out' = (half + half)%nat)
    by (unfold out'; by rewrite compareSwap_length).
  assert (Hsplit : ∀ t,
    (∀ x, (x < half)%nat →
       threshold t (out' !!! x) = if ascending then 0 else 1) ∨
    (∀ x, (x < half)%nat →
       threshold t (out' !!! (half + x)%nat) = if ascending then 1 else 0)).
  { intros t.
    destruct (compareSwap_banded (threshold t <$> s') half ascending)
      as (_ & _ & Hone).
    { by rewrite length_fmap. }
    { by apply bitonic_banded. }
    rewrite <-Hnm in Hone.
    rewrite compareSwap_fmap in Hone by (apply threshold_mono || lia).
    fold out' in Hone.
    destruct Hone as [Hz|Hz]; [left|right]; intros x Hx;
      rewrite <-(Hz x Hx), fmap_cell by lia; done. }
  destruct ascending; simpl.
  - destruct (Hsplit (out' !!! (half + j)%nat)) as [Hz|Hz].
    + specialize (Hz i Hi). unfold threshold in Hz.
      case_bool_decide; [done|lia].
    + specialize (Hz j Hj). unfold threshold in Hz.
      case_bool_decide; [lia|done].
  - destruct (Hsplit (out' !!! i)) as [Hz|Hz].
    + specialize (Hz i Hi). unfold threshold in Hz.
      case_bool_decide; [lia|done].
    + specialize (Hz j Hj). unfold threshold in Hz.
      case_bool_decide; [done|lia].
Qed.

End sequences.

Section sequences_examples.

Lemma compareSwap_splits_bitonic_witness :
  ordered true (compareSwap [1; 4; 3; 2] 4 true !!! 0%nat)
               (compareSwap [1; 4; 3; 2] 4 true !!! (2 + 1)%nat).
Proof.
  apply (compareSwap_splits_bitonic [1; 4; 3; 2] 4 true).
  - lia.
  - reflexivity.
  - simpl. lia.
  - exists true, [1; 4], [3; 2], []. split; [reflexivity|].
    split; intros [|[|i]] [|[|j]] Hij Hj; simpl in *; lia.
  - vm_compute. lia.
  - vm_compute. lia.
Defined.

End sequences_examples.
(** ** Runs of a group of ranks *)

Section runs.

Implicit Types (net : network) (group : nat → Prop).

Lemma exec_compareSwap net r n asc rest b o :
  nodes net !! r = Some (Node (CompareSwap n asc :: rest) b o) →
  (Z.to_nat n ≤ length b)%nat →
  exec r net =
  Some (Network (<[r := Node rest (compareSwap b n asc) o]> (nodes net))
          (inflight net) (scattered net)).
Proof.
  intros Hr Hn. unfold exec. rewrite Hr. simpl.
  by rewrite bool_decide_true by done.
Qed.

Lemma exec_send net r off count dest rest b o :
  nodes net !! r = Some (Node (Send off count dest :: rest) b o) →
  0 ≤ off → 0 ≤ count →
  (Z.to_nat off + Z.to_nat count ≤ length b)%nat →
  0 ≤ dest < Z.of_nat (length (nodes net)) →
  exec r net =
  Some (Network (<[r := Node rest b o]> (nodes net))
          (inflight net ++ [(r, Z.to_nat dest, slice off count b)])
          (scattered net)).
Proof.
  intros Hr Hoff Hcount Hfit Hdest. unfold exec. rewrite Hr. simpl.
  by rewrite bool_decide_true by done.
Qed.

Lemma exec_recv net r off count source rest b o payload msgs' :
  nodes net !! r = Some (Node (Recv off count source :: rest) b o) →
  0 ≤ off → 0 ≤ count → 0 ≤ source →
  take_msg (Z.to_nat source) r (inflight net) = Some (payload, msgs') →
  (length payload ≤ Z.to_nat count)%nat →
  (Z.to_nat off + length payload ≤ length b)%nat →
  exec r net =
  Some (Network (<[r := Node rest (store off payload b) o]> (nodes net))
          msgs' (scattered net)).
Proof.
  intros Hr Hoff Hcount Hsrc Htake Hlen Hfit. unfold exec. rewrite Hr. simpl.
  rewrite bool_decide_true by done. rewrite Htake.
  by rewrite bool_decide_true by done.
Qed.

Lemma store_length off data b : length (store off data b) = length b.
Proof. apply length_inserts. Qed.

Lemma moves_refl group net : inflight net = [] → moves group net net.
Proof.
  intros Hin. split; [done|]. split; [done|]. split; [done|].
  split; [done|]. eauto.
Qed.

Lemma moves_trans g1 g2 net1 net2 net3 :
  moves g1 net1 net2 → moves g2 net2 net3 →
  moves (fun r => g1 r ∨ g2 r) net1 net3.
Proof.
  intros (R1 & I1 & I1' & O1 & K1) (R2 & I2 & I2' & O2 & K2).
  split; [by etrans|]. split; [done|]. split; [done|]. split.
  - intros r Hr. rewrite O2, O1; [done|tauto|tauto].
  - intros r nd Hnd. destruct (K1 _ _ Hnd) as (nd1 & Hnd1 & L1 & U1).
    destruct (K2 _ _ Hnd1) as (nd2 & Hnd2 & L2 & U2).
    exists nd2. split; [done|]. split; congruence.
Qed.

Lemma moves_weaken (g g' : nat → Prop) net net' :
  (∀ r, g r → g' r) → moves g net net' → moves g' net net'.
Proof.
  intros Hsub (R1 & I1 & I1' & O1 & K1).
  split; [done|]. split; [done|]. split; [done|].
  split; [|done]. intros r Hr. apply O1. auto.
Qed.

Lemma moves_length group net net' :
  moves group net net' → length (nodes net') = length (nodes net).
Proof. intros (R1 & _). by apply reachable_length. Qed.

Lemma moves_compareSwap net r n asc rest b o :
  inflight net = [] →
  nodes net !! r = Some (Node (CompareSwap n asc :: rest) b o) →
  (Z.to_nat n ≤ length b)%nat →
  ∃ net', moves (eq r) net net' ∧
          nodes net' !! r = Some (Node rest (compareSwap b n asc) o).
Proof.
  intros Hin Hr Hn. pose proof (lookup_lt_Some _ _ _ Hr) as Hlt.
  exists (Network (<[r := Node rest (compareSwap b n asc) o]> (nodes net))
            (inflight net) (scattered net)).
  split; [|apply list_lookup_insert_eq, Hlt].
  split; [apply rtc_once; exists r; by apply exec_compareSwap|].
  split; [done|]. split; [done|]. simpl. split.
  - intros r0 Hr0. by apply list_lookup_insert_ne.
  - intros r0 nd Hnd. destruct (decide (r0 = r)) as [->|Hne].
    + rewrite list_lookup_insert_eq by done. eexists. split; [done|].
      simplify_eq. simpl. by rewrite compareSwap_length.
    + rewrite list_lookup_insert_ne by done. eauto.
Qed.

(** A rank sends a block to another rank, which receives it. *)
Lemma moves_exchange net r1 r2 off1 count dest rest1 b1 o1
    off2 source rest2 b2 o2 :
  inflight net = [] → r1 ≠ r2 →
  nodes net !! r1 = Some (Node (Send off1 count dest :: rest1) b1 o1) →
  nodes net !! r2 = Some (Node (Recv off2 count source :: rest2) b2 o2) →
  dest = Z.of_nat r2 → source = Z.of_nat r1 →
  0 ≤ off1 → 0 ≤ count → 0 ≤ off2 →
  (Z.to_nat off1 + Z.to_nat count ≤ length b1)%nat →
  (Z.to_nat off2 + Z.to_nat count ≤ length b2)%nat →
  ∃ net', moves (fun r => r = r1 ∨ r = r2) net net' ∧
          nodes net' !! r1 = Some (Node rest1 b1 o1) ∧
          nodes net' !! r2 =
            Some (Node rest2 (store off2 (slice off1 count b1) b2) o2).
Proof.
  intros Hin Hne Hr1 Hr2 -> -> Hoff1 Hcount Hoff2 Hfit1 Hfit2.
  pose proof (lookup_lt_Some _ _ _ Hr1) as Hlt1.
  pose proof (lookup_lt_Some _ _ _ Hr2) as Hlt2.
  pose proof (slice_length off1 count b1 Hfit1) as Hslice.
  set (net1 := Network (<[r1 := Node rest1 b1 o1]> (nodes net))
                 (inflight net ++ [(r1, Z.to_nat (Z.of_nat r2),
                                    slice off1 count b1)])
                 (scattered net)).
  assert (H1 : exec r1 net = Some net1) by (apply exec_send; lia || done).
  set (net2 := Network
                 (<[r2 := Node rest2 (store off2 (slice off1 count b1) b2) o2]>
                    (nodes net1)) [] (scattered net1)).
  assert (H2 : exec r2 net1 = Some net2).
  { apply (exec_recv net1 r2 off2 count (Z.of_nat r1) rest2 b2 o2); try lia.
    - simpl. by rewrite list_lookup_insert_ne.
    - simpl. rewrite Hin, !Nat2Z.id. simpl.
      by rewrite bool_decide_true by done. }
  exists net2. split; [|split].
  - split; [|split; [done|split; [done|split]]].
    + eapply rtc_l; [by exists r1|]. apply rtc_once. by exists r2.
    + intros r Hr. simpl. rewrite !list_lookup_insert_ne; [done|intros ->; tauto..].
    + intros r nd Hnd. simpl.
      destruct (decide (r = r2)) as [->|N2].
      * rewrite list_lookup_insert_eq by (by rewrite length_insert).
        eexists. split; [done|]. simplify_eq. simpl.
        by rewrite store_length.
      * rewrite list_lookup_insert_ne by done.
        destruct (decide (r = r1)) as [->|N1].
        -- rewrite list_lookup_insert_eq by done.
           eexists. split; [done|]. by simplify_eq.
        -- rewrite list_lookup_insert_ne by done. eauto.
  - simpl. rewrite list_lookup_insert_ne by done.
    by apply list_lookup_insert_eq.
  - simpl. apply list_lookup_insert_eq. by rewrite length_insert.
Qed.

End runs.

(** ** The run of one merge *)

Section one_merge.

Context (P M : nat) (asc : bool).

(** The round of half-width [2^(q+1)] for the rank at distance
    [d = j·2^(q+1) + e] from the sub-coordinator. *)
Lemma round_ops_cases (q j e d : nat) :
  (q < P)%nat → (d < cells P)%nat →
  d = (j * cells (S q) + e)%nat → (e < cells (S q))%nat →
  round_ops (2 ^ Z.of_nat (S P)) (Z.of_nat M) (Z.of_nat (M + d)) asc (2 ^ Z.of_nat (S q)) =
  if decide (e = 0%nat) then
    [Send (2 ^ Z.of_nat (S q)) (2 ^ Z.of_nat (S q))
       (Z.of_nat (M + d + cells q));
     CompareSwap (2 ^ Z.of_nat (S q)) asc]
  else if decide (e = cells q) then
    [Recv 0 (2 ^ Z.of_nat (S q)) (Z.of_nat (M + d - cells q));
     CompareSwap (2 ^ Z.of_nat (S q)) asc]
  else [].
Proof.
  intros Hq Hd Hje He. unfold round_ops, sends_in_round, receives_in_round.
  rewrite !pow2_quot.
  pose proof (cells_Z P) as HP. pose proof (cells_Z q) as Hcq.
  pose proof (cells_Z (S q)) as HcS. pose proof (cells_S q) as HS.
  assert (Hmod : (Z.of_nat (M + d) - Z.of_nat M) `mod` 2 ^ Z.of_nat (S q) =
                 Z.of_nat e).
  { symmetry. apply (Z.mod_unique_pos _ _ (Z.of_nat j)); [lia|].
    rewrite <-HcS. lia. }
  rewrite Hmod.
  destruct (decide (e = 0%nat)) as [->|He0].
  - rewrite bool_decide_true by lia. do 3 f_equal. lia.
  - rewrite bool_decide_false by lia.
    destruct (decide (e = cells q)) as [->|Hec].
    + rewrite bool_decide_true by lia. do 3 f_equal. lia.
    + by rewrite bool_decide_false by lia.
Qed.

Lemma rounds_from_S (q d : nat) :
  rounds_from P M asc (S q) d =
  round_ops (2 ^ Z.of_nat (S P)) (Z.of_nat M) (Z.of_nat (M + d)) asc
    (2 ^ Z.of_nat (S q)) ++
  rounds_from P M asc q d.
Proof. done. Qed.

Lemma spread_length q s :
  (cells (S q) ≤ length s)%nat → length (spread q asc s) = cells (S q).
Proof.
  revert s. induction q as [|q IH]; intros s Hlen.
  - simpl. rewrite length_take. change (cells 1) with 2%nat in *. lia.
  - cbn [spread]. rewrite cells_S in Hlen.
    rewrite length_app, !IH, <-cells_S; [done|..].
    + rewrite compareSwap_length, length_take, length_drop. lia.
    + rewrite compareSwap_length, length_take. lia.
Qed.

Lemma take2_drop_app_l (e : nat) (l1 l2 : list Z) :
  (2 * e + 2 ≤ length l1)%nat →
  take 2 (drop (2 * e) (l1 ++ l2)) = take 2 (drop (2 * e) l1).
Proof.
  intros He. rewrite drop_app, take_app.
  rewrite length_drop.
  replace (2 - (length l1 - 2 * e))%nat with 0%nat by lia.
  by rewrite take_0, app_nil_r.
Qed.

Lemma take2_drop_app_r (e : nat) (l1 l2 : list Z) :
  take 2 (drop (length l1 + 2 * e) (l1 ++ l2)) = take 2 (drop (2 * e) l2).
Proof.
  rewrite drop_app. rewrite drop_ge by lia. simpl. do 2 f_equal. lia.
Qed.

(** The rounds, from a block of [2^(q+1)] elements held by the rank at
    distance [j·2^q] down to the pairs: all messages are received, and
    each rank of that part of the group ends with its pair. *)
Lemma spread_run (tails : nat → list action) (q : nat) :
  ∀ (j : nat) net s,
  (q ≤ P)%nat → (j * cells q + cells q ≤ cells P)%nat →
  inflight net = [] →
  (M + cells P ≤ length (nodes net))%nat →
  (∀ e, (e < cells q)%nat → ∃ b o,
     nodes net !! (M + (j * cells q + e))%nat =
       Some (Node (rounds_from P M asc q (j * cells q + e) ++
                   tails (j * cells q + e)%nat) b o) ∧
     (cells (S q) ≤ length b)%nat ∧
     (e = 0%nat → take (cells (S q)) b = s)) →
  ∃ net',
    moves (fun r => M + j * cells q ≤ r < M + j * cells q + cells q)%nat
      net net' ∧
    ∀ e, (e < cells q)%nat → ∃ b' o',
      nodes net' !! (M + (j * cells q + e))%nat =
        Some (Node (tails (j * cells q + e)%nat) b' o') ∧
      take 2 b' = take 2 (drop (2 * e) (spread q asc s)).
Proof.
  induction q as [|q IH]; intros j net s Hq Hrange Hin Hranks Hnodes.
  - change (cells 0) with 1%nat in *. exists net.
    split; [by apply moves_refl|]. intros e He.
    assert (e = 0%nat) as -> by lia.
    destruct (Hnodes 0%nat He) as (b & o & Hr & Hlen & Hs).
    exists b, o. split; [done|]. simpl. rewrite <-(Hs eq_refl).
    change (cells 1) with 2%nat. by rewrite drop_0, !take_take.
  - pose proof (cells_S q) as Hm. pose proof (cells_pos q) as Hpos.
    pose proof (cells_S (S q)) as Hmm.
    set (m := cells (S q)) in *. set (hm := cells q) in *.
    set (a := (j * m)%nat) in *.
    destruct (Hnodes 0%nat ltac:(lia)) as (b1 & o1 & Hr1 & Hlen1 & Hs1).
    specialize (Hs1 eq_refl).
    destruct (Hnodes hm ltac:(lia)) as (b2 & o2 & Hr2 & Hlen2 & _).
    rewrite rounds_from_S in Hr1, Hr2.
    rewrite (round_ops_cases q j 0%nat) in Hr1 by (done || lia).
    rewrite (round_ops_cases q j hm) in Hr2 by (done || lia).
    rewrite decide_True in Hr1 by done.
    rewrite decide_False, decide_True in Hr2 by (done || lia).
    cbn [app] in Hr1, Hr2.
    set (mZ := 2 ^ Z.of_nat (S q)) in *.
    assert (HmZ : Z.to_nat mZ = m) by done.
    assert (HmZ0 : 0 ≤ mZ) by (pose proof (pow2_pos (S q)); unfold mZ; lia).
    set (r1 := (M + (a + 0))%nat) in *. set (r2 := (M + (a + hm))%nat) in *.
    (* the upper half goes to the second leader *)
    assert (Hne : r1 ≠ r2) by (unfold r1, r2; lia).
    assert (Hto : Z.of_nat (r1 + cells q) = Z.of_nat r2)
      by (unfold r1, r2; fold hm; lia).
    assert (Hfrom : Z.of_nat (r2 - cells q) = Z.of_nat r1)
      by (unfold r1, r2; fold hm; lia).
    destruct (moves_exchange net r1 r2 _ _ _ _ _ _ _ _ _ _ _ Hin Hne Hr1 Hr2
                Hto Hfrom HmZ0 HmZ0 ltac:(lia) ltac:(lia) ltac:(simpl; lia))
      as (net1 & Hmv1 & Hn1r1 & Hn1r2).
    (* both compare-swap their halves *)
    pose proof Hmv1 as (_ & _ & Hin1 & _).
    destruct (moves_compareSwap net1 r1 _ _ _ _ _ Hin1 Hn1r1 ltac:(lia))
      as (net2 & Hmv2 & Hn2r1).
    pose proof Hmv2 as (_ & _ & Hin2 & Hout2 & _).
    assert (Hn2r2 := Hn1r2). rewrite <-Hout2 in Hn2r2
      by (unfold r1, r2; lia).
    destruct (moves_compareSwap net2 r2 _ _ _ _ _ Hin2 Hn2r2
                ltac:(rewrite store_length; lia))
      as (net3 & Hmv3 & Hn3r2).
    pose proof Hmv3 as (_ & _ & Hin3 & Hout3 & _).
    assert (Hn3r1 := Hn2r1). rewrite <-Hout3 in Hn3r1
      by (unfold r1, r2; lia).
    pose proof (moves_trans _ _ _ _ _ (moves_trans _ _ _ _ _ Hmv1 Hmv2) Hmv3)
      as Hmv13.
    pose proof Hmv13 as (_ & _ & _ & Hout13 & _).
    pose proof (moves_length _ _ _ Hmv13) as Hlen13.
    set (blo := compareSwap b1 mZ asc) in *.
    set (bhi := compareSwap (store 0 (slice mZ mZ b1) b2) mZ asc) in *.
    (* the low half *)
    destruct (IH (2 * j)%nat net3 (take m blo)) as (net4 & Hmv4 & Hlow).
    { lia. }
    { fold hm. unfold a in *. lia. }
    { done. }
    { lia. }
    { fold hm m. intros e He.
      destruct (decide (e = 0%nat)) as [->|He0].
      - exists blo, o1. replace (M + (2 * j * hm + 0))%nat with r1
          by (unfold r1, a; lia).
        replace (2 * j * hm + 0)%nat with (a + 0)%nat by (unfold a; lia).
        split; [done|]. split; [|done].
        unfold blo. rewrite compareSwap_length. lia.
      - destruct (Hnodes e ltac:(lia)) as (b & o & Hr & Hlen & _).
        rewrite rounds_from_S in Hr.
        rewrite (round_ops_cases q j e) in Hr by (done || lia).
        rewrite decide_False, decide_False in Hr by lia.
        exists b, o.
        replace (2 * j * hm + e)%nat with (a + e)%nat by (unfold a; lia).
        split; [|split; [lia|done]].
        rewrite Hout13; [done|]. unfold r1, r2. lia. }
    pose proof Hmv4 as (_ & _ & Hin4 & Hout4 & _).
    pose proof (moves_length _ _ _ Hmv4) as Hlen4.
    (* the high half *)
    destruct (IH (2 * j + 1)%nat net4 (take m bhi)) as (net5 & Hmv5 & Hhigh).
    { lia. }
    { fold hm. unfold a in *. lia. }
    { done. }
    { lia. }
    { fold hm m. intros e He.
      replace (M + ((2 * j + 1) * hm + e))%nat with (M + (a + (hm + e)))%nat
        by (unfold a; lia).
      replace ((2 * j + 1) * hm + e)%nat with (a + (hm + e))%nat
        by (unfold a; lia).
      rewrite Hout4 by (fold hm; unfold a; lia).
      destruct (decide (e = 0%nat)) as [->|He0].
      - exists bhi, o2. replace (M + (a + (hm + 0)))%nat with r2
          by (unfold r2; lia).
        replace (a + (hm + 0))%nat with (a + hm)%nat by lia.
        split; [done|]. split; [|done].
        unfold bhi. rewrite compareSwap_length, store_length. lia.
      - destruct (Hnodes (hm + e)%nat ltac:(lia)) as (b & o & Hr & Hlen & _).
        rewrite rounds_from_S in Hr.
        rewrite (round_ops_cases q j (hm + e)%nat) in Hr by (done || lia).
        rewrite decide_False, decide_False in Hr by lia.
        exists b, o. split; [|split; [lia|done]].
        rewrite Hout13; [done|]. unfold r1, r2. lia. }
    pose proof Hmv5 as (_ & _ & _ & Hout5 & _).
    (* together *)
    exists net5. split.
    { eapply moves_weaken;
        [|exact (moves_trans _ _ _ _ _
                   (moves_trans _ _ _ _ _ Hmv13 Hmv4) Hmv5)].
      fold hm m a. unfold r1, r2. simpl. intros r. lia. }
    assert (Hblo : take m blo = compareSwap (take m s) (Z.of_nat m) asc).
    { unfold blo. rewrite compareSwap_take by lia.
      rewrite <-Hs1, take_take. replace (m `min` cells (S (S q)))%nat with m
        by lia.
      by rewrite <-HmZ, Z2Nat.id. }
    assert (Hbhi : take m bhi =
                   compareSwap (take m (drop m s)) (Z.of_nat m) asc).
    { unfold bhi. rewrite compareSwap_take by (rewrite ?store_length; lia).
      replace (Z.of_nat m) with mZ by lia. f_equal.
      assert (Hsl : length (slice mZ mZ b1) = m)
        by (rewrite slice_length; lia).
      unfold store. change (Z.to_nat 0) with 0%nat.
      pose proof (store_take 0 (slice mZ mZ b1) b2) as Hst.
      rewrite Hsl in Hst. simpl in Hst. rewrite Hst by lia.
      unfold slice. rewrite HmZ, <-Hs1, Hmm, (take_drop_commute b1 m m).
      symmetry. apply take_ge. rewrite length_drop, length_take. lia. }
    intros e He. fold hm m in He |- *.
    cbn [spread]. fold m. rewrite <-Hblo, <-Hbhi.
    assert (Hl1 : length (spread q asc (take m blo)) = m).
    { apply spread_length. rewrite length_take. unfold blo.
      rewrite compareSwap_length. lia. }
    destruct (decide (e < hm)%nat) as [Hlt|Hge].
    + destruct (Hlow e Hlt) as (b' & o' & Hr & Hpair).
      exists b', o'. fold hm in Hr.
      replace (M + (2 * j * hm + e))%nat with (M + (a + e))%nat in Hr
        by (unfold a; lia).
      replace (2 * j * hm + e)%nat with (a + e)%nat in Hr by (unfold a; lia).
      split.
      * rewrite Hout5; [done|]. fold hm. unfold a. lia.
      * rewrite take2_drop_app_l by lia. done.
    + destruct (Hhigh (e - hm)%nat ltac:(lia)) as (b' & o' & Hr & Hpair).
      exists b', o'. fold hm in Hr.
      replace (M + ((2 * j + 1) * hm + (e - hm)))%nat with (M + (a + e))%nat
        in Hr by (unfold a; lia).
      replace ((2 * j + 1) * hm + (e - hm))%nat with (a + e)%nat in Hr
        by (unfold a; lia).
      split; [done|].
      replace (2 * e)%nat with (length (spread q asc (take m blo)) +
                                2 * (e - hm))%nat by lia.
      by rewrite take2_drop_app_r.
Qed.

(** The gather: the sub-coordinator receives the pairs of the ranks
    [i0, .., i0 + c - 1] of its group, in that order. *)
Lemma gather_run (tails : nat → list action) (tailM : list action)
    (F : list Z) (c : nat) :
  ∀ (i0 : nat) net bM oM,
  inflight net = [] → (1 ≤ i0)%nat →
  (2 * (i0 + c) ≤ length F)%nat →
  nodes net !! M =
    Some (Node (((fun i => Recv (2 * i) 2 (Z.of_nat M + i)) <$>
                 seqZ (Z.of_nat i0) (Z.of_nat c)) ++ tailM) bM oM) →
  (2 * (i0 + c) ≤ length bM)%nat →
  take (2 * i0) bM = take (2 * i0) F →
  (∀ e, (i0 ≤ e < i0 + c)%nat → ∃ b o,
     nodes net !! (M + e)%nat =
       Some (Node (Send 0 2 (Z.of_nat M) :: tails e) b o) ∧
     (2 ≤ length b)%nat ∧
     take 2 b = take 2 (drop (2 * e) F)) →
  ∃ net',
    moves (fun r => r = M ∨ M + i0 ≤ r < M + i0 + c)%nat net net' ∧
    (∃ bM', nodes net' !! M = Some (Node tailM bM' oM) ∧
            take (2 * (i0 + c)) bM' = take (2 * (i0 + c)) F) ∧
    (∀ e, (i0 ≤ e < i0 + c)%nat → ∃ b o,
       nodes net' !! (M + e)%nat = Some (Node (tails e) b o)).
Proof.
  induction c as [|c IH]; intros i0 net bM oM Hin Hi0 HF HM HlenM Htake Hnodes.
  - exists net. split; [by apply moves_refl|]. split.
    + exists bM. split; [done|]. by replace (i0 + 0)%nat with i0 by lia.
    + intros e He. lia.
  - rewrite seqZ_cons in HM by lia. cbn [fmap list_fmap app] in HM.
    replace (Z.pred (Z.of_nat (S c))) with (Z.of_nat c) in HM by lia.
    replace (Z.succ (Z.of_nat i0)) with (Z.of_nat (S i0)) in HM by lia.
    destruct (Hnodes i0 ltac:(lia)) as (b & o & Hr & Hlen & Hpair).
    destruct (moves_exchange net (M + i0)%nat M _ _ _ _ _ _ _ _ _ _ _ Hin
                ltac:(lia) Hr HM eq_refl ltac:(lia) ltac:(lia) ltac:(lia)
                ltac:(lia) ltac:(simpl; lia) ltac:(lia))
      as (net1 & Hmv1 & Hn1r & Hn1M).
    pose proof Hmv1 as (_ & _ & Hin1 & Hout1 & _).
    destruct (IH (S i0) net1 _ oM Hin1 ltac:(lia) ltac:(lia) Hn1M)
      as (net2 & Hmv2 & (bM' & HM' & Htake') & Hothers).
    { rewrite store_length. lia. }
    { unfold store. replace (Z.to_nat (2 * Z.of_nat i0)) with (2 * i0)%nat
        by lia.
      assert (Hsl : length (slice 0 2 b) = 2%nat)
        by (rewrite slice_length; simpl; lia).
      replace (2 * S i0)%nat with (2 * i0 + length (slice 0 2 b))%nat by lia.
      rewrite store_take by lia. rewrite Htake, Hsl.
      unfold slice. change (Z.to_nat 2) with 2%nat.
      change (Z.to_nat 0) with 0%nat.
      rewrite drop_0, Hpair. apply take_take_drop. }
    { intros e He. rewrite Hout1 by lia. apply Hnodes. lia. }
    pose proof Hmv2 as (_ & _ & _ & Hout2 & _).
    exists net2. split; [|split].
    + eapply moves_weaken; [|exact (moves_trans _ _ _ _ _ Hmv1 Hmv2)].
      simpl. intros r. lia.
    + exists bM'. split; [done|].
      by replace (i0 + S c)%nat with (S i0 + c)%nat by lia.
    + intros e He. destruct (decide (e = i0)) as [->|Hne].
      * rewrite Hout2 by lia. eauto.
      * apply Hothers. lia.
Qed.

Lemma group_prog_in (d : nat) :
  (d < cells P)%nat →
  group_prog P (Z.of_nat M) asc (M + d) =
  (if decide (d = 0%nat) then [CompareSwap (2 ^ Z.of_nat (S P)) asc] else []) ++
  rounds_from P M asc P d ++
  bitonicSort_gather (2 ^ Z.of_nat (S P)) (Z.of_nat M) (Z.of_nat (M + d)).
Proof.
  intros Hd. unfold group_prog, in_group. rewrite pow2_quot.
  pose proof (cells_Z P). rewrite bool_decide_true by lia.
  destruct (decide (d = 0%nat)) as [->|Hne].
  - by rewrite bool_decide_true by lia.
  - by rewrite bool_decide_false by lia.
Qed.

(** One merge: from a moment at which no message is in transit and the
    sub-coordinator holds the block [s], the ranks of the group can run
    their merge programs to the end; the sub-coordinator then holds what
    the merge assembles from [s]. *)
Lemma merge_run (tails : nat → list action) net s :
  inflight net = [] →
  (M + cells P ≤ length (nodes net))%nat →
  (∀ d, (d < cells P)%nat → ∃ b o,
     nodes net !! (M + d)%nat =
       Some (Node (group_prog P (Z.of_nat M) asc (M + d) ++ tails d) b o) ∧
     (cells (S P) ≤ length b)%nat ∧
     (d = 0%nat → take (cells (S P)) b = s)) →
  ∃ net',
    moves (fun r => M ≤ r < M + cells P)%nat net net' ∧
    ∀ d, (d < cells P)%nat → ∃ b' o',
      nodes net' !! (M + d)%nat = Some (Node (tails d) b' o') ∧
      (d = 0%nat → take (cells (S P)) b' = merge_result P asc s).
Proof.
  intros Hin Hranks Hnodes.
  pose proof (cells_pos P) as Hpos. pose proof (cells_S P) as HS.
  set (kZ := 2 ^ Z.of_nat (S P)).
  assert (HkZ : Z.to_nat kZ = cells (S P)) by done.
  (* the first compare-swap *)
  destruct (Hnodes 0%nat Hpos) as (b0 & o0 & Hr0 & Hlen0 & Hs0).
  specialize (Hs0 eq_refl).
  rewrite group_prog_in in Hr0 by done. rewrite decide_True in Hr0 by done.
  cbn [app] in Hr0. fold kZ in Hr0. rewrite <-app_assoc in Hr0.
  replace (M + 0)%nat with M in Hr0 by lia.
  destruct (moves_compareSwap net M _ _ _ _ _ Hin Hr0 ltac:(lia))
    as (net1 & Hmv1 & Hn1).
  pose proof Hmv1 as (_ & _ & Hin1 & Hout1 & _).
  pose proof (moves_length _ _ _ Hmv1) as Hlen1.
  set (gath := fun d : nat =>
         bitonicSort_gather kZ (Z.of_nat M) (Z.of_nat (M + d)) ++ tails d).
  (* the rounds *)
  destruct (spread_run gath P 0%nat net1 (take (cells (S P)) (compareSwap b0 kZ asc)))
    as (net2 & Hmv2 & Hpairs).
  { done. }
  { lia. }
  { done. }
  { lia. }
  { intros e He. simpl. destruct (decide (e = 0%nat)) as [->|Hne].
    - exists (compareSwap b0 kZ asc), o0. unfold gath.
      replace (M + 0)%nat with M by lia. split; [done|].
      split; [|done]. rewrite compareSwap_length. lia.
    - destruct (Hnodes e He) as (b & o & Hr & Hlen & _).
      rewrite group_prog_in in Hr by done.
      rewrite decide_False in Hr by done. cbn [app] in Hr.
      rewrite <-app_assoc in Hr. exists b, o.
      split; [|split; [lia|done]]. rewrite Hout1 by lia. done. }
  simpl in Hmv2, Hpairs.
  pose proof Hmv2 as (_ & _ & Hin2 & Hout2 & _).
  set (F := spread P asc (take (cells (S P)) (compareSwap b0 kZ asc))) in *.
  assert (HF : length F = cells (S P)).
  { apply spread_length. rewrite length_take, compareSwap_length. lia. }
  assert (HFs : F = merge_result P asc s).
  { unfold F, merge_result. fold kZ. rewrite compareSwap_take by lia.
    by rewrite Hs0. }
  (* the gather *)
  destruct (Hpairs 0%nat Hpos) as (bM & oM & HrM & HpairM).
  replace (M + 0)%nat with M in HrM by lia.
  unfold gath in HrM. unfold bitonicSort_gather in HrM.
  rewrite bool_decide_false in HrM by lia.
  unfold kZ in HrM. rewrite pow2_quot, <-(cells_Z P) in HrM.
  replace (Z.of_nat (cells P) - 1) with (Z.of_nat (cells P - 1)) in HrM by lia.
  assert (HlenM : (cells (S P) ≤ length bM)%nat).
  { destruct Hmv2 as (_ & _ & _ & _ & Hkeep).
    destruct (Hkeep _ _ Hn1) as (nd' & Hnd' & Hl & _).
    rewrite HrM in Hnd'. simplify_eq. simpl in Hl.
    rewrite Hl, compareSwap_length. lia. }
  destruct (gather_run (fun d => tails d) (tails 0%nat) F (cells P - 1) 1%nat
              net2 bM oM Hin2 ltac:(lia) ltac:(lia) HrM ltac:(lia))
    as (net3 & Hmv3 & (bM' & HM' & Htake') & Hothers).
  { change (2 * 1)%nat with 2%nat. by rewrite HpairM. }
  { intros e He. destruct (Hpairs e ltac:(lia)) as (b & o & Hr & Hpair).
    unfold gath, bitonicSort_gather in Hr.
    rewrite bool_decide_true in Hr by lia. cbn [app] in Hr.
    exists b, o. split; [done|]. split; [|done].
    assert (length (take 2 b) = 2%nat) as Hl2.
    { rewrite Hpair, length_take, length_drop. lia. }
    rewrite length_take in Hl2. lia. }
  exists net3. split.
  { eapply moves_weaken;
      [|exact (moves_trans _ _ _ _ _ (moves_trans _ _ _ _ _ Hmv1 Hmv2) Hmv3)].
    simpl. intros r. lia. }
  intros d Hd. destruct (decide (d = 0%nat)) as [->|Hne].
  - exists bM', oM. replace (M + 0)%nat with M by lia. split; [done|].
    intros _. replace (2 * (1 + (cells P - 1)))%nat with (cells (S P))
      in Htake' by lia.
    rewrite Htake', <-HFs. apply take_ge. lia.
  - destruct (Hothers d ltac:(lia)) as (b & o & Hr). exists b, o.
    split; [done|]. lia.
Qed.

End one_merge.
(** ** A merge, whatever the interleaving *)

Section merge_sorts.

Lemma finished_lookup net :
  (∀ r nd, nodes net !! r = Some nd → prog nd = []) → finished net = true.
Proof.
  intros Hall. unfold finished. apply forallb_forall. intros nd Hnd.
  apply list_elem_of_In, list_elem_of_lookup in Hnd as [r Hr].
  by rewrite (Hall _ _ Hr).
Qed.

(** The merge programs can be run to the end, and the sub-coordinator then
    holds what the merge assembles from its block. *)
Lemma merge_ends (P master : nat) (asc : bool) (bufs : list buffer) :
  (master + cells P ≤ length bufs)%nat →
  (∀ r, (master ≤ r < master + cells P)%nat →
        (cells (S P) ≤ length (bufs !!! r))%nat) →
  ∃ net' nd,
    reachable (merge_start (group_prog P (Z.of_nat master) asc <$>
                            seq 0 (length bufs)) bufs) net' ∧
    finished net' = true ∧
    nodes net' !! master = Some nd ∧
    take (cells (S P)) (buf nd) =
      merge_result P asc (take (cells (S P)) (bufs !!! master)).
Proof.
  intros Hranks Hbufs. pose proof (cells_pos P) as Hpos.
  set (net0 := merge_start _ bufs).
  assert (Hlook : ∀ r, (r < length bufs)%nat →
            nodes net0 !! r =
            Some (Node (group_prog P (Z.of_nat master) asc r)
                    (bufs !!! r) [])).
  { intros r Hr. apply merge_start_lookup. exists (bufs !!! r).
    split; [|done]. by apply list_lookup_lookup_total_lt. }
  assert (Hlen0 : length (nodes net0) = length bufs).
  { unfold net0, merge_start. simpl.
    rewrite length_zip_with, length_fmap, length_seq. lia. }
  destruct (merge_run P master asc (fun _ => []) net0
              (take (cells (S P)) (bufs !!! master)))
    as (net' & Hmv & Hdone).
  { done. }
  { lia. }
  { intros d Hd. exists (bufs !!! (master + d)%nat), [].
    rewrite app_nil_r. split; [apply Hlook; lia|].
    split; [apply Hbufs; lia|]. intros ->.
    by replace (master + 0)%nat with master by lia. }
  destruct (Hdone 0%nat Hpos) as (b' & o' & Hr & Hres).
  replace (master + 0)%nat with master in Hr by lia.
  exists net', (Node [] b' o').
  destruct Hmv as (Hreach & _ & _ & Hout & _).
  split; [done|]. split; [|split; [done|by apply Hres]].
  apply finished_lookup. intros r nd Hnd.
  destruct (decide (master ≤ r < master + cells P)%nat) as [Hin|Hnotin].
  - destruct (Hdone (r - master)%nat ltac:(lia)) as (b & o & Hb & _).
    replace (master + (r - master))%nat with r in Hb by lia.
    rewrite Hb in Hnd. by simplify_eq.
  - rewrite Hout in Hnd by done.
    pose proof (lookup_lt_Some _ _ _ Hnd) as Hlt. rewrite Hlen0 in Hlt.
    rewrite Hlook in Hnd by done. simplify_eq. simpl.
    unfold group_prog, in_group. rewrite pow2_quot, <-cells_Z.
    by rewrite bool_decide_false by lia.
Qed.

(** Every run of the merge programs goes on to that end, and stops
    nowhere else. *)
Lemma merge_runs_agree (P master : nat) (asc : bool) (bufs : list buffer) :
  (master + cells P ≤ length bufs)%nat →
  (∀ r, (master ≤ r < master + cells P)%nat →
        (cells (S P) ≤ length (bufs !!! r))%nat) →
  ∀ net,
    reachable (merge_start (group_prog P (Z.of_nat master) asc <$>
                            seq 0 (length bufs)) bufs) net →
    ∃ t nd,
      reachable net t ∧ finished t = true ∧
      nodes t !! master = Some nd ∧
      take (cells (S P)) (buf nd) =
        merge_result P asc (take (cells (S P)) (bufs !!! master)) ∧
      (terminal net → net = t).
Proof.
  intros Hranks Hbufs net Hnet.
  destruct (merge_ends P master asc bufs Hranks Hbufs)
    as (net' & nd & Hreach & Hfin & Hnd & Hres).
  destruct (runs_agree _ _ _ Hreach (finished_terminal _ Hfin) Hnet)
    as (t & Ht & Heq & Hstuck).
  exists t, nd. split; [done|]. split; [by eapply equiv_finished|].
  destruct Heq as (Hnodes & _). by rewrite <-Hnodes.
Qed.

(** X2.  A merge of width [k = 2^(P+1)] never blocks: whatever the contents of
    the buffers and whatever the order in which the ranks have proceeded
    so far, the ranks can go on until all have run their programs to the
    end, and no rank is ever left waiting for a message that does not
    come. *)
Theorem merge_never_blocks (P ranks master : nat) (ascending : bool)
    (bufs : list buffer) :
  let k := 2 ^ Z.of_nat (S P) in
  length bufs = ranks →
  (master + Z.to_nat (k `quot` 2) ≤ ranks)%nat →
  (∀ r, (master ≤ r < master + Z.to_nat (k `quot` 2))%nat →
        (Z.to_nat k ≤ length (bufs !!! r))%nat) →
  ∃ progs,
    merge_progs ranks k (Z.of_nat master) ascending = Some progs ∧
    ∀ net, reachable (merge_start progs bufs) net →
      (∃ net', reachable net net' ∧ finished net' = true) ∧
      (terminal net → finished net = true).
Proof.
  intros k <- Hranks Hbufs. unfold k in *. rewrite pow2_quot in *.
  fold (cells P) (cells (S P)) in *.
  eexists. split; [apply merge_progs_closed|]. intros net Hnet.
  destruct (merge_runs_agree P master ascending bufs Hranks Hbufs net Hnet)
    as (t & nd & Ht & Hfin & _ & _ & Hstuck).
  split; [by exists t|]. intros Hterm. by rewrite (Hstuck Hterm).
Qed.

(** X3.  A merge of width [k = 2^(P+1)] sorts a bitonic block: when the [k]
    elements held by the sub-coordinator form a bitonic sequence, then in
    every run, once all ranks have finished, the sub-coordinator holds the
    same elements in the order asked for. *)
Theorem merge_sorts_bitonic (P ranks master : nat) (ascending : bool)
    (bufs : list buffer) :
  let k := 2 ^ Z.of_nat (S P) in
  length bufs = ranks →
  (master + Z.to_nat (k `quot` 2) ≤ ranks)%nat →
  (∀ r, (master ≤ r < master + Z.to_nat (k `quot` 2))%nat →
        (Z.to_nat k ≤ length (bufs !!! r))%nat) →
  bitonic (take (Z.to_nat k) (bufs !!! master)) →
  ∃ progs,
    merge_progs ranks k (Z.of_nat master) ascending = Some progs ∧
    ∀ net, reachable (merge_start progs bufs) net →
      finished net = true →
      ∃ nd, nodes net !! master = Some nd ∧
            sorted ascending (take (Z.to_nat k) (buf nd)) ∧
            take (Z.to_nat k) (buf nd) ≡ₚ
              take (Z.to_nat k) (bufs !!! master).
Proof.
  intros k <- Hranks Hbufs Hbit. unfold k in *. rewrite pow2_quot in *.
  fold (cells P) (cells (S P)) in *.
  eexists. split; [apply merge_progs_closed|]. intros net Hnet Hfin.
  destruct (merge_runs_agree P master ascending bufs Hranks Hbufs net Hnet)
    as (t & nd & _ & _ & Hnd & Hres & Hstuck).
  rewrite <-(Hstuck (finished_terminal _ Hfin)) in Hnd.
  exists nd. split; [done|]. rewrite Hres.
  apply merge_result_sorted; [|done].
  rewrite length_take. specialize (Hbufs master ltac:(pose proof (cells_pos P); lia)).
  lia.
Qed.

End merge_sorts.

Section merge_sorts_examples.

Lemma merge_never_blocks_witness :
  ∃ progs,
    merge_progs 2 4 0 false = Some progs ∧
    ∀ net, reachable (merge_start progs [[3; 1; 4; 1]; [0; 0; 0; 0]]) net →
      (∃ net', reachable net net' ∧ finished net' = true) ∧
      (terminal net → finished net = true).
Proof.
  apply (merge_never_blocks 1 2 0 false [[3; 1; 4; 1]; [0; 0; 0; 0]]).
  - reflexivity.
  - vm_compute. lia.
  - intros [|[|r]] Hr; vm_compute in Hr |- *; lia.
Defined.

Lemma merge_sorts_bitonic_witness :
  ∃ progs,
    merge_progs 2 4 0 true = Some progs ∧
    ∀ net, reachable (merge_start progs [[1; 4; 3; 2]; [0; 0; 0; 0]]) net →
      finished net = true →
      ∃ nd, nodes net !! 0%nat = Some nd ∧
            sorted true (take 4 (buf nd)) ∧
            take 4 (buf nd) ≡ₚ [1; 4; 3; 2].
Proof.
  apply (merge_sorts_bitonic 1 2 0 true [[1; 4; 3; 2]; [0; 0; 0; 0]]).
  - reflexivity.
  - vm_compute. lia.
  - intros [|[|r]] Hr; vm_compute in Hr |- *; lia.
  - exists true, [1; 4], [3; 2], []. split; [reflexivity|].
    split; intros [|[|i]] [|[|j]] Hij Hj; simpl in *; lia.
Defined.

End merge_sorts_examples.
(** ** main in closed form *)

Section main_program.



















End main_program.
(** ** The phases of main *)

Section phases.

Implicit Types (net : network).





Lemma moves_finalize net r rest b o :
  inflight net = [] →
  nodes net !! r = Some (Node (Finalize :: rest) b o) →
  ∃ net', moves (eq r) net net' ∧ scattered net' = scattered net ∧
          nodes net' !! r = Some (Node rest b o).
Proof.
  intros Hin Hr. pose proof (lookup_lt_Some _ _ _ Hr) as Hlt.
  exists (Network (<[r := Node rest b o]> (nodes net)) (inflight net)
            (scattered net)).
  split; [|split; [done|by apply list_lookup_insert_eq]].
  split; [|split; [done|split; [done|split]]].
  - apply rtc_once. exists r. unfold exec. by rewrite Hr.
  - intros r0 Hr0. simpl. by apply list_lookup_insert_ne.
  - intros r0 nd Hnd. simpl. destruct (decide (r0 = r)) as [->|Hne0].
    + rewrite list_lookup_insert_eq by done. eexists. split; [done|].
      by simplify_eq.
    + rewrite list_lookup_insert_ne by done. eauto.
Qed.

(** Groups of [W] consecutive ranks that proceed one after the other. *)
Lemma moves_ranges (W G : nat) (I : nat → network → Prop)
    (Pre Post : nat → node → Prop) :
  (∀ j net, (j < G)%nat → inflight net = [] → I j net →
     (∀ d, (d < W)%nat → ∃ nd,
        nodes net !! (j * W + d)%nat = Some nd ∧ Pre (j * W + d)%nat nd) →
     ∃ net', moves (fun r => j * W ≤ r < j * W + W)%nat net net' ∧
             I (S j) net' ∧
             ∀ d, (d < W)%nat → ∃ nd',
               nodes net' !! (j * W + d)%nat = Some nd' ∧
               Post (j * W + d)%nat nd') →
  ∀ net, inflight net = [] → I 0%nat net →
    (∀ r, (r < G * W)%nat → ∃ nd, nodes net !! r = Some nd ∧ Pre r nd) →
    ∃ net', moves (fun r => r < G * W)%nat net net' ∧ I G net' ∧
            ∀ r, (r < G * W)%nat → ∃ nd',
              nodes net' !! r = Some nd' ∧ Post r nd'.
Proof.
  intros Hstep net Hin HI Hpre.
  assert (Hgen : ∀ g, (g ≤ G)%nat →
    ∃ net', moves (fun r => r < g * W)%nat net net' ∧ I g net' ∧
            ∀ r, (r < g * W)%nat → ∃ nd',
              nodes net' !! r = Some nd' ∧ Post r nd').
  { induction g as [|g IH]; intros Hg.
    - exists net. split; [by apply moves_refl|]. split; [done|].
      intros r Hr. lia.
    - destruct (IH ltac:(lia)) as (net1 & Hmv1 & HI1 & Hpost1).
      pose proof Hmv1 as (_ & _ & Hin1 & Hout1 & _).
      destruct (Hstep g net1 ltac:(lia) Hin1 HI1) as (net2 & Hmv2 & HI2 & Hpost2).
      { intros d Hd. rewrite Hout1 by lia. apply Hpre. nia. }
      pose proof Hmv2 as (_ & _ & _ & Hout2 & _).
      exists net2. split; [|split; [done|]].
      + eapply moves_weaken; [|exact (moves_trans _ _ _ _ _ Hmv1 Hmv2)].
        simpl. intros r. nia.
      + intros r Hr. destruct (decide (r < g * W)%nat) as [Hlt|Hge].
        * rewrite Hout2 by lia. by apply Hpost1.
        * destruct (Hpost2 (r - g * W)%nat ltac:(nia)) as (nd' & Hnd' & HP).
          replace (g * W + (r - g * W))%nat with r in * by lia. eauto. }
  by apply Hgen.
Qed.

End phases.
(** ** The sequence sorted level by level *)

Section blocks_facts.

Context (input : list Z).







End blocks_facts.
(** ** The run of main on a sequence of [2^p] elements *)

Section run_of_main.

Context (p : nat) (input : list Z) (junk : nat → nat → Z).
Context (Hp : (1 ≤ p)%nat) (Hinput : length input = cells p).













End run_of_main.
(** ** main sorts *)

Section all_runs_of_main.




End all_runs_of_main.

Section all_runs_of_main_examples.



End all_runs_of_main_examples.
(** ** The last process *)

Section last_rank.






End last_rank.

Section last_rank_examples.


End last_rank_examples.
(** ** More on compareSwap *)

Section more_compareSwap.

Implicit Types (s : buffer).

(** X7.  compareSwap looks at the order of the elements only: it commutes with
    every map that keeps the order, and a map that reverses the order
    exchanges the two directions.  (The swap decisions may differ on
    elements that the map identifies, the resulting buffers do not.) *)
Theorem compareSwap_order_map (f : Z → Z) (keeps : bool) s (n : Z)
    (ascending : bool) :
  (∀ x y, x ≤ y → if keeps then f x ≤ f y else f y ≤ f x) →
  (Z.to_nat n ≤ length s)%nat →
  compareSwap (f <$> s) n ascending =
  f <$> compareSwap s n (if keeps then ascending else negb ascending).
Proof.
  intros Hf Hn. destruct keeps; [by apply compareSwap_fmap|].
  pose proof (half_bound n (length s) Hn) as Hhalf.
  apply (list_eq_same_length _ _ (length s)).
  { by rewrite length_fmap, compareSwap_length. }
  { by rewrite compareSwap_length, length_fmap. }
  intros j x y Hj Hx Hy.
  apply list_lookup_total_correct in Hx, Hy. subst x y.
  rewrite fmap_cell by (by rewrite compareSwap_length).
  rewrite !compareSwap_cells by (by rewrite ?length_fmap).
  assert (Hmin : ∀ a b, f (Z.min a b) = Z.max (f a) (f b)).
  { intros a b. destruct (Z.le_gt_cases a b) as [Hab|Hab].
    - pose proof (Hf a b Hab). rewrite (Z.min_l a b) by done. lia.
    - pose proof (Hf b a ltac:(lia)). rewrite (Z.min_r a b) by lia. lia. }
  assert (Hmax : ∀ a b, f (Z.max a b) = Z.min (f a) (f b)).
  { intros a b. destruct (Z.le_gt_cases a b) as [Hab|Hab].
    - pose proof (Hf a b Hab). rewrite (Z.max_r a b) by done. lia.
    - pose proof (Hf b a ltac:(lia)). rewrite (Z.max_l a b) by lia. lia. }
  repeat case_decide; rewrite ?fmap_cell by lia;
    destruct ascending; simpl; by rewrite ?Hmin, ?Hmax.
Qed.

(** X8.  The buffers that compareSwap leaves as they are, are those whose
    pairs are all in order for the direction; among them the buffers whose
    first [n] cells are sorted in that direction. *)
Theorem compareSwap_unchanged s (n : Z) (ascending : bool) :
  (Z.to_nat n ≤ length s)%nat →
  let half := Z.to_nat (n `quot` 2) in
  (compareSwap s n ascending = s ↔
   ∀ i, (i < half)%nat → ordered ascending (s !!! i) (s !!! (i + half)%nat)) ∧
  (sorted ascending (take (Z.to_nat n) s) → compareSwap s n ascending = s).
Proof.
  intros Hn half. pose proof (half_bound n (length s) Hn) as Hhalf.
  pose proof (half_bound n (Z.to_nat n) ltac:(lia)) as Hhalf'.
  fold half in Hhalf, Hhalf'.
  assert (Hiff : compareSwap s n ascending = s ↔
            ∀ i, (i < half)%nat →
                 ordered ascending (s !!! i) (s !!! (i + half)%nat)).
  { split.
    - intros Heq i Hi.
      assert (Hc := compareSwap_cells s n ascending i Hn).
      rewrite Heq in Hc. cbv zeta in Hc. fold half in Hc.
      rewrite decide_True in Hc by done.
      destruct ascending; simpl in *; lia.
    - intros Hord.
      apply (list_eq_same_length _ _ (length s));
        [done|by rewrite compareSwap_length|].
      intros j x y Hj Hx Hy.
      apply list_lookup_total_correct in Hx, Hy. subst x y.
      rewrite compareSwap_cells by done. fold half.
      destruct (decide (j < half)%nat) as [Hlo|Hlo].
      + specialize (Hord j Hlo). destruct ascending; simpl in *; lia.
      + destruct (decide (j < half + half)%nat) as [Hhi|Hhi]; [|done].
        specialize (Hord (j - half)%nat ltac:(lia)).
        replace (j - half + half)%nat with j in Hord by lia.
        destruct ascending; simpl in *; lia. }
  split; [done|]. intros Hsorted. apply Hiff. intros i Hi.
  specialize (Hsorted i (i + half)%nat ltac:(lia)).
  rewrite length_take in Hsorted.
  rewrite !lookup_total_take_lt in Hsorted by lia. apply Hsorted. lia.
Qed.

End more_compareSwap.

Section more_examples.

Lemma compareSwap_order_map_witness :
  compareSwap (Z.opp <$> [3; 1; 2; 2]) 4 true =
  Z.opp <$> compareSwap [3; 1; 2; 2] 4 false.
Proof.
  apply (compareSwap_order_map Z.opp false [3; 1; 2; 2] 4 true).
  - intros x y Hxy. lia.
  - simpl. lia.
Defined.

Lemma compareSwap_unchanged_witness :
  (compareSwap [1; 2; 3; 4] 4 true = [1; 2; 3; 4] ↔
   ∀ i, (i < 2)%nat →
        ordered true ([1; 2; 3; 4] !!! i) ([1; 2; 3; 4] !!! (i + 2)%nat)) ∧
  (sorted true (take 4 [1; 2; 3; 4]) →
   compareSwap [1; 2; 3; 4] 4 true = [1; 2; 3; 4]).
Proof.
  apply (compareSwap_unchanged [1; 2; 3; 4] 4 true). simpl. lia.
Defined.

End more_examples.
(** ** The second program *)

Section second_program.

Lemma main_bitonic_round_eq n rank :
  main_bitonic_round n rank = bitonicSort_round n 0 rank true.
Proof. done. Qed.

Lemma round_ops_outside k master_node rank ascending m :
  k `quot` 2 ≤ rank - master_node →
  round_ops k master_node rank ascending m = [].
Proof.
  intros Hout. unfold round_ops, sends_in_round, receives_in_round.
  by rewrite !bool_decide_false by lia.
Qed.

(** The second program on [2^(p-1) + 1] processes: the ranks below
    [2^(p-1)] run the merge of [bitonicSort] with the rank 0 as
    sub-coordinator, and the gather adds the transfer of the block of the
    last process. *)
Lemma main_bitonic_closed (p r : nat) :
  (1 ≤ p)%nat →
  main_bitonic (2 ^ Z.of_nat (p - 1) + 1) (Z.of_nat r) =
  Some (if decide (r < cells (p - 1))%nat
        then group_prog (p - 1) 0 true r ++ bitonic_end p r
        else [Send 0 2 0; Finalize]).
Proof.
  intros Hp. destruct p as [|P]; [lia|]. replace (S P - 1)%nat with P by lia.
  pose proof (pow2_pos P) as HP. pose proof (cells_Z P) as HcP.
  unfold main_bitonic.
  assert (Hn : main_n (2 ^ Z.of_nat P + 1) = 2 ^ Z.of_nat (S P))
    by (unfold main_n; rewrite pow2_S; lia).
  rewrite Hn. cbv zeta. rewrite pow2_quot, main_bitonic_round_eq.
  rewrite (round_loop_pow2 _ P 0) by (pose proof (pow2_ge P); lia).
  pose proof (rounds_pow2_ops P 0 0 (Z.of_nat r) true) as Hr.
  rewrite Nat.add_0_r in Hr. cbv zeta in Hr. rewrite Hr.
  cbn [mbind option_bind]. f_equal.
  destruct (decide (r < cells P)%nat) as [Hlt|Hge].
  - pose proof (group_prog_in P 0 true r Hlt) as Hg.
    change (Z.of_nat 0) with 0 in Hg. change (0 + r)%nat with r in Hg.
    unfold rounds_from in Hg. change (Z.of_nat 0) with 0 in Hg.
    change (0 + r)%nat with r in Hg. rewrite Hg. clear Hg.
    unfold gather_ops, bitonicSort_gather, bitonic_end. rewrite pow2_quot.
    replace (S P - 1)%nat with P by lia.
    destruct (decide (r = 0%nat)) as [->|Hne].
    + rewrite !(bool_decide_true (Z.of_nat 0 = 0)) by done.
      rewrite (bool_decide_false (Z.of_nat 0 ≠ 0)) by (intros H; by apply H).
      replace (2 ^ Z.of_nat P + 1 - 1) with (Z.of_nat (S (cells P - 1)))
        by (pose proof (cells_pos P); lia).
      rewrite seqZ_S, fmap_app.
      replace (Z.of_nat (cells P - 1)) with (2 ^ Z.of_nat P - 1)
        by (pose proof (cells_pos P); lia).
      rewrite <-!app_assoc. do 3 f_equal. cbn [fmap list_fmap app].
      do 2 f_equal; [rewrite pow2_S|]; lia.
    + rewrite !(bool_decide_false (Z.of_nat r = 0)) by lia.
      rewrite (bool_decide_true (Z.of_nat r ≠ 0)) by lia.
      by rewrite <-!app_assoc.
  - rewrite (bool_decide_false (Z.of_nat r = 0))
      by (pose proof (cells_pos P); lia).
    assert (Hnone : mjoin (round_ops (2 ^ Z.of_nat (S P)) 0 (Z.of_nat r) true
                           <$> halvings P) = []).
    { generalize (halvings P). intros l.
      induction l as [|m l IH]; [done|].
      rewrite fmap_cons, join_cons, IH, round_ops_outside; [done|].
      rewrite pow2_quot. lia. }
    rewrite Hnone. unfold gather_ops.
    rewrite (bool_decide_false (Z.of_nat r = 0))
      by (pose proof (cells_pos P); lia).
    done.
Qed.

Lemma main_bitonic_progs_closed (p : nat) :
  (1 ≤ p)%nat →
  main_bitonic_progs (2 ^ Z.of_nat (p - 1) + 1) =
  Some ((fun r => if decide (r < cells (p - 1))%nat
                  then group_prog (p - 1) 0 true r ++ bitonic_end p r
                  else [Send 0 2 0; Finalize]) <$>
        seq 0 (S (cells (p - 1)))).
Proof.
  intros Hp. unfold main_bitonic_progs.
  replace (Z.to_nat (2 ^ Z.of_nat (p - 1) + 1)) with (S (cells (p - 1)))
    by (pose proof (pow2_pos (p - 1)); unfold cells; lia).
  apply mapM_closed. intros r. by apply main_bitonic_closed.
Qed.

Lemma start_bitonic_nodes (f : nat → list action) (L : nat)
    input beyond junk r :
  (r < L)%nat →
  nodes (start_bitonic (f <$> seq 0 L) input beyond junk) !! r =
  Some (Node (f r)
          (if bool_decide (r = 0%nat) then input ++ beyond
           else junk r <$> seq 0 (length input)) []).
Proof.
  intros Hr. unfold start_bitonic. cbn [nodes].
  rewrite list_lookup_imap, list_lookup_fmap, lookup_seq_lt by lia. done.
Qed.

(** A block stored at the end of a buffer. *)
Lemma store_at_end off data b :
  0 ≤ off → length b = (Z.to_nat off + length data)%nat →
  store off data b = take (Z.to_nat off) b ++ data.
Proof.
  intros _. unfold store. generalize (Z.to_nat off). clear off.
  induction data as [|y data IH]; intros i Hlen; simpl in *.
  - by rewrite take_ge, app_nil_r by lia.
  - rewrite IH by lia.
    destruct (lookup_lt_is_Some_2 b i ltac:(lia)) as [x Hx].
    rewrite (take_S_r _ _ _ Hx), <-app_assoc. simpl.
    rewrite insert_app_r_alt by (rewrite length_take; lia).
    rewrite length_take. replace (i - i `min` length b)%nat with 0%nat by lia.
    done.
Qed.

(** The run of the second program under one schedule: the merge, the
    other ranks of the group finalize, the last process hands over its
    two cells, which the root stores after its array, and the root
    displays the array. *)
Lemma bitonic_ends (p : nat) (input beyond : buffer) (junk : nat → nat → Z) :
  (1 ≤ p)%nat → length input = cells p → length beyond = 2%nat →
  ∃ net,
    reachable
      (start_bitonic
         ((fun r => if decide (r < cells (p - 1))%nat
                    then group_prog (p - 1) 0 true r ++ bitonic_end p r
                    else [Send 0 2 0; Finalize]) <$>
          seq 0 (S (cells (p - 1)))) input beyond junk) net ∧
    finished net = true ∧
    nodes net !! 0%nat =
      Some (Node []
              (merge_result (p - 1) true input ++
               [junk (cells (p - 1)) 0%nat; junk (cells (p - 1)) 1%nat])
              [merge_result (p - 1) true input]).
Proof.
  intros Hp Hinput Hbeyond.
  set (N := cells (p - 1)).
  assert (Hn : cells p = (N + N)%nat).
  { unfold N. destruct p as [|q]; [lia|].
    replace (S q - 1)%nat with q by lia. apply cells_S. }
  assert (HSP : cells (S (p - 1)) = cells p) by (f_equal; lia).
  pose proof (cells_pos (p - 1)) as HN. fold N in HN.
  set (f := fun r : nat => if decide (r < N)%nat
                then group_prog (p - 1) 0 true r ++ bitonic_end p r
                else [Send 0 2 0; Finalize]).
  set (net0 := start_bitonic (f <$> seq 0 (S N)) input beyond junk).
  set (b0 := fun r : nat => if bool_decide (r = 0%nat) then input ++ beyond
                            else junk r <$> seq 0 (length input)).
  assert (Hb0 : ∀ r, length (b0 r) =
                     if bool_decide (r = 0%nat) then (cells p + 2)%nat
                     else cells p).
  { intros r. unfold b0. case_bool_decide.
    - rewrite length_app. lia.
    - by rewrite length_fmap, length_seq. }
  assert (Hb0' : ∀ r, (cells p ≤ length (b0 r))%nat).
  { intros r. rewrite Hb0. case_bool_decide; lia. }
  assert (Hlook : ∀ r, (r < S N)%nat →
            nodes net0 !! r = Some (Node (f r) (b0 r) []))
    by (intros r Hr; by apply start_bitonic_nodes).
  assert (Hlen0 : length (nodes net0) = S N).
  { unfold net0, start_bitonic. cbn [nodes].
    by rewrite length_imap, length_fmap, length_seq. }
  (* the merge *)
  destruct (merge_run (p - 1) 0 true (bitonic_end p) net0 input)
    as (net1 & Hmv1 & Hdone1).
  { done. }
  { fold N. lia. }
  { fold N. intros d Hd. exists (b0 d), []. change (0 + d)%nat with d.
    rewrite Hlook by lia. unfold f. rewrite decide_True by done.
    split; [done|]. split; [rewrite HSP; apply Hb0'|].
    intros ->. unfold b0. rewrite bool_decide_true by done.
    rewrite HSP, <-Hinput. by rewrite take_app_length. }
  fold N in Hmv1, Hdone1.
  pose proof Hmv1 as (Hreach1 & _ & Hin1 & Hout1 & Hkeep1).
  pose proof (moves_length _ _ _ Hmv1) as Hlen1.
  (* the other ranks of the group finalize *)
  destruct (moves_ranges 1 N (fun _ _ => True)
    (fun r nd => ∃ b, nd = Node (bitonic_end p r) b [] ∧
                      length b = length (b0 r) ∧
                      (r = 0%nat →
                       take (cells p) b = merge_result (p - 1) true input))
    (fun r nd => ∃ b, nd = Node (if decide (r = 0%nat) then bitonic_end p 0
                                 else []) b [] ∧
                      length b = length (b0 r) ∧
                      (r = 0%nat →
                       take (cells p) b = merge_result (p - 1) true input)))
    with (net := net1) as (net2 & Hmv2 & _ & Hpost2).
  { intros j net Hj Hin _ Hpre.
    destruct (Hpre 0%nat ltac:(lia)) as (nd & Hnd & b & -> & Hlen & Hb).
    replace (j * 1 + 0)%nat with j in * by lia.
    destruct (decide (j = 0%nat)) as [->|Hne].
    - exists net. split; [by apply moves_refl|]. split; [done|].
      intros d Hd. replace d with 0%nat by lia. eauto.
    - unfold bitonic_end in Hnd. rewrite decide_False in Hnd by done.
      destruct (moves_finalize net j _ _ _ Hin Hnd) as (net' & Hmv & _ & Hnd').
      exists net'. split; [eapply moves_weaken; [|done]; simpl; lia|].
      split; [done|]. intros d Hd. replace d with 0%nat by lia.
      replace (j * 1 + 0)%nat with j by lia. eexists. split; [done|].
      exists b. rewrite decide_False by done. split; [done|].
      split; [done|]. lia. }
  { done. }
  { done. }
  { intros r Hr. replace (N * 1)%nat with N in Hr by lia.
    destruct (Hdone1 r Hr) as (b' & o' & Hnd' & Hres).
    change (0 + r)%nat with r in Hnd'.
    destruct (Hkeep1 r _ (Hlook r ltac:(lia))) as (nd'' & Hnd'' & Hl & Ho).
    rewrite Hnd' in Hnd''. injection Hnd'' as <-. simpl in Hl, Ho. subst o'.
    eexists. split; [done|]. exists b'. split; [done|].
    split; [done|]. intros ->. rewrite <-(Hres eq_refl). by rewrite HSP. }
  replace (N * 1)%nat with N in * by lia.
  pose proof Hmv2 as (Hreach2 & _ & Hin2 & Hout2 & _).
  pose proof (moves_length _ _ _ Hmv2) as Hlen2.
  (* the block of the last process goes to the root *)
  assert (HnN : nodes net2 !! N = Some (Node [Send 0 2 0; Finalize] (b0 N) [])).
  { rewrite Hout2, Hout1 by lia. rewrite Hlook by lia. unfold f.
    by rewrite decide_False by lia. }
  destruct (Hpost2 0%nat HN) as (nd0 & Hnd0 & b & -> & Hlenb & Hb).
  rewrite decide_True in Hnd0 by done. specialize (Hb eq_refl).
  rewrite Hb0, bool_decide_true in Hlenb by done.
  unfold bitonic_end in Hnd0. rewrite decide_True in Hnd0 by done.
  assert (HlenN : length (b0 N) = cells p).
  { rewrite Hb0. by rewrite bool_decide_false by lia. }
  destruct (moves_exchange net2 N 0 0 2 0 [Finalize] (b0 N) []
              (2 ^ Z.of_nat p) (2 ^ Z.of_nat (p - 1))
              [Finalize; Display (2 ^ Z.of_nat p)] b [])
    as (net3 & Hmv3 & HN3 & H03); try done; try lia.
  { unfold N. by rewrite cells_Z. }
  { fold (cells p). rewrite Hlenb. simpl. lia. }
  pose proof Hmv3 as (Hreach3 & _ & Hin3 & Hout3 & _).
  assert (Hblock : slice 0 2 (b0 N) = [junk N 0%nat; junk N 1%nat]).
  { unfold b0. rewrite bool_decide_false by lia. rewrite Hinput, Hn.
    unfold slice. change (Z.to_nat 0) with 0%nat.
    change (Z.to_nat 2) with 2%nat. rewrite drop_0.
    assert (∃ k, (N + N)%nat = S (S k)) as [k ->]
      by (exists (N + N - 2)%nat; lia).
    done. }
  rewrite Hblock in H03.
  rewrite store_at_end in H03
    by (first [by pose proof (pow2_pos p); lia
              |fold (cells p); rewrite Hlenb; simpl; lia]).
  fold (cells p) in H03. rewrite Hb in H03.
  set (bfin := merge_result (p - 1) true input ++ [junk N 0%nat; junk N 1%nat])
    in *.
  (* both finalize, and the root displays its array *)
  destruct (moves_finalize net3 N _ _ _ Hin3 HN3) as (net4 & Hmv4 & _ & HN4).
  pose proof Hmv4 as (Hreach4 & _ & Hin4 & Hout4 & _).
  assert (H04 : nodes net4 !! 0%nat =
            Some (Node [Finalize; Display (2 ^ Z.of_nat p)] bfin []))
    by (rewrite Hout4 by lia; done).
  destruct (moves_finalize net4 0 _ _ _ Hin4 H04) as (net5 & Hmv5 & _ & H05).
  pose proof Hmv5 as (Hreach5 & _ & Hin5 & Hout5 & _).
  set (net6 := Network
                 (<[0%nat := Node [] bfin [slice 0 (2 ^ Z.of_nat p) bfin]]>
                    (nodes net5)) (inflight net5) (scattered net5)).
  assert (H6 : exec 0 net5 = Some net6).
  { unfold exec. rewrite H05. done. }
  pose proof (lookup_lt_Some _ _ _ H05) as Hlt5.
  assert (Hshow : slice 0 (2 ^ Z.of_nat p) bfin =
                  merge_result (p - 1) true input).
  { unfold slice, bfin. change (Z.to_nat 0) with 0%nat. rewrite drop_0.
    fold (cells p).
    assert (Hlm : length (merge_result (p - 1) true input) = cells p)
      by (rewrite merge_result_length; by rewrite HSP).
    rewrite <-Hlm at 1. by rewrite take_app_length. }
  exists net6. split; [|split].
  - etrans; [exact Hreach1|]. etrans; [exact Hreach2|].
    etrans; [exact Hreach3|]. etrans; [exact Hreach4|].
    etrans; [exact Hreach5|]. apply rtc_once. by exists 0%nat.
  - apply finished_lookup. intros r nd Hnd. simpl in Hnd.
    destruct (decide (r = 0%nat)) as [->|Hne].
    + rewrite list_lookup_insert_eq in Hnd by lia. by simplify_eq.
    + rewrite list_lookup_insert_ne in Hnd by done.
      rewrite Hout5 in Hnd by lia.
      destruct (decide (r = N)) as [->|HneN].
      * rewrite HN4 in Hnd. by simplify_eq.
      * rewrite Hout4, Hout3 in Hnd by lia.
        pose proof (lookup_lt_Some _ _ _ Hnd) as Hlt.
        destruct (Hpost2 r ltac:(lia)) as (nd' & Hnd' & b' & -> & _).
        rewrite Hnd' in Hnd. simplify_eq. simpl.
        by rewrite decide_False by lia.
  - simpl. rewrite list_lookup_insert_eq by lia. by rewrite Hshow.
Qed.

(** Every run of the second program on a sequence of [2^p] elements goes
    on to the end reached under that schedule, and stops nowhere else. *)
Lemma bitonic_runs_agree (p : nat) (input beyond : buffer)
    (junk : nat → nat → Z) :
  (1 ≤ p)%nat → length input = cells p → length beyond = 2%nat →
  ∀ net,
    reachable
      (start_bitonic
         ((fun r => if decide (r < cells (p - 1))%nat
                    then group_prog (p - 1) 0 true r ++ bitonic_end p r
                    else [Send 0 2 0; Finalize]) <$>
          seq 0 (S (cells (p - 1)))) input beyond junk) net →
    ∃ t, reachable net t ∧ finished t = true ∧
         nodes t !! 0%nat =
           Some (Node []
                   (merge_result (p - 1) true input ++
                    [junk (cells (p - 1)) 0%nat; junk (cells (p - 1)) 1%nat])
                   [merge_result (p - 1) true input]) ∧
         (terminal net → net = t).
Proof.
  intros Hp Hinput Hbeyond net Hnet.
  destruct (bitonic_ends p input beyond junk Hp Hinput Hbeyond)
    as (net' & Hreach & Hfin & Hroot).
  destruct (runs_agree _ _ _ Hreach (finished_terminal _ Hfin) Hnet)
    as (t & Ht & Heq & Hstuck).
  exists t. split; [done|]. split; [by eapply equiv_finished|].
  split; [|done]. destruct Heq as (Hnodes & _). by rewrite <-Hnodes.
Qed.


(** The second program on its fixed sequence of 16 elements (9
    processes): whatever the other arrays hold, every run that ends has
    displayed 1, 2, .., 16. *)
Lemma main_bitonic_fixed_sequence (beyond : buffer) (junk : nat → nat → Z) :
  length beyond = 2%nat →
  ∃ progs,
    main_bitonic_progs 9 = Some progs ∧
    ∀ net, reachable (start_bitonic progs A16_bitonic beyond junk) net →
      (∃ net', reachable net net' ∧ finished net' = true) ∧
      (finished net = true → displayed 0 net = [seqZ 1 16]).
Proof.
  intros Hbeyond.
  pose proof (main_bitonic_progs_closed 4 ltac:(lia)) as Hprogs.
  change (2 ^ Z.of_nat (4 - 1) + 1) with 9 in Hprogs.
  eexists. split; [exact Hprogs|]. intros net Hnet.
  destruct (bitonic_runs_agree 4 A16_bitonic beyond junk
              ltac:(lia) eq_refl Hbeyond net Hnet)
    as (t & Ht & Hfin & Hroot & Hstuck).
  split; [by exists t|]. intros Hdone.
  rewrite (Hstuck (finished_terminal _ Hdone)).
  unfold displayed. rewrite Hroot. vm_compute. reflexivity.
Qed.

End second_program.

Section second_program_examples.


End second_program_examples.

(** ** Examples *)

Section examples.

Example compareSwap_ascending :
  compareSwap [3; 1; 2; 2] 4 true = [2; 1; 3; 2] ∧
  compareSwap_swaps [3; 1; 2; 2] 4 true = [0%nat].
Proof. split; reflexivity. Qed.

Example compareSwap_descending :
  compareSwap [3; 1; 2; 2] 4 false = [3; 2; 2; 1] ∧
  compareSwap_swaps [3; 1; 2; 2] 4 false = [1%nat].
Proof. split; reflexivity. Qed.

Example isInSubset_two_of_eight :
  isInSubset_nodes 8 8 2 3 = Some [3; 7].
Proof. reflexivity. Qed.

Example rounds_sixteen : rounds 16 = Some [(8, 1); (4, 2); (2, 4)].
Proof. reflexivity. Qed.

Example widths_sixteen : widths 16 = Some [4; 8; 16].
Proof. reflexivity. Qed.

(** The operations of the ranks 0, 1 and 2 in a merge of width 8 led by
    rank 0. *)
Example bitonicSort_eight_master :
  bitonicSort 8 0 0 true =
  Some [CompareSwap 8 true; Send 4 4 2; CompareSwap 4 true;
        Send 2 2 1; CompareSwap 2 true;
        Recv 2 2 1; Recv 4 2 2; Recv 6 2 3].
Proof. reflexivity. Qed.

Example bitonicSort_eight_rank1 :
  bitonicSort 8 0 1 true = Some [Recv 0 2 0; CompareSwap 2 true; Send 0 2 0].
Proof. reflexivity. Qed.

Example bitonicSort_eight_rank2 :
  bitonicSort 8 0 2 true =
  Some [Recv 0 4 0; CompareSwap 4 true; Send 2 2 3; CompareSwap 2 true;
        Send 0 2 0].
Proof. reflexivity. Qed.

(** A descending merge of width 4 led by rank 2. *)
Example merge_four_descending :
  ∃ progs net,
    merge_progs 4 4 2 false = Some progs ∧
    run 20 (merge_start progs
              [[0; 0; 0; 0]; [0; 0; 0; 0]; [4; 9; 7; 1]; [0; 0; 0; 0]]) =
      Some net ∧
    buf <$> nodes net !! 2%nat = Some [9; 7; 4; 1].
Proof.
  eexists _, _. split; [reflexivity|]. split; [vm_compute; reflexivity|].
  reflexivity.
Qed.

(** With 4 processes the sequence has 6 elements.  No error is reported:
    rank 0 runs to its end and displays a sequence that is not sorted,
    while rank 2 waits for ever for a block from rank 3, which takes part
    in no exchange. *)
Example six_elements_run :
  ∃ progs net,
    main_progs 4 = Some progs ∧
    reachable (start progs [5; 3; 8; 1; 7; 2] (fun _ _ => 0)) net ∧
    displayed 0 net = [[1; 3; 5; 8; 7; 2]] ∧
    prog <$> nodes net !! 2%nat = Some [Recv 2 2 3; Finalize] ∧
    ∀ r, exec r net = None.
Proof.
  eexists _, (Nat.iter 12 sweep _). split; [reflexivity|]. split.
  { do 12 (eapply rtc_trans; [apply sweep_reachable|]). simpl. done. }
  split; [vm_compute; reflexivity|]. split; [vm_compute; reflexivity|].
  intros [|[|[|[|r]]]]; vm_compute; reflexivity.
Qed.

End examples.
